(** * InstanceSeparator: instance and assembly discovery

    A shallow embedding of [projects/_not_working/instance_separator.py].

    Conventions of the embedding.
    - Python floats are read as exact rationals ([Q]); comparisons are the
      order of [Q], float equality is [Qeq_bool].
    - Scene nodes (PyMEL transforms and shapes) are opaque handles ([Node]).
    - The helpers the module imports from other packages ([Matrices] of
      mayatk, [math.dist]) are operations of a type class; the scene queries
      (PyMEL, NodeUtils, MatUtils, XformUtils) are fields of a [Scene] record
      whose answers stay fixed during one discovery pass.
    - A Python [dict] is an association list in insertion order.
    - Object identity ([is], [id()]) of payloads is the [oid] field; the
      descriptors handled by [_group_assemblies] live in a store (a list) and
      are referred to by their position in it. *)

From Stdlib Require Import String.
From Stdlib Require Import List ZArith QArith Qabs Qminmax Qround.
From Stdlib Require Import Lia Lqa Bool Permutation Sorted FunctionalExtensionality.
Import ListNotations.
Local Open Scope Q_scope.

Set Implicit Arguments.

(* ------------------------------------------------------------------ *)
(** ** Python built-ins *)

Definition Node : Type := nat.

Definition Vec3 : Type := (Q * Q * Q)%type.

Definition vec_x (v : Vec3) : Q := fst (fst v).
Definition vec_y (v : Vec3) : Q := snd (fst v).
Definition vec_z (v : Vec3) : Q := snd v.

(** [v[i] for i in range(3)] *)
Definition vec_items (v : Vec3) : list Q := [vec_x v; vec_y v; vec_z v].

Definition Qltb (a b : Q) : bool := negb (Qle_bool b a).

(** [sum(xs)]: the accumulator starts at 0. *)
Definition py_sum (xs : list Q) : Q := fold_left Qplus xs 0.

(** [max] over a non-empty sequence: the first maximal item. *)
Definition py_max1 (x : Q) (xs : list Q) : Q :=
  fold_left (fun best y => if Qltb best y then y else best) xs x.

(** [max(xs, key=key)]: the first item with the greatest key; [None] on an
    empty sequence (where Python raises [ValueError]). *)
Definition py_max_by {A : Type} (key : A -> Q) (xs : list A) : option A :=
  match xs with
  | [] => None
  | x :: r =>
      Some (fold_left (fun best y => if Qltb (key best) (key y) then y else best) r x)
  end.

(** [round(x)] to the nearest integer, ties to even. *)
Definition round_half_even (y : Q) : Z :=
  let f := Qfloor y in
  let r := y - inject_Z f in
  if Qltb r (1 # 2) then f
  else if Qltb (1 # 2) r then (f + 1)%Z
  else if Z.even f then f else (f + 1)%Z.

(** [round(x, ndigits)] *)
Definition py_round (x : Q) (ndigits : nat) : Q :=
  let scale := inject_Z (10 ^ Z.of_nat ndigits) in
  Qred (inject_Z (round_half_even (x * scale)) / scale).

Definition round_vec (v : Vec3) (ndigits : nat) : Vec3 :=
  (py_round (vec_x v) ndigits, py_round (vec_y v) ndigits, py_round (vec_z v) ndigits).

(** [a % m] on floats for a positive modulus: the result is in [0, m). *)
Definition py_fmod (a m : Q) : Q := a - m * inject_Z (Qfloor (a / m)).

(** [sorted(xs)] with the order [le] on the keys: a stable sort.  An item is
    placed before the first item of the already sorted tail that is not
    smaller, so equal items keep their input order. *)
Fixpoint insert_sorted {A : Type} (le : A -> A -> bool) (x : A) (l : list A) : list A :=
  match l with
  | [] => [x]
  | y :: r => if le x y then x :: y :: r else y :: insert_sorted le x r
  end.

Definition py_sorted {A : Type} (le : A -> A -> bool) (l : list A) : list A :=
  fold_right (insert_sorted le) [] l.

(** Lexicographic [<=] of two float sequences (tuple comparison). *)
Fixpoint lex_le (xs ys : list Q) : bool :=
  match xs, ys with
  | [], _ => true
  | _ :: _, [] => false
  | x :: xr, y :: yr =>
      if Qltb x y then true else if Qltb y x then false else lex_le xr yr
  end.

Fixpoint list_eqb {A : Type} (eqb : A -> A -> bool) (xs ys : list A) : bool :=
  match xs, ys with
  | [], [] => true
  | x :: xr, y :: yr => eqb x y && list_eqb eqb xr yr
  | _, _ => false
  end.

Definition option_eqb {A : Type} (eqb : A -> A -> bool) (x y : option A) : bool :=
  match x, y with
  | None, None => true
  | Some a, Some b => eqb a b
  | _, _ => false
  end.

Definition vec_eqb (a b : Vec3) : bool :=
  Qeq_bool (vec_x a) (vec_x b) && Qeq_bool (vec_y a) (vec_y b)
  && Qeq_bool (vec_z a) (vec_z b).

(** Tuple comparison of two string tuples. *)
Fixpoint strings_le (xs ys : list string) : bool :=
  match xs, ys with
  | [], _ => true
  | _ :: _, [] => false
  | x :: xr, y :: yr =>
      match String.compare x y with
      | Lt => true
      | Gt => false
      | Eq => strings_le xr yr
      end
  end.

(* ------------------------------------------------------------------ *)
(** ** Dictionaries *)

Section Dict.
Variables K V : Type.
Variable keq : K -> K -> bool.

Definition dict : Type := list (K * V).

Fixpoint dict_get (d : dict) (k : K) : option V :=
  match d with
  | [] => None
  | (k', v) :: r => if keq k' k then Some v else dict_get r k
  end.

(** [d[k] = v]: an existing key keeps its position. *)
Fixpoint dict_set (d : dict) (k : K) (v : V) : dict :=
  match d with
  | [] => [(k, v)]
  | (k', v') :: r => if keq k' k then (k', v) :: r else (k', v') :: dict_set r k v
  end.

Definition dict_mem (d : dict) (k : K) : bool :=
  match dict_get d k with Some _ => true | None => false end.

Definition dict_values (d : dict) : list V := map snd d.
Definition dict_keys (d : dict) : list K := map fst d.
End Dict.

(** [d[k].append(x)] on a [defaultdict(list)]. *)
Definition dict_append {K A : Type} (keq : K -> K -> bool)
    (d : dict K (list A)) (k : K) (x : A) : dict K (list A) :=
  match dict_get keq d k with
  | Some l => dict_set keq d k (l ++ [x])
  | None => dict_set keq d k [x]
  end.

(** [d.get(k, [])] *)
Definition dict_get_list {K A : Type} (keq : K -> K -> bool)
    (d : dict K (list A)) (k : K) : list A :=
  match dict_get keq d k with
  | Some l => l
  | None => []
  end.

(** [l.pop(i)] keeps the other items in order. *)
Fixpoint list_pop {A : Type} (l : list A) (i : nat) : list A :=
  match l, i with
  | [], _ => []
  | _ :: r, O => r
  | x :: r, S j => x :: list_pop r j
  end.

(** [l.remove(x)]: the first item that is [x] or equal to [x] goes. *)
Fixpoint list_remove {A : Type} (same : A -> bool) (l : list A) : list A :=
  match l with
  | [] => []
  | y :: r => if same y then r else y :: list_remove same r
  end.

(** [enumerate(l)] *)
Definition enumerate {A : Type} (l : list A) : list (nat * A) :=
  combine (seq 0 (length l)) l.

(* ------------------------------------------------------------------ *)
(** ** Exceptions *)

(** The exceptions that can leave the module. *)
Inductive Raised : Type :=
| NoTransformsSupplied
    (** [RuntimeError("No transforms supplied for instance separation.")] *)
| NoMeshPayloads
    (** [RuntimeError("No mesh payloads discovered; aborting instance separation.")] *)
| TemplateSlotMissing (slot : nat) (anchor : Node)
    (** [RuntimeError("Template slot %s missing payload for anchor %s")] *)
| MatrixQueryFailed (node : Node)
    (** a [RuntimeError] out of [Matrices.to_mmatrix] that nothing catches *)
| MaxOfEmptySequence
    (** the [ValueError] of [max] on an empty sequence *).

Definition result (A : Type) : Type := (Raised + A)%type.

Definition raise {A : Type} (e : Raised) : result A := inl e.
Definition ret {A : Type} (a : A) : result A := inr a.

Definition bind {A B : Type} (r : result A) (k : A -> result B) : result B :=
  match r with
  | inl e => inl e
  | inr a => k a
  end.

Notation "x <- c ;; k" := (bind c (fun x => k))
  (at level 61, c at next level, right associativity).
Notation "' pat <- c ;; k" := (bind c (fun x => match x with pat => k end))
  (at level 61, pat pattern, c at next level, right associativity).

(* ------------------------------------------------------------------ *)
(** ** External helpers *)

(** [mayatk.xform_utils.matrices.Matrices] and [om.MMatrix]. *)
Class Matrices : Type := {
  MMatrix : Type;
  (** [om.MMatrix()], the identity *)
  mm_identity : MMatrix;
  (** [==] on matrices *)
  mm_eqb : MMatrix -> MMatrix -> bool;
  mm_eqb_eq : forall a b, mm_eqb a b = true -> a = b;
  mult : MMatrix -> MMatrix -> MMatrix;
  inverse : MMatrix -> MMatrix;
  (** [Matrices.decompose(m)] is (translation, rotation in degrees, scale) *)
  decompose : MMatrix -> Vec3 * Vec3 * Vec3;
  (** [math.dist] *)
  math_dist : Vec3 -> Vec3 -> Q
}.

Definition translation_of `{Matrices} (m : MMatrix) : Vec3 := fst (fst (decompose m)).
Definition rotation_of `{Matrices} (m : MMatrix) : Vec3 := snd (fst (decompose m)).
Definition scale_of `{Matrices} (m : MMatrix) : Vec3 := snd (decompose m).

(* ------------------------------------------------------------------ *)
(** ** Data classes *)

Section DataModel.
Context {ML : Matrices}.

Record InstancePayload : Type := {
  oid : nat;
  transform : Node;
  shape : Node;
  matrix : MMatrix;
  bbox_center : Vec3;
  bbox_size : Vec3;
  materials : list string;
  parent : option Node;
  visibility : bool;
  vertex_count : Z;
  source_transform : Node;
  local_matrix : MMatrix;
  world_position : Vec3
}.

Definition material_signature (p : InstancePayload) : list string := materials p.

(** [a is b] *)
Definition same_object (a b : InstancePayload) : bool := Nat.eqb (oid a) (oid b).

(** The [__eq__] a dataclass generates: the fields, compared as a tuple. *)
Definition payload_eqb (a b : InstancePayload) : bool :=
  Nat.eqb (transform a) (transform b)
  && Nat.eqb (shape a) (shape b)
  && mm_eqb (matrix a) (matrix b)
  && vec_eqb (bbox_center a) (bbox_center b)
  && vec_eqb (bbox_size a) (bbox_size b)
  && list_eqb String.eqb (materials a) (materials b)
  && option_eqb Nat.eqb (parent a) (parent b)
  && Bool.eqb (visibility a) (visibility b)
  && Z.eqb (vertex_count a) (vertex_count b)
  && Nat.eqb (source_transform a) (source_transform b)
  && mm_eqb (local_matrix a) (local_matrix b)
  && vec_eqb (world_position a) (world_position b).

Record InstanceGroup : Type := {
  prototype : InstancePayload;
  members : list InstancePayload
}.

Definition add_member (g : InstanceGroup) (payload : InstancePayload) : InstanceGroup :=
  {| prototype := prototype g; members := members g ++ [payload] |}.

Definition all_payloads (g : InstanceGroup) : list InstancePayload :=
  prototype g :: members g.

(** [(vertex_count, rounded bbox, materials)] *)
Definition Signature : Type := (Z * Vec3 * list string)%type.

Definition sig_eqb (a b : Signature) : bool :=
  Z.eqb (fst (fst a)) (fst (fst b))
  && vec_eqb (snd (fst a)) (snd (fst b))
  && list_eqb String.eqb (snd a) (snd b).

(** A component signature paired with the 9-tuple of the local matrix. *)
Definition AssemblySignature : Type := (Signature * list Q)%type.

Definition asig_eqb (a b : AssemblySignature) : bool :=
  sig_eqb (fst a) (fst b) && list_eqb Qeq_bool (snd a) (snd b).

Record AssemblyTemplateSlot : Type := {
  slot_id : nat;
  signature : Signature;
  reference_matrix : MMatrix;
  prototype_payload : InstancePayload;
  is_root : bool
}.

Record AssemblyDescriptor : Type := {
  ad_source_transform : Node;
  components : list InstancePayload;
  ad_signature : list AssemblySignature;
  root_component : InstancePayload;
  root_signature : Signature;
  matched_slots : dict nat InstancePayload
}.

(** [prototype] and [members] refer to descriptors of the store. *)
Record AssemblyGroup : Type := {
  ag_prototype : nat;
  template_slots : list AssemblyTemplateSlot;
  ag_members : list nat
}.

(** The constructor arguments kept on [self]. *)
Record InstanceSeparator : Type := {
  tolerance : Q;
  require_same_material : bool;
  split_shells : bool;
  rebuild_instances : bool;
  template_position_tolerance : Q;
  template_rotation_tolerance : Q;
  derive_anchor_assemblies : bool;
  anchor_capture_multiplier : Q;
  collapse_rebuilt_assemblies : bool;
  verbose : bool
}.

Definition default_separator : InstanceSeparator :=
  {| tolerance := 98 # 100;
     require_same_material := true;
     split_shells := true;
     rebuild_instances := true;
     template_position_tolerance := 1 # 10;
     template_rotation_tolerance := 5;
     derive_anchor_assemblies := true;
     anchor_capture_multiplier := 4;
     collapse_rebuilt_assemblies := true;
     verbose := false |}.

(** The two caches of [self]. *)
Record Registry : Type := {
  component_to_source : dict Node Node;
  source_world_mats : dict Node MMatrix
}.

Definition empty_registry : Registry :=
  {| component_to_source := []; source_world_mats := [] |}.

(* ---------------------------------------------------------------- *)
(** ** Similarity grouping *)

Variable self : InstanceSeparator.

Definition materials_match (payload proto : InstancePayload) : bool :=
  if negb (require_same_material self) then true
  else list_eqb String.eqb (material_signature payload) (material_signature proto).

(** The local [_ratio] of [_geometry_matches]. *)
Definition ratio (a b : Q) : Q :=
  let denom := Qmax (Qmax a b) (1 # 1000000) in
  1 - Qabs (a - b) / denom.

Definition geometry_similarity (payload proto : InstancePayload) : Q :=
  let size_a := bbox_size payload in
  let size_b := bbox_size proto in
  let axis_similarity :=
    py_sum (map (fun ab => ratio (fst ab) (snd ab))
              (combine (vec_items size_a) (vec_items size_b))) / 3 in
  let volume_a := Qmax (vec_x size_a * vec_y size_a * vec_z size_a) (1 # 1000000000000) in
  let volume_b := Qmax (vec_x size_b * vec_y size_b * vec_z size_b) (1 # 1000000000000) in
  let volume_similarity := 1 - Qabs (volume_a - volume_b) / Qmax volume_a volume_b in
  (axis_similarity + volume_similarity) * (1 # 2).

Definition geometry_matches (payload proto : InstancePayload) : bool :=
  if negb (Z.eqb (vertex_count payload) (vertex_count proto)) then false
  else Qle_bool (tolerance self) (geometry_similarity payload proto).

(** [_match_group]: the position of the first group whose prototype fits. *)
Fixpoint match_group_from (payload : InstancePayload) (groups : list InstanceGroup)
    (i : nat) : option nat :=
  match groups with
  | [] => None
  | g :: r =>
      if negb (materials_match payload (prototype g)) then match_group_from payload r (S i)
      else if geometry_matches payload (prototype g) then Some i
      else match_group_from payload r (S i)
  end.

Definition match_group (payload : InstancePayload) (groups : list InstanceGroup)
    : option nat :=
  match_group_from payload groups 0.

(** [groups[i].add_member(payload)] *)
Fixpoint add_member_at (groups : list InstanceGroup) (i : nat)
    (payload : InstancePayload) : list InstanceGroup :=
  match groups, i with
  | [], _ => []
  | g :: r, O => add_member g payload :: r
  | g :: r, S j => g :: add_member_at r j payload
  end.

(** One iteration of the loop of [_group_payloads]. *)
Definition group_step (groups : list InstanceGroup) (payload : InstancePayload)
    : list InstanceGroup :=
  match match_group payload groups with
  | None => groups ++ [{| prototype := payload; members := [] |}]
  | Some i => add_member_at groups i payload
  end.

Definition group_payloads (payloads : list InstancePayload) : list InstanceGroup :=
  fold_left group_step payloads [].

(* ---------------------------------------------------------------- *)
(** ** Signatures *)

Definition component_signature (payload : InstancePayload) : Signature :=
  (vertex_count payload, round_vec (bbox_size payload) 4, material_signature payload).

Definition payload_volume (payload : InstancePayload) : Q :=
  let size := bbox_size payload in
  Qmax (vec_x size) (1 # 10000) * Qmax (vec_y size) (1 # 10000)
  * Qmax (vec_z size) (1 # 10000).

Definition matrix_signature (m : MMatrix) : list Q :=
  vec_items (round_vec (translation_of m) 4)
  ++ vec_items (round_vec (rotation_of m) 2)
  ++ vec_items (round_vec (scale_of m) 4).

Definition assembly_component_signature (payload : InstancePayload) : AssemblySignature :=
  (component_signature payload, matrix_signature (local_matrix payload)).

(** Tuple comparison, as [sorted] uses it on assembly signatures. *)
Fixpoint lex_compare (xs ys : list Q) : comparison :=
  match xs, ys with
  | [], [] => Eq
  | [], _ :: _ => Lt
  | _ :: _, [] => Gt
  | x :: xr, y :: yr =>
      match x ?= y with
      | Eq => lex_compare xr yr
      | c => c
      end
  end.

Fixpoint strings_compare (xs ys : list string) : comparison :=
  match xs, ys with
  | [], [] => Eq
  | [], _ :: _ => Lt
  | _ :: _, [] => Gt
  | x :: xr, y :: yr =>
      match String.compare x y with
      | Eq => strings_compare xr yr
      | c => c
      end
  end.

Definition sig_compare (a b : Signature) : comparison :=
  match Z.compare (fst (fst a)) (fst (fst b)) with
  | Eq =>
      match lex_compare (vec_items (snd (fst a))) (vec_items (snd (fst b))) with
      | Eq => strings_compare (snd a) (snd b)
      | c => c
      end
  | c => c
  end.

Definition asig_le (a b : AssemblySignature) : bool :=
  match sig_compare (fst a) (fst b) with
  | Lt => true
  | Gt => false
  | Eq => match lex_compare (snd a) (snd b) with Gt => false | _ => true end
  end.

(** [tuple(sorted(self._assembly_component_signature(p) for p in components))] *)
Definition signature_of_components (comps : list InstancePayload)
    : list AssemblySignature :=
  py_sorted asig_le (map assembly_component_signature comps).

(** Order of the [world_position] keys. *)
Definition position_le (a b : InstancePayload) : bool :=
  lex_le (vec_items (world_position a)) (vec_items (world_position b)).

(** Order of [sorted(..., key=self._payload_volume, reverse=True)]. *)
Definition volume_ge (a b : InstancePayload) : bool :=
  Qle_bool (payload_volume b) (payload_volume a).

(* ---------------------------------------------------------------- *)
(** ** Matrix scoring *)

Definition relative_matrix (root_matrix payload_matrix : MMatrix) : MMatrix :=
  mult (inverse root_matrix) payload_matrix.

Definition translation_within_tolerance (candidate reference : MMatrix) : bool * Q :=
  let cand_t := translation_of candidate in
  let ref_t := translation_of reference in
  let delta := math_dist cand_t ref_t in
  (Qle_bool delta (template_position_tolerance self), delta).

Definition angle_delta (angle_a angle_b : Q) : Q :=
  py_fmod (angle_a - angle_b + 180) 360 - 180.

Definition rotation_within_tolerance (candidate reference : MMatrix) : bool * Q :=
  let cand_r := rotation_of candidate in
  let ref_r := rotation_of reference in
  let deltas :=
    map (fun ab => angle_delta (fst ab) (snd ab))
      (combine (vec_items cand_r) (vec_items ref_r)) in
  let max_delta :=
    match map Qabs deltas with
    | [] => 0
    | d :: r => py_max1 d r
    end in
  (Qle_bool max_delta (template_rotation_tolerance self), max_delta).

Definition matrix_difference_score (candidate reference : MMatrix) : option Q :=
  let (translation_ok, translation_delta) :=
    translation_within_tolerance candidate reference in
  let (rotation_ok, rotation_delta) :=
    rotation_within_tolerance candidate reference in
  if negb translation_ok || negb rotation_ok then None
  else Some (translation_delta
             + rotation_delta / Qmax (template_rotation_tolerance self) (1 # 1000)).

(** The inner loop shared by both matchers: the first candidate with the
    least score among those that have one, with its position. *)
Fixpoint best_candidate (score : InstancePayload -> option Q)
    (cands : list (nat * InstancePayload))
    (best : option (nat * InstancePayload * Q)) : option (nat * InstancePayload * Q) :=
  match cands with
  | [] => best
  | (idx, payload) :: r =>
      match score payload with
      | None => best_candidate score r best
      | Some s =>
          match best with
          | None => best_candidate score r (Some (idx, payload, s))
          | Some (_, _, best_score) =>
              if Qltb s best_score
              then best_candidate score r (Some (idx, payload, s))
              else best_candidate score r best
          end
      end
  end.

(* ---------------------------------------------------------------- *)
(** ** Anchor templates *)

Definition payload_distance (payload_a payload_b : InstancePayload) : Q :=
  math_dist (world_position payload_a) (world_position payload_b).

Definition neighbor_radius (anchor : InstancePayload)
    (comps : list InstancePayload) (assembly_count : Z) : Q :=
  if (assembly_count <=? 0)%Z then 1
  else
    let distances :=
      map (payload_distance anchor)
        (filter (fun payload => negb (same_object payload anchor)) comps) in
    match distances with
    | [] => 1
    | _ :: _ =>
        let distances := py_sorted Qle_bool distances in
        let approx_components :=
          Z.max (Qceiling (inject_Z (Z.of_nat (length comps))
                           / inject_Z (Z.max assembly_count 1))) 1 in
        let neighbor_index :=
          Z.min (Z.of_nat (length distances) - 1) (Z.max (approx_components - 1) 0) in
        let target_distance := nth (Z.to_nat neighbor_index) distances 0 in
        target_distance + template_position_tolerance self
    end.

Definition anchor_capture_radius (anchor : InstancePayload)
    (comps : list InstancePayload) (assembly_count : Z) : Q :=
  let size := bbox_size anchor in
  let longest_axis := py_max1 (vec_x size) [vec_y size; vec_z size] in
  let scale_radius := Qmax (longest_axis * anchor_capture_multiplier self) 1 in
  let neighbor_radius := neighbor_radius anchor comps assembly_count in
  Qmax scale_radius neighbor_radius.

Fixpoint first_duplicated (comps candidates : list InstancePayload)
    : list InstancePayload :=
  match candidates with
  | [] => []
  | candidate :: r =>
      let signature := component_signature candidate in
      let duplicates :=
        filter (fun payload => sig_eqb (component_signature payload) signature) comps in
      if (2 <=? length duplicates)%nat then py_sorted position_le duplicates
      else first_duplicated comps r
  end.

Definition select_anchor_payloads (comps : list InstancePayload)
    : list InstancePayload :=
  first_duplicated comps (py_sorted volume_ge comps).

Fixpoint anchor_slots_from (anchor : InstancePayload) (capture_radius : Q)
    (comps : list InstancePayload) (next_id : nat) : list AssemblyTemplateSlot :=
  match comps with
  | [] => []
  | payload :: r =>
      if Qltb capture_radius (payload_distance anchor payload)
      then anchor_slots_from anchor capture_radius r next_id
      else
        {| slot_id := next_id;
           signature := component_signature payload;
           reference_matrix := relative_matrix (matrix anchor) (matrix payload);
           prototype_payload := payload;
           is_root := same_object payload anchor |}
        :: anchor_slots_from anchor capture_radius r (S next_id)
  end.

Definition build_anchor_template_slots (anchor : InstancePayload)
    (comps : list InstancePayload) (assembly_count : Z) : list AssemblyTemplateSlot :=
  let capture_radius := anchor_capture_radius anchor comps assembly_count in
  anchor_slots_from anchor capture_radius comps 0.

Definition node_in (n : Node) (l : list Node) : bool := existsb (Nat.eqb n) l.

Definition Availability : Type := dict Signature (list InstancePayload).

Definition build_anchor_availability (comps consumed_payloads anchors : list InstancePayload)
    : Availability :=
  let consumed := map transform consumed_payloads in
  let anchor_transforms := map transform anchors in
  let availability :=
    fold_left
      (fun (av : Availability) payload =>
         if node_in (transform payload) consumed then av
         else if node_in (transform payload) anchor_transforms then av
         else dict_append sig_eqb av (component_signature payload) payload)
      comps [] in
  map (fun kv => (fst kv, py_sorted position_le (snd kv))) availability.

Definition Matches : Type := dict nat InstancePayload.

(** The score of [payload] for [slot], seen from [root_matrix]. *)
Definition slot_score (root_matrix : MMatrix) (slot : AssemblyTemplateSlot)
    (payload : InstancePayload) : option Q :=
  let relative := relative_matrix root_matrix (matrix payload) in
  matrix_difference_score relative (reference_matrix slot).

(** The loop of [_match_anchor_to_template_slots]; the availability lists
    are shared with the caller, so the function hands them back. *)
Fixpoint match_anchor_slots (anchor : InstancePayload)
    (slots : list AssemblyTemplateSlot) (availability : Availability)
    (matches : Matches) : option Matches * Availability :=
  match slots with
  | [] => (Some matches, availability)
  | slot :: r =>
      if is_root slot
      then match_anchor_slots anchor r availability
             (dict_set Nat.eqb matches (slot_id slot) anchor)
      else
        let candidates := dict_get_list sig_eqb availability (signature slot) in
        match best_candidate (slot_score (matrix anchor) slot) (enumerate candidates) None with
        | None => (None, availability)
        | Some (best_idx, best_payload, _) =>
            match_anchor_slots anchor r
              (dict_set sig_eqb availability (signature slot)
                 (list_pop candidates best_idx))
              (dict_set Nat.eqb matches (slot_id slot) best_payload)
        end
  end.

Definition match_anchor_to_template_slots (anchor : InstancePayload)
    (slots : list AssemblyTemplateSlot) (availability : Availability)
    : option Matches * Availability :=
  match_anchor_slots anchor slots availability [].

(** [{slot.slot_id: slot.prototype_payload for slot in template_slots}] *)
Definition slot_mapping (slots : list AssemblyTemplateSlot) : Matches :=
  fold_left (fun (m : Matches) slot =>
               dict_set Nat.eqb m (slot_id slot) (prototype_payload slot))
    slots [].

Fixpoint ordered_slot_payloads (anchor : InstancePayload) (slot_payloads : Matches)
    (slots : list AssemblyTemplateSlot) : result (list InstancePayload) :=
  match slots with
  | [] => ret []
  | slot :: r =>
      match dict_get Nat.eqb slot_payloads (slot_id slot) with
      | None => raise (TemplateSlotMissing (slot_id slot) (transform anchor))
      | Some payload =>
          rest <- ordered_slot_payloads anchor slot_payloads r ;;
          ret (payload :: rest)
      end
  end.

Definition descriptor_from_slot_mapping (anchor : InstancePayload)
    (source : Node) (slot_payloads : Matches)
    (slots : list AssemblyTemplateSlot) : result AssemblyDescriptor :=
  ordered_payloads <- ordered_slot_payloads anchor slot_payloads slots ;;
  ret {| ad_source_transform := source;
         components := ordered_payloads;
         ad_signature := signature_of_components ordered_payloads;
         root_component := anchor;
         root_signature := component_signature anchor;
         matched_slots := slot_payloads |}.

Definition descriptor_from_components (source : Node)
    (comps : list InstancePayload) : result AssemblyDescriptor :=
  match py_max_by payload_volume comps with
  | None => raise MaxOfEmptySequence
  | Some root =>
      ret {| ad_source_transform := source;
             components := comps;
             ad_signature := signature_of_components comps;
             root_component := root;
             root_signature := component_signature root;
             matched_slots := [] |}
  end.

(** The loop over the anchors in [_derive_from_template_anchor]. *)
Fixpoint anchor_occurrences (template_anchor : InstancePayload)
    (slots : list AssemblyTemplateSlot) (anchors : list InstancePayload)
    (availability : Availability) (descriptors : list AssemblyDescriptor)
    (used_transforms : list Node)
    : result (list AssemblyDescriptor * list Node * Availability) :=
  match anchors with
  | [] => ret (descriptors, used_transforms, availability)
  | anchor :: r =>
      if same_object anchor template_anchor
      then anchor_occurrences template_anchor slots r availability descriptors
             used_transforms
      else
        let (matches, availability') :=
          match_anchor_to_template_slots anchor slots availability in
        match matches with
        | None | Some [] =>
            anchor_occurrences template_anchor slots r availability' descriptors
              used_transforms
        | Some m =>
            descriptor <- descriptor_from_slot_mapping anchor (transform anchor) m slots ;;
            anchor_occurrences template_anchor slots r availability'
              (descriptors ++ [descriptor])
              (used_transforms ++ map transform (dict_values m))
        end
  end.

Definition derive_from_template_anchor (template_anchor : InstancePayload)
    (anchors comps : list InstancePayload) (source : Node) (assembly_count : Z)
    : result (list AssemblyDescriptor) :=
  let slots := build_anchor_template_slots template_anchor comps assembly_count in
  if (length slots <=? 1)%nat then ret []
  else
    let root_sig := component_signature template_anchor in
    let root_slots := filter (fun slot => sig_eqb (signature slot) root_sig) slots in
    match root_slots with
    | [root_slot] =>
        if negb (is_root root_slot) then ret []
        else
          let template_mapping := slot_mapping slots in
          let used_transforms := map transform (dict_values template_mapping) in
          template_descriptor <-
            descriptor_from_slot_mapping template_anchor (transform template_anchor)
              template_mapping slots ;;
          let availability :=
            build_anchor_availability comps (dict_values template_mapping) anchors in
          '(descriptors, used_transforms, _) <-
            anchor_occurrences template_anchor slots anchors availability
              [template_descriptor] used_transforms ;;
          if (length descriptors <=? 1)%nat then ret []
          else
            let unused_components :=
              filter (fun payload => negb (node_in (transform payload) used_transforms))
                comps in
            match unused_components with
            | [] => ret descriptors
            | _ :: _ =>
                fallback <- descriptor_from_components source unused_components ;;
                ret (descriptors ++ [fallback])
            end
    | _ => ret []
    end.

Fixpoint first_derivation (candidates anchors comps : list InstancePayload)
    (source : Node) (assembly_count : Z) : result (list AssemblyDescriptor) :=
  match candidates with
  | [] => ret []
  | template_anchor :: r =>
      descriptors <-
        derive_from_template_anchor template_anchor anchors comps source assembly_count ;;
      match descriptors with
      | [] => first_derivation r anchors comps source assembly_count
      | _ :: _ => ret descriptors
      end
  end.

Definition derive_anchor_assemblies_of (source : Node) (comps : list InstancePayload)
    : result (list AssemblyDescriptor) :=
  if (length comps <? 2)%nat then ret []
  else
    let anchors := select_anchor_payloads comps in
    if (length anchors <? 2)%nat then ret []
    else
      let assembly_count := Z.of_nat (length anchors) in
      first_derivation anchors anchors comps source assembly_count.

(* ---------------------------------------------------------------- *)
(** ** Assemblies *)

Fixpoint assemblies_of_buckets (buckets : list (Node * list InstancePayload))
    : result (list AssemblyDescriptor) :=
  match buckets with
  | [] => ret []
  | (source, comps) :: r =>
      anchor_assemblies <-
        (if derive_anchor_assemblies self then derive_anchor_assemblies_of source comps
         else ret []) ;;
      match anchor_assemblies with
      | _ :: _ =>
          rest <- assemblies_of_buckets r ;;
          ret (anchor_assemblies ++ rest)
      | [] =>
          match py_max_by payload_volume comps with
          | None => raise MaxOfEmptySequence
          | Some root =>
              rest <- assemblies_of_buckets r ;;
              ret ({| ad_source_transform := source;
                      components := comps;
                      ad_signature := signature_of_components comps;
                      root_component := root;
                      root_signature := component_signature root;
                      matched_slots := [] |} :: rest)
          end
      end
  end.

Definition build_assemblies (payloads : list InstancePayload)
    : result (list AssemblyDescriptor) :=
  let buckets :=
    fold_left (fun (b : dict Node (list InstancePayload)) payload =>
                 dict_append Nat.eqb b (source_transform payload) payload)
      payloads [] in
  assemblies_of_buckets buckets.

Fixpoint template_slots_from (root : InstancePayload)
    (comps : list InstancePayload) (next_id : nat) : list AssemblyTemplateSlot :=
  match comps with
  | [] => []
  | payload :: r =>
      {| slot_id := next_id;
         signature := component_signature payload;
         reference_matrix := relative_matrix (matrix root) (matrix payload);
         prototype_payload := payload;
         is_root := same_object payload root |}
      :: template_slots_from root r (S next_id)
  end.

Definition build_template_slots (descriptor : AssemblyDescriptor)
    : list AssemblyTemplateSlot :=
  template_slots_from (root_component descriptor) (components descriptor) 0.

(** The loop of [_match_assembly_to_template]. *)
Fixpoint match_assembly_slots (root : InstancePayload)
    (slots : list AssemblyTemplateSlot) (available : Availability)
    (matches : Matches) : option Matches :=
  match slots with
  | [] => Some matches
  | slot :: r =>
      let candidates := dict_get_list sig_eqb available (signature slot) in
      match best_candidate (slot_score (matrix root) slot) (enumerate candidates) None with
      | None => None
      | Some (_, best_payload, _) =>
          match_assembly_slots root r
            (dict_set sig_eqb available (signature slot)
               (list_remove
                  (fun c => same_object c best_payload || payload_eqb c best_payload)
                  candidates))
            (dict_set Nat.eqb matches (slot_id slot) best_payload)
      end
  end.

(** [available], as [_match_assembly_to_template] fills it. *)
Definition available_components (comps : list InstancePayload) : Availability :=
  fold_left (fun (av : Availability) payload =>
               dict_append sig_eqb av (component_signature payload) payload)
    comps [].

Definition match_assembly_to_template (descriptor : AssemblyDescriptor)
    (slots : list AssemblyTemplateSlot) : option Matches :=
  match_assembly_slots (root_component descriptor) slots
    (available_components (components descriptor)) [].

(** A reference to a descriptor of the store: its position, with the fields
    [_group_assemblies] reads, none of which it assigns. *)
Definition DescriptorRef : Type := (nat * AssemblyDescriptor)%type.

Definition select_reference_assembly (bucket : list DescriptorRef)
    : option DescriptorRef :=
  py_max_by (fun ref => inject_Z (Z.of_nat (length (components (snd ref))))) bucket.

(** [store[i].matched_slots = m] *)
Fixpoint set_matched_slots (store : list AssemblyDescriptor) (i : nat) (m : Matches)
    : list AssemblyDescriptor :=
  match store, i with
  | [], _ => []
  | d :: r, O =>
      {| ad_source_transform := ad_source_transform d;
         components := components d;
         ad_signature := ad_signature d;
         root_component := root_component d;
         root_signature := root_signature d;
         matched_slots := m |} :: r
  | d :: r, S j => d :: set_matched_slots r j m
  end.

Definition id_in (i : nat) (ids : list nat) : bool := existsb (Nat.eqb i) ids.

(** State of the loops of [_group_assemblies]. *)
Record GroupingState : Type := {
  gs_store : list AssemblyDescriptor;
  gs_assigned : list nat;
  gs_groups : list AssemblyGroup
}.

(** The inner loop: the descriptors of one bucket against its template. *)
Fixpoint bucket_members (reference : nat) (slots : list AssemblyTemplateSlot)
    (bucket : list DescriptorRef) (store : list AssemblyDescriptor)
    (members : list nat) (assigned : list nat)
    : list AssemblyDescriptor * list nat * list nat :=
  match bucket with
  | [] => (store, members, assigned)
  | (i, descriptor) :: r =>
      if Nat.eqb i reference then bucket_members reference slots r store members assigned
      else
        match match_assembly_to_template descriptor slots with
        | None => bucket_members reference slots r store members assigned
        | Some matches =>
            bucket_members reference slots r (set_matched_slots store i matches)
              (members ++ [i]) (assigned ++ [i])
        end
  end.

Definition SignatureKey : Type := list AssemblySignature.

Fixpoint group_buckets (buckets : list (SignatureKey * list DescriptorRef))
    (st : GroupingState) : GroupingState :=
  match buckets with
  | [] => st
  | (_, bucket) :: r =>
      match select_reference_assembly bucket with
      | None => group_buckets r st
      | Some (reference, ref_descriptor) =>
          let slots := build_template_slots ref_descriptor in
          let store := set_matched_slots (gs_store st) reference (slot_mapping slots) in
          let assigned := gs_assigned st ++ [reference] in
          let '(store, members, assigned) :=
            bucket_members reference slots bucket store [] assigned in
          group_buckets r
            {| gs_store := store;
               gs_assigned := assigned;
               gs_groups :=
                 gs_groups st
                 ++ [{| ag_prototype := reference;
                        template_slots := slots;
                        ag_members := members |}] |}
      end
  end.

Fixpoint group_unassigned (refs : list DescriptorRef) (st : GroupingState)
    : GroupingState :=
  match refs with
  | [] => st
  | (i, descriptor) :: r =>
      if id_in i (gs_assigned st) then group_unassigned r st
      else
        let slots := build_template_slots descriptor in
        group_unassigned r
          {| gs_store := set_matched_slots (gs_store st) i (slot_mapping slots);
             gs_assigned := gs_assigned st;
             gs_groups :=
               gs_groups st
               ++ [{| ag_prototype := i; template_slots := slots; ag_members := [] |}] |}
  end.

Definition signature_buckets (refs : list DescriptorRef)
    : dict SignatureKey (list DescriptorRef) :=
  fold_left
    (fun (b : dict SignatureKey (list DescriptorRef)) (ref : DescriptorRef) =>
       match ad_signature (snd ref) with
       | [] => b
       | _ :: _ => dict_append (list_eqb asig_eqb) b (ad_signature (snd ref)) ref
       end)
    refs [].

(** [_group_assemblies]: the store after the pass and the groups. *)
Definition group_assemblies (assemblies : list AssemblyDescriptor)
    : list AssemblyDescriptor * list AssemblyGroup :=
  let refs := enumerate assemblies in
  let st :=
    group_buckets (signature_buckets refs)
      {| gs_store := assemblies; gs_assigned := []; gs_groups := [] |} in
  let st := group_unassigned refs st in
  (gs_store st, gs_groups st).

(* ---------------------------------------------------------------- *)
(** ** The scene and the payload builder *)

(** What the module asks of Maya.  [to_mmatrix] and [poly_shell_count]
    answer [None] where the call raises [RuntimeError]. *)
Record Scene : Type := {
  (** [pm.ls(nodes, transforms=True, flatten=True)] *)
  ls_transforms : list Node -> list Node;
  (** [pm.ls(sl=True, transforms=True, flatten=True)] *)
  ls_selection : list Node;
  (** [NodeUtils.get_shape_node(t, returned_type="obj")]: no, one or several shapes *)
  get_shape_node : Node -> list Node;
  (** [pm.nodeType(shape) == "mesh"] *)
  is_mesh : Node -> bool;
  to_mmatrix : Node -> option MMatrix;
  (** [XformUtils.get_bounding_box(t, "center|size")] *)
  get_bounding_box : Node -> Vec3 * Vec3;
  get_mats : Node -> list string;
  get_parent : Node -> option Node;
  get_visibility : Node -> bool;
  (** [pm.polyEvaluate(shape, vertex=True)] *)
  poly_vertex_count : Node -> Z;
  (** [pm.polyEvaluate(shape, shell=True)] *)
  poly_shell_count : Node -> option Z;
  (** the transforms [pm.polySeparate(t, ch=False)] returns *)
  poly_separate : Node -> list Node
}.

Variable scene : Scene.

Record InstanceSeparationResult : Type := {
  groups : list InstanceGroup;
  payload_count : nat;
  assemblies : list AssemblyDescriptor;
  assembly_groups : list AssemblyGroup
}.

Definition normalize_nodes (nodes : list Node) : list Node :=
  match nodes with
  | [] => ls_selection scene
  | _ :: _ => ls_transforms scene nodes
  end.

(** The mesh shape of a transform, as the first lines of [_build_payload],
    [_needs_shell_split] and the filter of [_split_transform_shells] find it. *)
Definition mesh_shape (t : Node) : option Node :=
  match get_shape_node scene t with
  | [] => None
  | shape :: _ => if is_mesh scene shape then Some shape else None
  end.

Definition register_source_transform (reg : Registry) (t : Node) : Registry :=
  let mats :=
    if dict_mem Nat.eqb (source_world_mats reg) t then source_world_mats reg
    else
      match to_mmatrix scene t with
      | Some m => dict_set Nat.eqb (source_world_mats reg) t m
      | None => dict_set Nat.eqb (source_world_mats reg) t mm_identity
      end in
  let sources :=
    if dict_mem Nat.eqb (component_to_source reg) t then component_to_source reg
    else dict_set Nat.eqb (component_to_source reg) t t in
  {| component_to_source := sources; source_world_mats := mats |}.

Definition needs_shell_split (t : Node) : bool :=
  match mesh_shape t with
  | None => false
  | Some shape =>
      match poly_shell_count scene shape with
      | None => false
      | Some shell_count => (1 <? shell_count)%Z
      end
  end.

Fixpoint register_shells (reg : Registry) (t : Node) (separated : list Node)
    : Registry * list Node :=
  match separated with
  | [] => (reg, [])
  | node :: r =>
      match mesh_shape node with
      | None => register_shells reg t r
      | Some _ =>
          let reg' :=
            {| component_to_source := dict_set Nat.eqb (component_to_source reg) node t;
               source_world_mats := source_world_mats reg |} in
          let (reg'', valid) := register_shells reg' t r in
          (reg'', node :: valid)
      end
  end.

Definition split_transform_shells (reg : Registry) (t : Node) : Registry * list Node :=
  register_shells reg t (poly_separate scene t).

Fixpoint expand_shells (reg : Registry) (transforms : list Node)
    : Registry * list Node :=
  match transforms with
  | [] => (reg, [])
  | t :: r =>
      let reg := register_source_transform reg t in
      if negb (needs_shell_split t)
      then let (reg', expanded) := expand_shells reg r in (reg', t :: expanded)
      else
        let (reg, split_nodes) := split_transform_shells reg t in
        match split_nodes with
        | _ :: _ =>
            let (reg', expanded) := expand_shells reg r in (reg', split_nodes ++ expanded)
        | [] =>
            let (reg', expanded) := expand_shells reg r in (reg', t :: expanded)
        end
  end.

(** [_build_payload]; [new_id] is the identity of the object it creates. *)
Definition build_payload (reg : Registry) (new_id : nat) (t : Node)
    : result (Registry * option InstancePayload) :=
  match mesh_shape t with
  | None => ret (reg, None)
  | Some shape =>
      match to_mmatrix scene t with
      | None => raise (MatrixQueryFailed t)
      | Some m =>
          let translation := translation_of m in
          let source :=
            match dict_get Nat.eqb (component_to_source reg) t with
            | Some s => s
            | None => t
            end in
          let (mats, source_matrix) :=
            match dict_get Nat.eqb (source_world_mats reg) source with
            | Some sm => (source_world_mats reg, sm)
            | None =>
                let sm :=
                  match to_mmatrix scene source with
                  | Some sm => sm
                  | None => mm_identity
                  end in
                (dict_set Nat.eqb (source_world_mats reg) source sm, sm)
            end in
          let local := mult (inverse source_matrix) m in
          let (center, size) := get_bounding_box scene t in
          ret ({| component_to_source := component_to_source reg;
                  source_world_mats := mats |},
               Some {| oid := new_id;
                       transform := t;
                       shape := shape;
                       matrix := m;
                       bbox_center := center;
                       bbox_size := size;
                       materials := py_sorted String.leb (get_mats scene t);
                       parent := get_parent scene t;
                       visibility := get_visibility scene t;
                       vertex_count := poly_vertex_count scene shape;
                       source_transform := source;
                       local_matrix := local;
                       world_position := round_vec translation 4 |})
      end
  end.

(** [[self._build_payload(node) for node in transforms]] *)
Fixpoint build_payloads (reg : Registry) (next_id : nat) (transforms : list Node)
    : result (Registry * list (option InstancePayload)) :=
  match transforms with
  | [] => ret (reg, [])
  | t :: r =>
      '(reg', payload) <- build_payload reg next_id t ;;
      '(reg'', rest) <- build_payloads reg' (S next_id) r ;;
      ret (reg'', payload :: rest)
  end.

(** [[payload for payload in payloads if payload is not None]] *)
Fixpoint not_none {A : Type} (l : list (option A)) : list A :=
  match l with
  | [] => []
  | Some a :: r => a :: not_none r
  | None :: r => not_none r
  end.

(** The transforms [separate] builds payloads of, with the registry. *)
Definition expanded_transforms (transforms : list Node) : Registry * list Node :=
  let reg := fold_left register_source_transform transforms empty_registry in
  if split_shells self then expand_shells reg transforms else (reg, transforms).

(** [separate], up to the result it logs and hands to the rebuild phase.
    [reg0] is the state of the caches a previous call left on [self]. *)
Definition separate (reg0 : Registry) (nodes : list Node)
    : result (Registry * InstanceSeparationResult) :=
  let transforms := normalize_nodes nodes in
  match transforms with
  | [] => raise NoTransformsSupplied
  | _ :: _ =>
      let (reg, transforms) := expanded_transforms transforms in
      '(reg, built) <- build_payloads reg 0 transforms ;;
      let payloads := not_none built in
      match payloads with
      | [] => raise NoMeshPayloads
      | _ :: _ =>
          let groups := group_payloads payloads in
          assemblies <- build_assemblies payloads ;;
          let (assemblies, assembly_groups) := group_assemblies assemblies in
          ret (reg,
               {| groups := groups;
                  payload_count := length payloads;
                  assemblies := assemblies;
                  assembly_groups := assembly_groups |})
      end
  end.

End DataModel.

(* ------------------------------------------------------------------ *)
(** ** The specification's reading of the geometry match *)

Section SimilaritySpec.
Context {ML : Matrices}.

(** Average of the three per-axis ratios. *)
Definition axis_similarity (a b : InstancePayload) : Q :=
  (ratio (vec_x (bbox_size a)) (vec_x (bbox_size b))
   + ratio (vec_y (bbox_size a)) (vec_y (bbox_size b))
   + ratio (vec_z (bbox_size a)) (vec_z (bbox_size b))) / 3.

Definition volume_similarity_of (va vb : Q) : Q :=
  1 - Qabs (va - vb) / Qmax va vb.

(** Volume with every side clamped from below, as the specification has it. *)
Definition side_clamped_volume (eps : Q) (size : Vec3) : Q :=
  Qmax (vec_x size) eps * Qmax (vec_y size) eps * Qmax (vec_z size) eps.

(** Volume with the product clamped from below, as [_geometry_matches] has it. *)
Definition product_clamped_volume (size : Vec3) : Q :=
  Qmax (vec_x size * vec_y size * vec_z size) (1 # 1000000000000).

(** The match predicate for a given notion of volume. *)
Definition geometry_match_with (volume : Vec3 -> Q) (self : InstanceSeparator)
    (a b : InstancePayload) : Prop :=
  vertex_count a = vertex_count b
  /\ tolerance self
     <= (axis_similarity a b
         + volume_similarity_of (volume (bbox_size a)) (volume (bbox_size b))) / 2.
End SimilaritySpec.

(* ------------------------------------------------------------------ *)
(** ** A concrete scene

    Axis-aligned boxes that are only translated: a world matrix is its
    translation in thousandths of a unit, rotation is zero and scale is one.
    The distance is the Euclidean one wherever the squared distance is a
    rational square. *)

Module Boxes.

Definition T3 : Type := (Z * Z * Z)%type.

Definition t3_eqb (a b : T3) : bool :=
  let '(ax, ay, az) := a in
  let '(bx, b_y, bz) := b in
  Z.eqb ax bx && Z.eqb ay b_y && Z.eqb az bz.

Definition t3_add (a b : T3) : T3 :=
  let '(ax, ay, az) := a in
  let '(bx, b_y, bz) := b in
  (ax + bx, ay + b_y, az + bz)%Z.

Definition t3_opp (a : T3) : T3 :=
  let '(ax, ay, az) := a in (- ax, - ay, - az)%Z.

Definition t3_decompose (a : T3) : Vec3 * Vec3 * Vec3 :=
  let '(ax, ay, az) := a in
  ((inject_Z ax / 1000, inject_Z ay / 1000, inject_Z az / 1000), (0, 0, 0), (1, 1, 1)).

Definition q_sqrt (s : Q) : Q :=
  Z.sqrt (Qnum s * Zpos (Qden s)) # Qden s.

Definition euclid (a b : Vec3) : Q :=
  let dx := vec_x a - vec_x b in
  let dy := vec_y a - vec_y b in
  let dz := vec_z a - vec_z b in
  Qred (q_sqrt (Qred (dx * dx + dy * dy + dz * dz))).

Lemma t3_eqb_eq (a b : T3) : t3_eqb a b = true -> a = b.
Proof.
  destruct a as [[ax ay] az], b as [[bx b_y] bz]; simpl.
  rewrite !andb_true_iff, !Z.eqb_eq. intros [[-> ->] ->]. reflexivity.
Qed.

#[export] Instance translations : Matrices :=
  {| MMatrix := T3;
     mm_identity := (0, 0, 0)%Z;
     mm_eqb := t3_eqb;
     mm_eqb_eq := t3_eqb_eq;
     mult := t3_add;
     inverse := t3_opp;
     decompose := t3_decompose;
     math_dist := euclid |}.

(** A box at [pos] with the given size, vertex count and identity. *)
Definition box (id : nat) (pos : T3) (size : Vec3) (vertices : Z) : InstancePayload :=
  {| oid := id;
     transform := id;
     shape := (100 + id)%nat;
     matrix := pos;
     bbox_center := fst (fst (t3_decompose pos));
     bbox_size := size;
     materials := ["lambert1"%string];
     parent := None;
     visibility := true;
     vertex_count := vertices;
     source_transform := id;
     local_matrix := (0, 0, 0)%Z;
     world_position := round_vec (fst (fst (t3_decompose pos))) 4 |}.

(** Two flat square planes, one 2 percent larger than the other. *)
Definition plane_a : InstancePayload := box 0 (0, 0, 0)%Z (1, 0, 1) 4.
Definition plane_b : InstancePayload := box 1 (5000, 0, 0)%Z (102 # 100, 0, 102 # 100) 4.

(** A scene from a parts list: every listed transform carries one mesh
    shape (node 100 + t); any other node is a transform without a shape. *)
Definition Part : Type := (nat * T3 * Vec3 * Z)%type.

Definition part_node (p : Part) : nat := fst (fst (fst p)).
Definition part_pos (p : Part) : T3 := snd (fst (fst p)).
Definition part_size (p : Part) : Vec3 := snd (fst p).
Definition part_vertices (p : Part) : Z := snd p.

Definition find_part (parts : list Part) (t : nat) : option Part :=
  find (fun p => Nat.eqb (part_node p) t) parts.

Definition scene_of (parts : list Part) (shells : nat -> list nat) : Scene :=
  {| ls_transforms := fun nodes => nodes;
     ls_selection := [];
     get_shape_node :=
       fun t => match find_part parts t with Some _ => [(100 + t)%nat] | None => [] end;
     is_mesh := fun _ => true;
     to_mmatrix :=
       fun t => match find_part parts t with
                | Some p => Some (part_pos p)
                | None => Some (0, 0, 0)%Z
                end;
     get_bounding_box :=
       fun t => match find_part parts t with
                | Some p => (fst (fst (t3_decompose (part_pos p))), part_size p)
                | None => ((0, 0, 0), (0, 0, 0))
                end;
     get_mats := fun _ => ["lambert1"%string];
     get_parent := fun _ => None;
     get_visibility := fun _ => true;
     poly_vertex_count :=
       fun s => match find_part parts (s - 100) with
                | Some p => part_vertices p
                | None => 0%Z
                end;
     poly_shell_count := fun s => Some (Z.of_nat (Nat.max 1 (length (shells (s - 100)%nat))));
     poly_separate := shells |}.

(** Two crates and a locator (node 7, no shape). *)
Definition yard : Scene :=
  scene_of [(0%nat, (1000, 0, 0)%Z, (1, 1, 1), 8%Z); (1%nat, (4000, 0, 0)%Z, (1, 1, 1), 8%Z)]
    (fun _ => []).

Definition crate : InstancePayload := box 0 (1000, 0, 0)%Z (1, 1, 1) 8.

Definition yard_registry : Registry :=
  register_source_transform yard (register_source_transform yard empty_registry 0%nat) 1%nat.

(** The scene [s] when the world-matrix query of [t] raises. *)
Definition without_matrix (s : Scene) (t : Node) : Scene :=
  {| ls_transforms := ls_transforms s;
     ls_selection := ls_selection s;
     get_shape_node := get_shape_node s;
     is_mesh := is_mesh s;
     to_mmatrix := fun n => if Nat.eqb n t then None else to_mmatrix s n;
     get_bounding_box := get_bounding_box s;
     get_mats := get_mats s;
     get_parent := get_parent s;
     get_visibility := get_visibility s;
     poly_vertex_count := poly_vertex_count s;
     poly_shell_count := poly_shell_count s;
     poly_separate := poly_separate s |}.

(** The yard when the matrix of the first crate cannot be read. *)
Definition fogged_yard : Scene := without_matrix yard 0%nat.

(** A combined mesh (node 0) of eight shells: two bolts with two nuts each
    and two bare bolts. *)
Definition bolt_size : Vec3 := (2 # 10, 2 # 10, 2 # 10).
Definition nut_size : Vec3 := (1 # 10, 1 # 10, 1 # 10).

Definition rack : Scene :=
  scene_of [(0%nat, (0, 0, 0)%Z, (31, 1, 1), 64%Z);
            (1%nat, (0, 0, 0)%Z, bolt_size, 8%Z);
            (2%nat, (500, 0, 0)%Z, nut_size, 12%Z);
            (3%nat, (0, 800, 0)%Z, nut_size, 12%Z);
            (4%nat, (10000, 0, 0)%Z, bolt_size, 8%Z);
            (5%nat, (10500, 0, 0)%Z, nut_size, 12%Z);
            (6%nat, (10000, 800, 0)%Z, nut_size, 12%Z);
            (7%nat, (20000, 0, 0)%Z, bolt_size, 8%Z);
            (8%nat, (30000, 0, 0)%Z, bolt_size, 8%Z)]
    (fun t => if Nat.eqb t 0 then [1; 2; 3; 4; 5; 6; 7; 8]%nat else []).

(** Three combined meshes (nodes 0, 10, 20) of a bolt and a nut each; the
    nut of the third sits further out. *)
Definition bench : Scene :=
  scene_of [(0%nat, (0, 0, 0)%Z, (1, 1, 1), 20%Z);
            (1%nat, (0, 0, 0)%Z, bolt_size, 8%Z);
            (2%nat, (500, 0, 0)%Z, nut_size, 12%Z);
            (10%nat, (10000, 0, 0)%Z, (1, 1, 1), 20%Z);
            (11%nat, (10000, 0, 0)%Z, bolt_size, 8%Z);
            (12%nat, (10500, 0, 0)%Z, nut_size, 12%Z);
            (20%nat, (20000, 0, 0)%Z, (1, 1, 1), 20%Z);
            (21%nat, (20000, 0, 0)%Z, bolt_size, 8%Z);
            (22%nat, (20900, 0, 0)%Z, nut_size, 12%Z)]
    (fun t => if Nat.eqb t 0 then [1; 2]%nat
              else if Nat.eqb t 10 then [11; 12]%nat
              else if Nat.eqb t 20 then [21; 22]%nat else []).

(** A small anchor and one neighbour at distance 0.2. *)
Definition stud : InstancePayload := box 0 (0, 0, 0)%Z (1 # 10, 1 # 10, 1 # 10) 8.
Definition washer : InstancePayload := box 1 (200, 0, 0)%Z (1 # 20, 1 # 20, 1 # 20) 12.

End Boxes.

(* ------------------------------------------------------------------ *)
(** * Properties *)

Section Similarity.
Context {ML : Matrices}.
Variable self : InstanceSeparator.

Lemma py_sum3 (a b c : Q) : py_sum [a; b; c] == a + b + c.
Proof. unfold py_sum; simpl. ring. Qed.

Lemma geometry_similarity_eq (a b : InstancePayload) :
  geometry_similarity a b
  == (axis_similarity a b
      + volume_similarity_of (product_clamped_volume (bbox_size a))
          (product_clamped_volume (bbox_size b))) / 2.
Proof.
  unfold geometry_similarity, axis_similarity, vec_items.
  cbn [combine map fst snd]. rewrite py_sum3.
  fold (product_clamped_volume (bbox_size a)) (product_clamped_volume (bbox_size b)).
  fold (volume_similarity_of (product_clamped_volume (bbox_size a))
          (product_clamped_volume (bbox_size b))).
  generalize (volume_similarity_of (product_clamped_volume (bbox_size a))
                (product_clamped_volume (bbox_size b))).
  intros v. field.
Qed.

(** C1 (amended): the geometry match holds exactly when the vertex counts
    agree and the mean of the axis similarity and the volume similarity
    reaches the tolerance, the volume of a box being its side product
    clamped from below by 1e-12. *)
Theorem geometry_matches_iff (a b : InstancePayload) :
  geometry_matches self a b = true
  <-> geometry_match_with product_clamped_volume self a b.
Proof.
  unfold geometry_matches, geometry_match_with.
  rewrite <- geometry_similarity_eq.
  destruct (Z.eqb_spec (vertex_count a) (vertex_count b)) as [E | E]; simpl.
  - rewrite Qle_bool_iff. tauto.
  - split; [discriminate | tauto].
Qed.
End Similarity.

(** C1 (as claimed) fails: two flat planes of sides 1 and 1.02 match under the
    default tolerance, while the claimed formula, whose volumes are the
    products of the clamped sides, rejects them whatever the clamp is. *)
Lemma geometry_match_claim_fails :
  geometry_matches default_separator Boxes.plane_a Boxes.plane_b = true
  /\ ~ geometry_match_with (side_clamped_volume (1 # 1000000)) default_separator
         Boxes.plane_a Boxes.plane_b.
Proof.
  split.
  - vm_compute. reflexivity.
  - intros [_ H]. apply Qle_bool_iff in H. vm_compute in H. discriminate.
Qed.

(* ------------------------------------------------------------------ *)
(** ** The grouping pass *)

Section Grouping.
Context {ML : Matrices}.
Variable self : InstanceSeparator.

(** The prototype of [g] accepts [p]. *)
Definition fits (p : InstancePayload) (g : InstanceGroup) : Prop :=
  materials_match self p (prototype g) = true
  /\ geometry_matches self p (prototype g) = true.

Definition grouped (gs : list InstanceGroup) : list InstancePayload :=
  flat_map all_payloads gs.

Lemma fits_dec (p : InstancePayload) (g : InstanceGroup) :
  (negb (materials_match self p (prototype g)) = false
   /\ geometry_matches self p (prototype g) = true)
  <-> fits p g.
Proof.
  unfold fits. rewrite negb_false_iff. tauto.
Qed.

Lemma match_group_from_some (p : InstancePayload) (gs : list InstanceGroup) :
  forall k i,
    match_group_from self p gs k = Some i ->
    exists j g,
      i = (k + j)%nat /\ nth_error gs j = Some g /\ fits p g
      /\ forall j' g', (j' < j)%nat -> nth_error gs j' = Some g' -> ~ fits p g'.
Proof.
  induction gs as [| g gs IH]; intros k i H; simpl in H; [discriminate |].
  destruct (negb (materials_match self p (prototype g))) eqn:Em.
  - destruct (IH _ _ H) as (j & g0 & -> & Hn & Hf & Hlt).
    exists (S j), g0. repeat split; [lia | exact Hn | apply Hf | apply Hf |].
    intros [| j'] g' Hj Hg'; simpl in Hg'.
    + injection Hg' as <-. intros [Hm _]. rewrite Hm in Em. discriminate.
    + apply (Hlt j'); [lia | exact Hg'].
  - destruct (geometry_matches self p (prototype g)) eqn:Eg.
    + injection H as <-. exists 0%nat, g.
      repeat split; [lia | | exact Eg | intros; lia].
      now apply negb_false_iff.
    + destruct (IH _ _ H) as (j & g0 & -> & Hn & Hf & Hlt).
      exists (S j), g0. repeat split; [lia | exact Hn | apply Hf | apply Hf |].
      intros [| j'] g' Hj Hg'; simpl in Hg'.
      * injection Hg' as <-. intros [_ Hg]. rewrite Hg in Eg. discriminate.
      * apply (Hlt j'); [lia | exact Hg'].
Qed.

Lemma match_group_from_none (p : InstancePayload) (gs : list InstanceGroup) :
  forall k, match_group_from self p gs k = None <-> forall g, In g gs -> ~ fits p g.
Proof.
  induction gs as [| g gs IH]; intros k; simpl.
  - split; [intros _ g [] | reflexivity].
  - destruct (negb (materials_match self p (prototype g))) eqn:Em.
    + rewrite IH. split.
      * intros H g' [<- | Hin]; [| now apply H].
        intros [Hm _]. rewrite Hm in Em. discriminate.
      * intros H g' Hin. apply H. now right.
    + destruct (geometry_matches self p (prototype g)) eqn:Eg.
      * split; [discriminate |]. intros H. exfalso. apply (H g); [now left |].
        split; [now apply negb_false_iff | exact Eg].
      * rewrite IH. split.
        -- intros H g' [<- | Hin]; [| now apply H].
           intros [_ Hg]. rewrite Hg in Eg. discriminate.
        -- intros H g' Hin. apply H. now right.
Qed.

Lemma add_member_at_split (gs : list InstanceGroup) (p : InstancePayload) :
  forall i g,
    nth_error gs i = Some g ->
    add_member_at gs i p = firstn i gs ++ add_member g p :: skipn (S i) gs.
Proof.
  induction gs as [| g0 gs IH]; intros [| i] g H; simpl in *; try discriminate.
  - injection H as ->. reflexivity.
  - f_equal. now apply IH.
Qed.

Lemma grouped_app (gs hs : list InstanceGroup) :
  grouped (gs ++ hs) = grouped gs ++ grouped hs.
Proof. apply flat_map_app. Qed.

Lemma grouped_add_member (gs : list InstanceGroup) (p : InstancePayload) :
  forall i g,
    nth_error gs i = Some g ->
    Permutation (grouped (add_member_at gs i p)) (p :: grouped gs).
Proof.
  induction gs as [| g0 gs IH]; intros [| i] g H; simpl in *; try discriminate.
  - unfold grouped; simpl. rewrite <- app_assoc; simpl.
    etransitivity; [| apply perm_swap]. apply perm_skip.
    symmetry. apply Permutation_middle.
  - unfold grouped in *; simpl.
    etransitivity; [apply perm_skip, Permutation_app_head, (IH _ _ H) |].
    change (Permutation (prototype g0 :: members g0 ++ p :: flat_map all_payloads gs)
              (p :: prototype g0 :: members g0 ++ flat_map all_payloads gs)).
    etransitivity; [| apply perm_swap]. apply perm_skip.
    symmetry. apply Permutation_middle.
Qed.

Lemma group_step_perm (gs : list InstanceGroup) (p : InstancePayload) :
  Permutation (grouped (group_step self gs p)) (p :: grouped gs).
Proof.
  unfold group_step, match_group.
  destruct (match_group_from self p gs 0) as [i |] eqn:E.
  - destruct (match_group_from_some _ _ _ E) as (j & g & -> & Hn & _).
    now apply grouped_add_member with g.
  - rewrite grouped_app. unfold grouped at 2; simpl.
    symmetry. apply Permutation_cons_append.
Qed.

Lemma fold_group_step_perm (ps : list InstancePayload) :
  forall gs,
    Permutation (grouped (fold_left (group_step self) ps gs)) (grouped gs ++ ps).
Proof.
  induction ps as [| p ps IH]; intros gs; simpl.
  - now rewrite app_nil_r.
  - rewrite IH. rewrite group_step_perm.
    simpl. apply Permutation_middle.
Qed.

Lemma group_payloads_snoc (ps : list InstancePayload) (p : InstancePayload) :
  group_payloads self (ps ++ [p]) = group_step self (group_payloads self ps) p.
Proof. unfold group_payloads. now rewrite fold_left_app. Qed.

Lemma group_payloads_perm (payloads : list InstancePayload) :
  Permutation (grouped (group_payloads self payloads)) payloads.
Proof. unfold group_payloads. now rewrite fold_group_step_perm. Qed.

(** C3: the groups partition the input (every payload occurs once among
    the prototypes and members, with its multiplicity when the input repeats
    a value), and each payload joins the first group, in creation order,
    whose prototype passes the material and the geometry test, or else
    opens a new group at the end. *)
Theorem group_payloads_partition (payloads : list InstancePayload) :
  Permutation (grouped (group_payloads self payloads)) payloads
  /\ (NoDup payloads -> NoDup (grouped (group_payloads self payloads)))
  /\ forall before p after,
       payloads = before ++ p :: after ->
       let gs := group_payloads self before in
       (forall i g,
           nth_error gs i = Some g -> fits p g ->
           (forall j g', (j < i)%nat -> nth_error gs j = Some g' -> ~ fits p g') ->
           group_payloads self (before ++ [p])
           = firstn i gs ++ add_member g p :: skipn (S i) gs)
       /\ ((forall g, In g gs -> ~ fits p g) ->
           group_payloads self (before ++ [p])
           = gs ++ [{| prototype := p; members := [] |}]).
Proof.
  assert (Hperm : Permutation (grouped (group_payloads self payloads)) payloads)
    by apply group_payloads_perm.
  split; [exact Hperm | split].
  - intros Hnd. apply Permutation_NoDup with payloads; [now symmetry | exact Hnd].
  - intros before p after _ gs. rewrite group_payloads_snoc. fold gs.
    unfold group_step, match_group. split.
    + intros i g Hn Hf Hfirst.
      destruct (match_group_from self p gs 0) as [i' |] eqn:E.
      * destruct (match_group_from_some _ _ _ E) as (j & g' & -> & Hn' & Hf' & Hlt).
        simpl.
        destruct (Nat.lt_trichotomy i j) as [Hlt' | [-> | Hgt]].
        -- exfalso. now apply (Hlt i g).
        -- rewrite Hn in Hn'. injection Hn' as <-. now apply add_member_at_split.
        -- exfalso. now apply (Hfirst j g').
      * exfalso. apply (proj1 (match_group_from_none p gs 0) E g); [| exact Hf].
        now apply nth_error_In with i.
    + intros Hnone.
      now rewrite (proj2 (match_group_from_none p gs 0) Hnone).
Qed.
End Grouping.

(* ------------------------------------------------------------------ *)
(** ** Sorting *)

Section Sorting.
Variable A : Type.
Variable le : A -> A -> bool.

Lemma insert_sorted_perm (x : A) (l : list A) :
  Permutation (insert_sorted le x l) (x :: l).
Proof.
  induction l as [| y l IH]; simpl; [reflexivity |].
  destruct (le x y); [reflexivity |].
  rewrite IH. apply perm_swap.
Qed.

Lemma py_sorted_perm (l : list A) : Permutation (py_sorted le l) l.
Proof.
  induction l as [| x l IH]; simpl; [reflexivity |].
  rewrite insert_sorted_perm. now apply perm_skip.
Qed.

Lemma py_sorted_in (l : list A) (x : A) : In x (py_sorted le l) <-> In x l.
Proof.
  split; apply Permutation_in; [| symmetry]; apply py_sorted_perm.
Qed.

Lemma py_sorted_length (l : list A) : length (py_sorted le l) = length l.
Proof. apply Permutation_length, py_sorted_perm. Qed.

Lemma filter_length_perm (f : A -> bool) (l l' : list A) :
  Permutation l l' -> length (filter f l) = length (filter f l').
Proof.
  induction 1 as [| x l l' _ IH | x y l | l l' l'' _ IH1 _ IH2]; simpl.
  - reflexivity.
  - destruct (f x); simpl; congruence.
  - destruct (f x), (f y); reflexivity.
  - congruence.
Qed.
End Sorting.

Lemma Qle_bool_total (x y : Q) : Qle_bool x y = false -> y <= x.
Proof.
  intros H. destruct (Qlt_le_dec x y) as [Hlt | Hle]; [| exact Hle].
  apply Qlt_le_weak, Qle_bool_iff in Hlt. congruence.
Qed.

Lemma Qltb_lt (x y : Q) : Qltb x y = true <-> x < y.
Proof.
  unfold Qltb. rewrite negb_true_iff. split.
  - intros H. apply Qnot_le_lt. intros Hle. apply Qle_bool_iff in Hle. congruence.
  - intros H. destruct (Qle_bool y x) eqn:E; [| reflexivity].
    apply Qle_bool_iff in E. exfalso. now apply (Qlt_not_le x y).
Qed.

Lemma insert_sorted_Qle (x : Q) (l : list Q) :
  StronglySorted Qle l -> StronglySorted Qle (insert_sorted Qle_bool x l).
Proof.
  induction 1 as [| y l Hs IH Hall]; simpl.
  - constructor; constructor.
  - destruct (Qle_bool x y) eqn:E.
    + apply Qle_bool_iff in E. constructor; [now constructor |].
      constructor; [exact E |].
      eapply Forall_impl; [| exact Hall].
      intros z Hz. now apply Qle_trans with y.
    + apply Qle_bool_total in E. constructor; [exact IH |].
      apply Forall_forall. intros z Hz.
      apply (Permutation_in _ (insert_sorted_perm Qle_bool x l)) in Hz.
      destruct Hz as [<- | Hz]; [exact E |].
      now apply (proj1 (Forall_forall _ _) Hall).
Qed.

Lemma py_sorted_Qle (l : list Q) : StronglySorted Qle (py_sorted Qle_bool l).
Proof.
  induction l as [| x l IH]; simpl; [constructor |].
  now apply insert_sorted_Qle.
Qed.

(* ------------------------------------------------------------------ *)
(** ** The capture radius *)

(** [d] is the [k]-th smallest item of [ds], counting from one. *)
Definition is_kth_smallest (d : Q) (k : nat) (ds : list Q) : Prop :=
  In d ds
  /\ (length (filter (fun x => Qltb x d) ds) < k)%nat
  /\ (k <= length (filter (fun x => Qle_bool x d) ds))%nat.

Lemma filter_none {A : Type} (f : A -> bool) (l : list A) :
  Forall (fun x => f x = false) l -> filter f l = [].
Proof.
  induction 1 as [| x l Hx _ IH]; simpl; [reflexivity |]. now rewrite Hx.
Qed.

Lemma Qltb_irrefl_le (x y : Q) : x <= y -> Qltb y x = false.
Proof.
  intros H. unfold Qltb. apply negb_false_iff. now apply Qle_bool_iff.
Qed.

Lemma sorted_nth_rank (s : list Q) :
  StronglySorted Qle s ->
  forall i, (i < length s)%nat ->
    In (nth i s 0) s
    /\ (length (filter (fun x => Qltb x (nth i s 0%Q)) s) <= i)%nat
    /\ (i < length (filter (fun x => Qle_bool x (nth i s 0%Q)) s))%nat.
Proof.
  induction 1 as [| y l Hs IH Hall]; intros i Hi; simpl in Hi; [lia |].
  destruct i as [| j]; cbn [nth].
  - split; [now left |]. simpl.
    rewrite (Qltb_irrefl_le (Qle_refl y)).
    rewrite filter_none.
    + assert (E : Qle_bool y y = true) by apply Qle_bool_iff, Qle_refl.
      rewrite E. simpl. lia.
    + eapply Forall_impl; [| exact Hall]. intros z Hz. now apply Qltb_irrefl_le.
  - destruct (IH j ltac:(lia)) as (Hin & Hlt & Hle).
    assert (Hy : y <= nth j l 0) by now apply (proj1 (Forall_forall _ _) Hall).
    split; [now right |]. simpl.
    apply Qle_bool_iff in Hy. rewrite Hy.
    destruct (Qltb y (nth j l 0)); simpl; lia.
Qed.

Lemma Qltb_max (x y : Q) : (if Qltb x y then y else x) = Qmax x y.
Proof.
  unfold Qmax, GenericMinMax.gmax.
  destruct (x ?= y) eqn:E.
  - apply Qeq_alt in E. rewrite Qltb_irrefl_le; [reflexivity |].
    rewrite E. apply Qle_refl.
  - apply Qlt_alt in E. apply Qltb_lt in E. now rewrite E.
  - apply Qgt_alt in E. rewrite Qltb_irrefl_le; [reflexivity |].
    now apply Qlt_le_weak.
Qed.

Lemma Qceiling_pos (q : Q) : 0 < q -> (1 <= Qceiling q)%Z.
Proof.
  intros H. pose proof (Qle_ceiling q) as Hc.
  assert (H0 : inject_Z 0 < inject_Z (Qceiling q)) by (now apply Qlt_le_trans with q).
  rewrite <- Zlt_Qlt in H0. lia.
Qed.

Section CaptureRadius.
Context {ML : Matrices}.
Variable self : InstanceSeparator.

Definition longest_axis (p : InstancePayload) : Q :=
  Qmax (Qmax (vec_x (bbox_size p)) (vec_y (bbox_size p))) (vec_z (bbox_size p)).

(** The components of the bucket other than the anchor object. *)
Definition other_components (anchor : InstancePayload) (comps : list InstancePayload)
    : list InstancePayload :=
  filter (fun payload => negb (same_object payload anchor)) comps.

Definition neighbor_distances (anchor : InstancePayload) (comps : list InstancePayload)
    : list Q :=
  map (payload_distance anchor) (other_components anchor comps).

(** [ceil(bucketSize / anchorCount)], capped by the number of neighbours. *)
Definition neighbor_rank (anchor : InstancePayload) (comps : list InstancePayload)
    (assembly_count : Z) : nat :=
  Z.to_nat
    (Z.min (Z.of_nat (length (other_components anchor comps)))
       (Qceiling (inject_Z (Z.of_nat (length comps)) / inject_Z assembly_count))).

(** The radius as the specification words it: no lower bound of one unit. *)
Definition claimed_capture_radius (anchor : InstancePayload)
    (comps : list InstancePayload) (assembly_count : Z) : Q :=
  Qmax (longest_axis anchor * anchor_capture_multiplier self)
    (neighbor_radius self anchor comps assembly_count).

Lemma neighbor_radius_degenerate (anchor : InstancePayload)
    (comps : list InstancePayload) (assembly_count : Z) :
  (assembly_count <= 0)%Z \/ other_components anchor comps = [] ->
  neighbor_radius self anchor comps assembly_count = 1.
Proof.
  intros H. unfold neighbor_radius.
  destruct (Z.leb_spec assembly_count 0) as [Hc | Hc]; [reflexivity |].
  destruct H as [H | H]; [lia |].
  fold (other_components anchor comps). now rewrite H.
Qed.

Lemma neighbor_radius_kth (anchor : InstancePayload)
    (comps : list InstancePayload) (assembly_count : Z) :
  (0 < assembly_count)%Z ->
  other_components anchor comps <> [] ->
  exists d,
    neighbor_radius self anchor comps assembly_count
    = d + template_position_tolerance self
    /\ is_kth_smallest d (neighbor_rank anchor comps assembly_count)
         (neighbor_distances anchor comps).
Proof.
  intros Hc Hne. unfold neighbor_radius, neighbor_rank, neighbor_distances.
  destruct (Z.leb_spec assembly_count 0) as [Hc' | _]; [lia |].
  fold (other_components anchor comps).
  set (others := other_components anchor comps) in *.
  set (ds := map (payload_distance anchor) others).
  assert (Hlen : length ds = length others) by apply length_map.
  assert (Hpos : (0 < length others)%nat)
    by (destruct others; [congruence | simpl; lia]).
  assert (Hcomps : (length others <= length comps)%nat) by apply filter_length_le.
  destruct ds as [| d0 ds'] eqn:Eds; [simpl in Hlen; lia |].
  rewrite <- Eds in *. clear Eds d0 ds'.
  rewrite (Z.max_l assembly_count 1) by lia.
  set (c := Qceiling (inject_Z (Z.of_nat (length comps)) / inject_Z assembly_count)).
  assert (Hceil : (1 <= c)%Z).
  { apply Qceiling_pos. apply Qlt_shift_div_l.
    - change 0 with (inject_Z 0). rewrite <- Zlt_Qlt. exact Hc.
    - rewrite Qmult_0_l. change 0 with (inject_Z 0). rewrite <- Zlt_Qlt. lia. }
  set (s := py_sorted Qle_bool ds).
  assert (Hs : length s = length ds) by apply py_sorted_length.
  set (i := Z.to_nat (Z.min (Z.of_nat (length s) - 1) (Z.max (Z.max c 1 - 1) 0))).
  assert (Hi : (i < length s)%nat) by (unfold i; lia).
  exists (nth i s 0). split; [reflexivity |].
  destruct (sorted_nth_rank (py_sorted_Qle ds) Hi) as (Hin & Hlt & Hle).
  fold s in Hin, Hlt, Hle.
  assert (Hk : Z.to_nat (Z.min (Z.of_nat (length others)) c) = S i)
    by (unfold i; lia).
  rewrite Hk. unfold is_kth_smallest. repeat split.
  - now apply (py_sorted_in Qle_bool).
  - rewrite <- (filter_length_perm _ (py_sorted_perm Qle_bool ds)). fold s. lia.
  - rewrite <- (filter_length_perm _ (py_sorted_perm Qle_bool ds)). fold s. lia.
Qed.

(** C4 (amended): the capture radius is the larger of the scale radius,
    which is the longest side of the anchor's box times the multiplier
    but never less than one unit, and the neighbour radius; the neighbour
    radius is the distance to the k-th nearest other component plus the
    position tolerance, with k = ceil(bucketSize / anchorCount) capped by
    the number of other components, and it is one unit when the anchor
    count is not positive or the anchor has no other component. *)
Theorem anchor_capture_radius_spec (anchor : InstancePayload)
    (comps : list InstancePayload) (assembly_count : Z) :
  anchor_capture_radius self anchor comps assembly_count
  = Qmax (Qmax (longest_axis anchor * anchor_capture_multiplier self) 1)
      (neighbor_radius self anchor comps assembly_count)
  /\ ((assembly_count <= 0)%Z \/ other_components anchor comps = [] ->
      neighbor_radius self anchor comps assembly_count = 1)
  /\ ((0 < assembly_count)%Z ->
      other_components anchor comps <> [] ->
      exists d,
        neighbor_radius self anchor comps assembly_count
        = d + template_position_tolerance self
        /\ is_kth_smallest d (neighbor_rank anchor comps assembly_count)
             (neighbor_distances anchor comps)).
Proof.
  split; [| split].
  - unfold anchor_capture_radius, py_max1, longest_axis. simpl.
    now rewrite !Qltb_max.
  - apply neighbor_radius_degenerate.
  - apply neighbor_radius_kth.
Qed.
End CaptureRadius.

(** C4 (as claimed) fails: for a stud of side 0.1 with one neighbour at
    distance 0.2 and the default multiplier 4 and tolerance 0.1, the claimed
    radius is max(0.4, 0.2 + 0.1) = 0.4, and the code returns 1. *)
Lemma capture_radius_claim_fails :
  neighbor_radius default_separator Boxes.stud [Boxes.stud; Boxes.washer] 2
  == (2 # 10) + template_position_tolerance default_separator
  /\ claimed_capture_radius default_separator Boxes.stud [Boxes.stud; Boxes.washer] 2
     == 4 # 10
  /\ anchor_capture_radius default_separator Boxes.stud [Boxes.stud; Boxes.washer] 2
     == 1
  /\ ~ anchor_capture_radius default_separator Boxes.stud [Boxes.stud; Boxes.washer] 2
       == claimed_capture_radius default_separator Boxes.stud
            [Boxes.stud; Boxes.washer] 2.
Proof.
  repeat split; try (vm_compute; reflexivity).
  intros H. apply Qeq_bool_iff in H. vm_compute in H. discriminate.
Qed.

(* ------------------------------------------------------------------ *)
(** ** Dictionaries: lookup after assignment *)

Section DictFacts.
Variables K V : Type.
Variable keq : K -> K -> bool.
Hypothesis keq_refl : forall k, keq k k = true.
Hypothesis keq_sym : forall a b, keq a b = keq b a.
Hypothesis keq_trans : forall a b c, keq a b = true -> keq b c = true -> keq a c = true.

Lemma keq_congr (a b c : K) : keq a b = true -> keq a c = keq b c.
Proof.
  intros Hab. destruct (keq b c) eqn:Hbc.
  - now apply keq_trans with b.
  - destruct (keq a c) eqn:Hac; [| reflexivity].
    rewrite <- Hbc. symmetry. apply keq_trans with a; [| exact Hac].
    now rewrite keq_sym.
Qed.

Lemma dict_get_set (d : dict K V) (k k' : K) (v : V) :
  dict_get keq (dict_set keq d k v) k'
  = if keq k k' then Some v else dict_get keq d k'.
Proof.
  induction d as [| [k0 v0] d IH]; simpl; [reflexivity |].
  destruct (keq k0 k) eqn:E0; simpl.
  - rewrite (@keq_congr k0 k k' E0). now destruct (keq k k').
  - rewrite IH. destruct (keq k0 k') eqn:E1; [| reflexivity].
    destruct (keq k k') eqn:E2; [| reflexivity].
    rewrite (keq_sym k k') in E2.
    now rewrite (@keq_trans k0 k' k E1 E2) in E0.
Qed.

Lemma dict_get_congr (d : dict K V) (k k' : K) :
  keq k k' = true -> dict_get keq d k = dict_get keq d k'.
Proof.
  intros E. induction d as [| [k0 v0] d IH]; simpl; [reflexivity |].
  rewrite (keq_sym k0 k), (keq_sym k0 k'), (@keq_congr k k' k0 E). now rewrite IH.
Qed.

Lemma dict_get_in (d : dict K V) (k : K) (v : V) :
  dict_get keq d k = Some v -> exists k0, In (k0, v) d /\ keq k0 k = true.
Proof.
  induction d as [| [k0 v0] d IH]; simpl; [discriminate |].
  destruct (keq k0 k) eqn:E.
  - intros [= ->]. exists k0. split; [now left | exact E].
  - intros H. destruct (IH H) as (k1 & Hin & Hk). exists k1. split; [now right | exact Hk].
Qed.
End DictFacts.

Lemma nat_eqb_trans (a b c : nat) :
  Nat.eqb a b = true -> Nat.eqb b c = true -> Nat.eqb a c = true.
Proof. rewrite !Nat.eqb_eq. congruence. Qed.

Lemma node_get_set {V : Type} (d : dict nat V) (k k' : nat) (v : V) :
  dict_get Nat.eqb (dict_set Nat.eqb d k v) k'
  = if Nat.eqb k k' then Some v else dict_get Nat.eqb d k'.
Proof. apply dict_get_set; [apply Nat.eqb_sym | apply nat_eqb_trans]. Qed.

(* ------------------------------------------------------------------ *)
(** ** The registry and the local matrix *)

Section LocalMatrix.
Context {ML : Matrices}.
Variable self : InstanceSeparator.
Variable scene : Scene.

(** Exact arithmetic: the inverse the library computes undoes the matrix. *)
Definition invertible (m : MMatrix) : Prop := mult (inverse m) m = mm_identity.

(** What a registration caches for a node. *)
Definition world_or_identity (t : Node) : MMatrix :=
  match to_mmatrix scene t with
  | Some m => m
  | None => mm_identity
  end.

(** [sourceOf]: the cached source handle, [t] itself by default. *)
Definition source_of (reg : Registry) (t : Node) : Node :=
  match dict_get Nat.eqb (component_to_source reg) t with
  | Some s => s
  | None => t
  end.

(** The registries a pass goes through: the reset of [separate], then
    registrations, shell splits and payload builds in any order. *)
Inductive reachable : Registry -> Prop :=
| reach_reset : reachable empty_registry
| reach_register (reg : Registry) (t : Node) :
    reachable reg -> reachable (register_source_transform scene reg t)
| reach_split (reg : Registry) (t : Node) :
    reachable reg -> reachable (fst (split_transform_shells scene reg t))
| reach_build (reg reg' : Registry) (id : nat) (t : Node) (p : option InstancePayload) :
    reachable reg -> build_payload scene reg id t = ret (reg', p) -> reachable reg'.

Definition cache_ok (reg : Registry) : Prop :=
  forall t m, dict_get Nat.eqb (source_world_mats reg) t = Some m -> m = world_or_identity t.

Lemma cache_ok_set (reg : Registry) (t : Node) (sources : dict Node Node) :
  cache_ok reg ->
  cache_ok {| component_to_source := sources;
              source_world_mats :=
                dict_set Nat.eqb (source_world_mats reg) t (world_or_identity t) |}.
Proof.
  intros H t' m. simpl. rewrite node_get_set.
  destruct (Nat.eqb_spec t t') as [-> | _]; [now intros [= <-] | apply H].
Qed.

Lemma cache_ok_sources (reg : Registry) (sources : dict Node Node) :
  cache_ok reg ->
  cache_ok {| component_to_source := sources; source_world_mats := source_world_mats reg |}.
Proof. intros H t m. simpl. apply H. Qed.

Lemma register_cache_ok (reg : Registry) (t : Node) :
  cache_ok reg -> cache_ok (register_source_transform scene reg t).
Proof.
  intros H. unfold register_source_transform.
  destruct (dict_mem Nat.eqb (source_world_mats reg) t).
  - now apply cache_ok_sources.
  - pose proof (cache_ok_set t
                  (if dict_mem Nat.eqb (component_to_source reg) t
                   then component_to_source reg
                   else dict_set Nat.eqb (component_to_source reg) t t) H) as H'.
    unfold world_or_identity in H' at 1.
    destruct (to_mmatrix scene t); exact H'.
Qed.

Lemma register_shells_cache_ok (t : Node) (separated : list Node) :
  forall reg, cache_ok reg -> cache_ok (fst (register_shells scene reg t separated)).
Proof.
  induction separated as [| node r IH]; intros reg H; simpl; [exact H |].
  destruct (mesh_shape scene node); [| now apply IH].
  specialize (IH {| component_to_source := dict_set Nat.eqb (component_to_source reg) node t;
                    source_world_mats := source_world_mats reg |}
                (cache_ok_sources _ H)).
  destruct (register_shells scene _ t r) as [reg'' valid]. exact IH.
Qed.

Lemma build_payload_inv (reg reg' : Registry) (id : nat) (t : Node) (p : InstancePayload) :
  build_payload scene reg id t = ret (reg', Some p) ->
  exists sm,
    mesh_shape scene t = Some (shape p)
    /\ to_mmatrix scene t = Some (matrix p)
    /\ transform p = t
    /\ oid p = id
    /\ source_transform p = source_of reg t
    /\ local_matrix p = mult (inverse sm) (matrix p)
    /\ dict_get Nat.eqb (source_world_mats reg') (source_transform p) = Some sm
    /\ component_to_source reg' = component_to_source reg
    /\ (source_world_mats reg' = source_world_mats reg
        \/ source_world_mats reg'
           = dict_set Nat.eqb (source_world_mats reg) (source_transform p)
               (world_or_identity (source_transform p))).
Proof.
  unfold build_payload, ret, source_of.
  destruct (mesh_shape scene t) as [sh |]; [| intros [=]].
  destruct (to_mmatrix scene t) as [m |]; [| intros [=]].
  set (source := match dict_get Nat.eqb (component_to_source reg) t with
                 | Some s => s
                 | None => t
                 end).
  destruct (dict_get Nat.eqb (source_world_mats reg) source) as [sm |] eqn:Esm;
    destruct (get_bounding_box scene t) as [center size]; intros [= <- <-]; simpl.
  - exists sm. repeat split; auto.
  - exists (world_or_identity source). unfold world_or_identity.
    repeat split; auto.
    rewrite node_get_set, Nat.eqb_refl. reflexivity.
Qed.

Lemma build_payload_cache_ok (reg reg' : Registry) (id : nat) (t : Node)
    (p : option InstancePayload) :
  cache_ok reg -> build_payload scene reg id t = ret (reg', p) -> cache_ok reg'.
Proof.
  intros H Hb. destruct p as [p |].
  - destruct (build_payload_inv _ _ _ Hb) as (sm & _ & _ & _ & _ & _ & _ & _ & Hs & Hm).
    destruct reg' as [src mats]; simpl in *. subst src.
    destruct Hm as [-> | ->].
    + now apply cache_ok_sources.
    + now apply cache_ok_set.
  - unfold build_payload, ret in Hb.
    destruct (mesh_shape scene t); [| now injection Hb as <-].
    destruct (to_mmatrix scene t); [| discriminate].
    destruct (dict_get Nat.eqb (source_world_mats reg) _);
      destruct (get_bounding_box scene t); discriminate.
Qed.

Lemma reachable_cache_ok (reg : Registry) : reachable reg -> cache_ok reg.
Proof.
  induction 1 as [| reg t _ IH | reg t _ IH | reg reg' id t p _ IH Hb].
  - intros t m; discriminate.
  - now apply register_cache_ok.
  - now apply register_shells_cache_ok.
  - now apply build_payload_cache_ok with reg id t p.
Qed.

(** C7: a payload built from a registry of the pass has as local matrix the
    inverse of its source's world matrix times its own world matrix, where
    the source is the registry's source of its transform; when the source is
    the transform itself and its matrix is invertible, the local matrix is
    the identity. *)
Theorem build_payload_local_matrix (reg reg' : Registry) (id : nat) (t : Node)
    (p : InstancePayload) :
  reachable reg ->
  build_payload scene reg id t = ret (reg', Some p) ->
  transform p = t
  /\ to_mmatrix scene t = Some (matrix p)
  /\ source_transform p = source_of reg (transform p)
  /\ (forall ms,
        to_mmatrix scene (source_transform p) = Some ms ->
        local_matrix p = mult (inverse ms) (matrix p))
  /\ (source_transform p = transform p ->
      invertible (matrix p) ->
      local_matrix p = mm_identity).
Proof.
  intros Hr Hb.
  pose proof (@build_payload_cache_ok _ _ _ _ _ (reachable_cache_ok Hr) Hb) as Hok.
  destruct (build_payload_inv _ _ _ Hb)
    as (sm & _ & Hm & Ht & _ & Hsrc & Hloc & Hget & _).
  apply Hok in Hget.
  assert (Hms : forall ms, to_mmatrix scene (source_transform p) = Some ms ->
                           local_matrix p = mult (inverse ms) (matrix p)).
  { intros ms Hq. rewrite Hloc, Hget. unfold world_or_identity. now rewrite Hq. }
  repeat split; auto.
  - now rewrite Ht.
  - intros Hself Hinv. rewrite (Hms (matrix p)); [exact Hinv |].
    now rewrite Hself, Ht.
Qed.
End LocalMatrix.

(** C7 at work: the crate of the yard, registered as its own source. *)
Lemma build_payload_local_matrix_witness :
  build_payload Boxes.yard Boxes.yard_registry 0 0%nat
  = ret (Boxes.yard_registry, Some Boxes.crate)
  /\ local_matrix Boxes.crate = mm_identity.
Proof.
  assert (Hb : build_payload Boxes.yard Boxes.yard_registry 0 0%nat
               = ret (Boxes.yard_registry, Some Boxes.crate)) by reflexivity.
  split; [exact Hb |].
  refine (proj2 (proj2 (proj2 (proj2
            (@build_payload_local_matrix _ Boxes.yard Boxes.yard_registry
               Boxes.yard_registry 0%nat 0%nat Boxes.crate _ Hb)))) _ _).
  - unfold Boxes.yard_registry. do 2 apply reach_register. apply reach_reset.
  - reflexivity.
  - reflexivity.
Defined.

(* ------------------------------------------------------------------ *)
(** ** Choosing the best candidate *)

Section BestCandidate.
Context {ML : Matrices}.
Variable score : InstancePayload -> option Q.

Definition beats (s : Q) (acc : option (nat * InstancePayload * Q)) : Prop :=
  match acc with
  | None => True
  | Some (_, _, s0) => s < s0
  end.

Definition holds_against (acc : option (nat * InstancePayload * Q)) (s' : Q) : Prop :=
  match acc with
  | None => False
  | Some (_, _, s0) => s0 <= s'
  end.

Lemma best_candidate_gen (l : list InstancePayload) :
  forall k acc,
    (best_candidate score (combine (seq k (length l)) l) acc = acc
     /\ forall c s', In c l -> score c = Some s' -> holds_against acc s')
    \/ exists j p s,
        best_candidate score (combine (seq k (length l)) l) acc = Some ((k + j)%nat, p, s)
        /\ nth_error l j = Some p
        /\ score p = Some s
        /\ beats s acc
        /\ forall j' c s',
            nth_error l j' = Some c -> score c = Some s' ->
            s <= s' /\ ((j' < j)%nat -> s < s').
Proof.
  induction l as [| a l IH]; intros k acc; simpl.
  - left. split; [reflexivity | intros c s' []].
  - destruct (score a) as [sa |] eqn:Ea.
    + assert (Hnew :
        forall acc0, beats sa acc0 ->
          exists j p s,
            best_candidate score (combine (seq (S k) (length l)) l) (Some (k, a, sa))
            = Some ((k + j)%nat, p, s)
            /\ nth_error (a :: l) j = Some p
            /\ score p = Some s
            /\ beats s acc0
            /\ forall j' c s',
                nth_error (a :: l) j' = Some c -> score c = Some s' ->
                s <= s' /\ ((j' < j)%nat -> s < s')).
      { intros acc0 Hb.
        destruct (IH (S k) (Some (k, a, sa))) as [[-> Hall] | (j & p & s & -> & Hn & Hs & Hlt & Hmin)].
        - exists 0%nat, a, sa. rewrite Nat.add_0_r.
          repeat split; auto.
          + destruct j' as [| j']; simpl in H.
            * injection H as <-. rewrite Ea in H0. injection H0 as <-. apply Qle_refl.
            * apply nth_error_In in H. exact (Hall _ _ H H0).
          + lia.
        - exists (S j), p, s. rewrite Nat.add_succ_r.
          simpl in Hlt.
          repeat split; auto.
          + destruct acc0 as [[[i0 p0] s0] |]; simpl in *; [| exact I].
            now apply Qlt_trans with sa.
          + destruct j' as [| j']; simpl in H.
            * injection H as <-. rewrite Ea in H0. injection H0 as <-.
              now apply Qlt_le_weak.
            * now apply (Hmin j' c s').
          + destruct j' as [| j']; simpl in H.
            * injection H as <-. rewrite Ea in H0. injection H0 as <-. intros _. exact Hlt.
            * intros Hj. apply (Hmin j' c s'); auto. lia. }
      destruct acc as [[[i0 p0] s0] |].
      * destruct (Qltb sa s0) eqn:El.
        -- right. apply Hnew. simpl. now apply Qltb_lt.
        -- assert (Hle : s0 <= sa).
           { unfold Qltb in El. apply negb_false_iff in El. now apply Qle_bool_iff. }
           destruct (IH (S k) (Some (i0, p0, s0)))
             as [[-> Hall] | (j & p & s & -> & Hn & Hs & Hlt & Hmin)].
           ++ left. split; [reflexivity |].
              intros c s' [<- | Hin] Hc.
              ** rewrite Ea in Hc. injection Hc as <-. exact Hle.
              ** exact (Hall _ _ Hin Hc).
           ++ right. exists (S j), p, s. rewrite Nat.add_succ_r.
              simpl in Hlt.
              repeat split; auto.
              ** destruct j' as [| j']; simpl in H.
                 --- injection H as <-. rewrite Ea in H0. injection H0 as <-.
                     apply Qlt_le_weak. now apply Qlt_le_trans with s0.
                 --- now apply (Hmin j' c s').
              ** destruct j' as [| j']; simpl in H.
                 --- injection H as <-. rewrite Ea in H0. injection H0 as <-.
                     intros _. now apply Qlt_le_trans with s0.
                 --- intros Hj. apply (Hmin j' c s'); auto. lia.
      * right. apply Hnew. exact I.
    + destruct (IH (S k) acc) as [[-> Hall] | (j & p & s & -> & Hn & Hs & Hlt & Hmin)].
      * left. split; [reflexivity |].
        intros c s' [<- | Hin] Hc; [congruence | exact (Hall _ _ Hin Hc)].
      * right. exists (S j), p, s. rewrite Nat.add_succ_r.
        repeat split; auto.
        -- destruct j' as [| j']; simpl in H; [congruence | now apply (Hmin j' c s')].
        -- destruct j' as [| j']; simpl in H; [congruence |].
           intros Hj. apply (Hmin j' c s'); auto. lia.
Qed.

(** The scan finds nothing exactly when no candidate has a score. *)
Lemma best_candidate_none (l : list InstancePayload) :
  best_candidate score (enumerate l) None = None
  <-> forall c, In c l -> score c = None.
Proof.
  unfold enumerate.
  destruct (best_candidate_gen l 0 None) as [[E Hall] | (j & p & s & E & Hn & Hs & _)].
  - split; [| intros _; exact E].
    intros _ c Hin. destruct (score c) as [s' |] eqn:Ec; [| reflexivity].
    destruct (Hall _ _ Hin Ec).
  - rewrite E. split; [discriminate |].
    intros H. apply nth_error_In in Hn. rewrite (H _ Hn) in Hs. discriminate.
Qed.

(** What the scan returns: the first candidate of least score. *)
Lemma best_candidate_some (l : list InstancePayload) (i : nat) (p : InstancePayload) (s : Q) :
  best_candidate score (enumerate l) None = Some (i, p, s) ->
  nth_error l i = Some p
  /\ score p = Some s
  /\ forall j c s',
      nth_error l j = Some c -> score c = Some s' ->
      s <= s' /\ ((j < i)%nat -> s < s').
Proof.
  unfold enumerate.
  destruct (best_candidate_gen l 0 None) as [[E _] | (j & p' & s0 & E & Hn & Hs & _ & Hmin)];
    rewrite E; [discriminate |].
  intros [= <- <- <-]. auto.
Qed.

(** Conversely, the first candidate of least score is what the scan returns. *)
Lemma best_candidate_first_least (l : list InstancePayload) (i : nat)
    (p : InstancePayload) (s : Q) :
  nth_error l i = Some p ->
  score p = Some s ->
  (forall j c s',
      nth_error l j = Some c -> score c = Some s' ->
      s <= s' /\ ((j < i)%nat -> s < s')) ->
  best_candidate score (enumerate l) None = Some (i, p, s).
Proof.
  intros Hn Hs Hmin.
  destruct (best_candidate score (enumerate l) None) as [[[i' p'] s0] |] eqn:E.
  - destruct (best_candidate_some _ E) as (Hn' & Hs' & Hmin').
    destruct (Hmin _ _ _ Hn' Hs') as [Hle Hlt].
    destruct (Hmin' _ _ _ Hn Hs) as [Hle' Hlt'].
    destruct (Nat.lt_trichotomy i i') as [H | [<- | H]].
    + exfalso. specialize (Hlt' H). apply (Qlt_irrefl s).
      now apply Qle_lt_trans with s0.
    + rewrite Hn in Hn'. injection Hn' as <-.
      rewrite Hs in Hs'. now injection Hs' as <-.
    + exfalso. specialize (Hlt H). apply (Qlt_irrefl s0).
      now apply Qle_lt_trans with s.
  - exfalso. apply nth_error_In in Hn.
    rewrite (proj1 (best_candidate_none l) E _ Hn) in Hs. discriminate.
Qed.
End BestCandidate.

(* ------------------------------------------------------------------ *)
(** ** Signatures as dictionary keys *)

Section BoolEquivalence.
Variable A : Type.
Variable f : A -> A -> bool.
Variable R : A -> A -> Prop.
Hypothesis f_spec : forall a b, f a b = true <-> R a b.
Hypothesis R_refl : forall a, R a a.
Hypothesis R_sym : forall a b, R a b -> R b a.
Hypothesis R_trans : forall a b c, R a b -> R b c -> R a c.

Lemma beq_refl (a : A) : f a a = true.
Proof. apply f_spec, R_refl. Qed.

Lemma beq_sym (a b : A) : f a b = f b a.
Proof.
  destruct (f a b) eqn:E1, (f b a) eqn:E2; try reflexivity.
  - apply f_spec, R_sym, f_spec in E1. congruence.
  - apply f_spec, R_sym, f_spec in E2. congruence.
Qed.

Lemma beq_trans (a b c : A) : f a b = true -> f b c = true -> f a c = true.
Proof.
  rewrite !f_spec. apply R_trans.
Qed.
End BoolEquivalence.

Lemma strings_eqb_eq (xs ys : list string) :
  list_eqb String.eqb xs ys = true <-> xs = ys.
Proof.
  revert ys. induction xs as [| x xs IH]; intros [| y ys]; simpl;
    try (split; [discriminate | discriminate]); [tauto |].
  rewrite andb_true_iff, String.eqb_eq, IH. split.
  - intros [-> ->]. reflexivity.
  - intros [= -> ->]. auto.
Qed.

Definition vec_equiv (a b : Vec3) : Prop :=
  vec_x a == vec_x b /\ vec_y a == vec_y b /\ vec_z a == vec_z b.

Lemma vec_eqb_equiv (a b : Vec3) : vec_eqb a b = true <-> vec_equiv a b.
Proof.
  unfold vec_eqb, vec_equiv. rewrite !andb_true_iff, !Qeq_bool_iff. tauto.
Qed.

Section SignatureKeys.
Context {ML : Matrices}.

Definition sig_equiv (a b : Signature) : Prop :=
  fst (fst a) = fst (fst b) /\ vec_equiv (snd (fst a)) (snd (fst b)) /\ snd a = snd b.

Lemma sig_eqb_equiv (a b : Signature) : sig_eqb a b = true <-> sig_equiv a b.
Proof.
  unfold sig_eqb, sig_equiv.
  rewrite !andb_true_iff, Z.eqb_eq, vec_eqb_equiv, strings_eqb_eq. tauto.
Qed.

Lemma sig_equiv_refl (a : Signature) : sig_equiv a a.
Proof. unfold sig_equiv, vec_equiv. repeat split; reflexivity. Qed.

Lemma sig_equiv_sym (a b : Signature) : sig_equiv a b -> sig_equiv b a.
Proof.
  unfold sig_equiv, vec_equiv. intros (H1 & (H2 & H3 & H4) & H5).
  repeat split; auto; now symmetry.
Qed.

Lemma sig_equiv_trans (a b c : Signature) :
  sig_equiv a b -> sig_equiv b c -> sig_equiv a c.
Proof.
  unfold sig_equiv, vec_equiv.
  intros (H1 & (H2 & H3 & H4) & H5) (G1 & (G2 & G3 & G4) & G5).
  repeat split; try congruence; etransitivity; eassumption.
Qed.

Lemma sig_eqb_refl (a : Signature) : sig_eqb a a = true.
Proof. apply (@beq_refl _ _ _ sig_eqb_equiv sig_equiv_refl). Qed.

Lemma sig_eqb_sym (a b : Signature) : sig_eqb a b = sig_eqb b a.
Proof. apply (@beq_sym _ _ _ sig_eqb_equiv sig_equiv_sym). Qed.

Lemma sig_eqb_trans (a b c : Signature) :
  sig_eqb a b = true -> sig_eqb b c = true -> sig_eqb a c = true.
Proof. apply (@beq_trans _ _ _ sig_eqb_equiv sig_equiv_trans). Qed.
End SignatureKeys.

(* ------------------------------------------------------------------ *)
(** ** Pools: dictionaries of lists *)

Section Pools.
Variables K A : Type.
Variable keq : K -> K -> bool.

(** Everything a pool holds, bucket after bucket. *)
Definition pool_items (d : dict K (list A)) : list A := flat_map snd d.

Lemma dict_set_present (d : dict K (list A)) (k : K) (l l' : list A) :
  dict_get keq d k = Some l ->
  exists d1 k0 d2,
    d = d1 ++ (k0, l) :: d2 /\ dict_set keq d k l' = d1 ++ (k0, l') :: d2.
Proof.
  induction d as [| [k1 l1] d IH]; simpl; [discriminate |].
  destruct (keq k1 k).
  - intros [= ->]. now exists [], k1, d.
  - intros H. destruct (IH H) as (d1 & k0 & d2 & -> & ->).
    now exists ((k1, l1) :: d1), k0, d2.
Qed.

Lemma dict_set_absent (d : dict K (list A)) (k : K) (l' : list A) :
  dict_get keq d k = None -> dict_set keq d k l' = d ++ [(k, l')].
Proof.
  induction d as [| [k1 l1] d IH]; simpl; [reflexivity |].
  destruct (keq k1 k); [discriminate |]. intros H. now rewrite IH.
Qed.

Lemma pool_items_app (d1 d2 : dict K (list A)) :
  pool_items (d1 ++ d2) = pool_items d1 ++ pool_items d2.
Proof. apply flat_map_app. Qed.

(** Replacing a bucket by the bucket less one item takes that item out. *)
Lemma pool_take (d : dict K (list A)) (k : K) (l l' : list A) (x : A) :
  dict_get keq d k = Some l ->
  Permutation l (x :: l') ->
  Permutation (pool_items d) (x :: pool_items (dict_set keq d k l')).
Proof.
  intros Hg Hp. destruct (dict_set_present _ _ l' Hg) as (d1 & k0 & d2 & -> & ->).
  rewrite !pool_items_app. unfold pool_items at 2 4. simpl.
  rewrite Hp. simpl. symmetry. apply Permutation_middle.
Qed.

Lemma pool_append (d : dict K (list A)) (k : K) (x : A) :
  Permutation (pool_items (dict_append keq d k x)) (x :: pool_items d).
Proof.
  unfold dict_append. destruct (dict_get keq d k) as [l |] eqn:E.
  - destruct (dict_set_present _ _ (l ++ [x]) E) as (d1 & k0 & d2 & -> & ->).
    rewrite !pool_items_app. unfold pool_items at 2 4. simpl.
    rewrite <- app_assoc. simpl.
    rewrite <- Permutation_middle.
    rewrite (app_assoc (pool_items d1)), <- Permutation_middle, <- app_assoc.
    reflexivity.
  - rewrite dict_set_absent by exact E.
    rewrite pool_items_app. unfold pool_items at 2. simpl.
    symmetry. apply Permutation_cons_append.
Qed.

Lemma pool_map_perm (f : list A -> list A) (d : dict K (list A)) :
  (forall l, Permutation (f l) l) ->
  Permutation (pool_items (map (fun kv => (fst kv, f (snd kv))) d)) (pool_items d).
Proof.
  intros Hf. induction d as [| [k l] d IH]; simpl; [reflexivity |].
  now apply Permutation_app.
Qed.

Lemma dict_get_list_in (d : dict K (list A)) (k : K) (x : A) :
  In x (dict_get_list keq d k) -> In x (pool_items d).
Proof.
  unfold dict_get_list. destruct (dict_get keq d k) as [l |] eqn:E; [| intros []].
  destruct (dict_set_present _ _ l E) as (d1 & k0 & d2 & -> & _).
  intros H. rewrite pool_items_app. apply in_or_app. right.
  unfold pool_items. simpl. apply in_or_app. now left.
Qed.
End Pools.

Lemma list_pop_split {A : Type} (l : list A) (i : nat) (x : A) :
  nth_error l i = Some x ->
  l = firstn i l ++ x :: skipn (S i) l /\ list_pop l i = firstn i l ++ skipn (S i) l.
Proof.
  revert i. induction l as [| y l IH]; intros [| i] H; simpl in *; try discriminate.
  - injection H as ->. auto.
  - destruct (IH _ H) as [E1 E2]. split; [f_equal; exact E1 | f_equal; exact E2].
Qed.

Lemma list_pop_app {A : Type} (before after : list A) (x : A) :
  list_pop (before ++ x :: after) (length before) = before ++ after.
Proof.
  induction before as [| y before IH]; simpl; [reflexivity | now rewrite IH].
Qed.

(* ------------------------------------------------------------------ *)
(** ** Filling template slots *)

Section SlotFilling.
Context {ML : Matrices}.
Variable self : InstanceSeparator.

(** [best] is the first candidate of least score in [cands]: it stands
    between [before] and [after]. *)
Definition first_least (score : InstancePayload -> option Q)
    (cands before : list InstancePayload) (best : InstancePayload)
    (after : list InstancePayload) (s : Q) : Prop :=
  cands = before ++ best :: after
  /\ score best = Some s
  /\ (forall c s', In c before -> score c = Some s' -> s < s')
  /\ (forall c s', In c after -> score c = Some s' -> s <= s').

Lemma best_candidate_split (score : InstancePayload -> option Q)
    (l : list InstancePayload) (i : nat) (p : InstancePayload) (s : Q) :
  best_candidate score (enumerate l) None = Some (i, p, s) ->
  exists before after,
    first_least score l before p after s
    /\ length before = i
    /\ list_pop l i = before ++ after.
Proof.
  intros H. destruct (best_candidate_some _ _ H) as (Hn & Hs & Hmin).
  destruct (list_pop_split _ _ Hn) as [E1 E2].
  assert (Hi : (i < length l)%nat) by (apply nth_error_Some; congruence).
  exists (firstn i l), (skipn (S i) l).
  assert (Hlen : length (firstn i l) = i) by (rewrite length_firstn; lia).
  repeat split; auto.
  - intros c s' Hin Hc. destruct (In_nth_error _ _ Hin) as [j Hj].
    assert (Hji : (j < i)%nat).
    { rewrite <- Hlen. apply nth_error_Some. congruence. }
    apply (Hmin j c s'); auto.
    rewrite E1, nth_error_app1 by lia. exact Hj.
  - intros c s' Hin Hc. destruct (In_nth_error _ _ Hin) as [j Hj].
    apply (Hmin (i + S j)%nat c s'); auto.
    rewrite E1, nth_error_app2 by lia.
    replace (i + S j - length (firstn i l))%nat with (S j) by lia. exact Hj.
Qed.

Lemma first_least_best_candidate (score : InstancePayload -> option Q)
    (l before : list InstancePayload) (best : InstancePayload)
    (after : list InstancePayload) (s : Q) :
  first_least score l before best after s ->
  best_candidate score (enumerate l) None = Some (length before, best, s)
  /\ list_pop l (length before) = before ++ after.
Proof.
  intros (-> & Hs & Hb & Ha).
  assert (Hn : nth_error (before ++ best :: after) (length before) = Some best).
  { rewrite nth_error_app2 by lia. now rewrite Nat.sub_diag. }
  split.
  - apply best_candidate_first_least; auto.
    intros j c s' Hj Hc.
    destruct (Nat.lt_trichotomy j (length before)) as [Hlt | [-> | Hgt]].
    + rewrite nth_error_app1 in Hj by lia. apply nth_error_In in Hj.
      specialize (Hb _ _ Hj Hc). split; [now apply Qlt_le_weak | auto].
    + rewrite Hn in Hj. injection Hj as <-. rewrite Hs in Hc. injection Hc as <-.
      split; [apply Qle_refl | lia].
    + rewrite nth_error_app2 in Hj by lia.
      destruct (j - length before)%nat as [| k] eqn:Ek; [lia |].
      simpl in Hj. apply nth_error_In in Hj.
      split; [exact (Ha _ _ Hj Hc) | lia].
  - apply list_pop_app.
Qed.

(** The matches after the slots [slots] received [ps], slot by slot. *)
Definition record_matches (slots : list AssemblyTemplateSlot)
    (ps : list InstancePayload) (m0 : Matches) : Matches :=
  fold_left (fun (m : Matches) sp => dict_set Nat.eqb m (slot_id (fst sp)) (snd sp))
    (combine slots ps) m0.

(** One run over the slots, told declaratively.  A root slot takes the
    anchor itself when [use_root] is set; any other slot takes, from the
    bucket of its signature, the first candidate of least score, and that
    candidate leaves the pool before the next slot is looked at. *)
Inductive fills (use_root : bool) (anchor : InstancePayload)
  : list AssemblyTemplateSlot -> Availability -> list InstancePayload -> Availability -> Prop :=
| fills_nil (av : Availability) : fills use_root anchor [] av [] av
| fills_root (slot : AssemblyTemplateSlot) (r : list AssemblyTemplateSlot)
    (av av' : Availability) (ps : list InstancePayload) :
    use_root && is_root slot = true ->
    fills use_root anchor r av ps av' ->
    fills use_root anchor (slot :: r) av (anchor :: ps) av'
| fills_pick (slot : AssemblyTemplateSlot) (r : list AssemblyTemplateSlot)
    (av av' : Availability) (ps before after : list InstancePayload)
    (best : InstancePayload) (s : Q) :
    use_root && is_root slot = false ->
    first_least (slot_score self (matrix anchor) slot)
      (dict_get_list sig_eqb av (signature slot)) before best after s ->
    fills use_root anchor r
      (dict_set sig_eqb av (signature slot) (before ++ after)) ps av' ->
    fills use_root anchor (slot :: r) av (best :: ps) av'.

(** No candidate of the slot's bucket passes the two tolerance gates. *)
Definition no_candidate (anchor : InstancePayload) (slot : AssemblyTemplateSlot)
    (av : Availability) : Prop :=
  forall c, In c (dict_get_list sig_eqb av (signature slot)) ->
            slot_score self (matrix anchor) slot c = None.

(** The run stops at a slot that finds no candidate. *)
Definition stuck (use_root : bool) (anchor : InstancePayload)
    (slots : list AssemblyTemplateSlot) (av av' : Availability) : Prop :=
  exists pre slot post ps,
    slots = pre ++ slot :: post
    /\ fills use_root anchor pre av ps av'
    /\ use_root && is_root slot = false
    /\ no_candidate anchor slot av'.

Lemma match_anchor_slots_sound (anchor : InstancePayload)
    (slots : list AssemblyTemplateSlot) :
  forall av m0,
    match match_anchor_slots self anchor slots av m0 with
    | (Some m, av') =>
        exists ps, fills true anchor slots av ps av' /\ m = record_matches slots ps m0
    | (None, av') => stuck true anchor slots av av'
    end.
Proof.
  induction slots as [| slot r IH]; intros av m0; simpl.
  - exists []. split; [constructor | reflexivity].
  - destruct (is_root slot) eqn:Er.
    + specialize (IH av (dict_set Nat.eqb m0 (slot_id slot) anchor)).
      destruct (match_anchor_slots self anchor r av _) as [[m |] av'].
      * destruct IH as (ps & Hf & ->). exists (anchor :: ps).
        split; [now apply fills_root | reflexivity].
      * destruct IH as (pre & sl & post & ps & -> & Hf & Hr & Hn).
        exists (slot :: pre), sl, post, (anchor :: ps).
        repeat split; auto. now apply fills_root.
    + destruct (best_candidate _ _ None) as [[[i p] s] |] eqn:Eb.
      * destruct (best_candidate_split _ _ Eb) as (before & after & Hfl & Hlen & Hpop).
        rewrite Hpop.
        specialize (IH (dict_set sig_eqb av (signature slot) (before ++ after))
                      (dict_set Nat.eqb m0 (slot_id slot) p)).
        destruct (match_anchor_slots self anchor r _ _) as [[m |] av'].
        -- destruct IH as (ps & Hf & ->). exists (p :: ps).
           split; [| reflexivity]. eapply fills_pick; eauto.
        -- destruct IH as (pre & sl & post & ps & -> & Hf & Hr & Hn).
           exists (slot :: pre), sl, post, (p :: ps).
           repeat split; auto. eapply fills_pick; eauto.
      * exists [], slot, r, []. repeat split; auto; [constructor |].
        intros c Hc. now apply (proj1 (best_candidate_none _ _) Eb).
Qed.

Lemma match_anchor_slots_follow (anchor : InstancePayload)
    (pre : list AssemblyTemplateSlot) (av av1 : Availability)
    (ps : list InstancePayload) :
  fills true anchor pre av ps av1 ->
  forall rest m0,
    match_anchor_slots self anchor (pre ++ rest) av m0
    = match_anchor_slots self anchor rest av1 (record_matches pre ps m0).
Proof.
  induction 1 as [av | slot r av av' ps Hr _ IH
                 | slot r av av' ps before after best s Hr Hfl _ IH];
    intros rest m0; simpl.
  - reflexivity.
  - simpl in Hr. rewrite Hr. apply IH.
  - simpl in Hr. rewrite Hr.
    destruct (first_least_best_candidate Hfl) as [-> ->]. apply IH.
Qed.

Lemma match_anchor_slots_stuck (anchor : InstancePayload)
    (slots : list AssemblyTemplateSlot) (av av' : Availability) (m0 : Matches) :
  stuck true anchor slots av av' ->
  match_anchor_slots self anchor slots av m0 = (None, av').
Proof.
  intros (pre & slot & post & ps & -> & Hf & Hr & Hn).
  rewrite (match_anchor_slots_follow Hf). simpl. simpl in Hr. rewrite Hr.
  now rewrite (proj2 (best_candidate_none _ _) Hn).
Qed.

Lemma match_anchor_slots_complete (anchor : InstancePayload)
    (slots : list AssemblyTemplateSlot) (av av' : Availability)
    (ps : list InstancePayload) (m0 : Matches) :
  fills true anchor slots av ps av' ->
  match_anchor_slots self anchor slots av m0 = (Some (record_matches slots ps m0), av').
Proof.
  intros Hf. rewrite <- (app_nil_r slots) at 1.
  now rewrite (match_anchor_slots_follow Hf).
Qed.
End SlotFilling.

(* ------------------------------------------------------------------ *)
(** ** Scores and tolerance gates *)

Lemma py_fmod_360 (x : Q) : 0 <= py_fmod x 360 /\ py_fmod x 360 < 360.
Proof.
  unfold py_fmod.
  pose proof (Qfloor_le (x / 360)) as H1. pose proof (Qlt_floor (x / 360)) as H2.
  rewrite inject_Z_plus in H2. change (inject_Z 1) with 1 in H2.
  assert (E : x == 360 * (x / 360)) by field.
  set (y := x / 360) in *. set (f := inject_Z (Qfloor y)) in *.
  split; rewrite E at 1; lra.
Qed.

Section Scores.
Context {ML : Matrices}.
Variable self : InstanceSeparator.

Definition translation_delta (candidate reference : MMatrix) : Q :=
  math_dist (translation_of candidate) (translation_of reference).

(** The largest of the three wrapped angle differences, in absolute value. *)
Definition rotation_delta (candidate reference : MMatrix) : Q :=
  let c := rotation_of candidate in
  let r := rotation_of reference in
  Qmax (Qmax (Qabs (angle_delta (vec_x c) (vec_x r)))
          (Qabs (angle_delta (vec_y c) (vec_y r))))
    (Qabs (angle_delta (vec_z c) (vec_z r))).

(** The wrapped difference lies in [-180, 180) and differs from the plain
    difference by a whole number of turns. *)
Lemma angle_delta_wrapped (a b : Q) :
  -180 <= angle_delta a b /\ angle_delta a b < 180
  /\ exists k : Z, angle_delta a b == a - b - 360 * inject_Z k.
Proof.
  unfold angle_delta. destruct (py_fmod_360 (a - b + 180)) as [H1 H2].
  repeat split; try lra.
  exists (Qfloor ((a - b + 180) / 360)). unfold py_fmod. ring.
Qed.

Lemma matrix_difference_score_spec (candidate reference : MMatrix) (s : Q) :
  matrix_difference_score self candidate reference = Some s
  <-> translation_delta candidate reference <= template_position_tolerance self
      /\ rotation_delta candidate reference <= template_rotation_tolerance self
      /\ s = translation_delta candidate reference
             + rotation_delta candidate reference
               / Qmax (template_rotation_tolerance self) (1 # 1000).
Proof.
  unfold matrix_difference_score, translation_within_tolerance,
    rotation_within_tolerance, vec_items.
  cbn [combine map fst snd]. unfold py_max1. cbn [fold_left]. rewrite !Qltb_max.
  fold (translation_delta candidate reference) (rotation_delta candidate reference).
  destruct (Qle_bool (translation_delta candidate reference)
              (template_position_tolerance self)) eqn:Et;
    destruct (Qle_bool (rotation_delta candidate reference)
                (template_rotation_tolerance self)) eqn:Er; simpl.
  - apply Qle_bool_iff in Et, Er. split.
    + intros [= <-]. auto.
    + intros (_ & _ & ->). reflexivity.
  - split; [discriminate |]. intros (_ & H & _). apply Qle_bool_iff in H. congruence.
  - split; [discriminate |]. intros (H & _). apply Qle_bool_iff in H. congruence.
  - split; [discriminate |]. intros (H & _). apply Qle_bool_iff in H. congruence.
Qed.

Lemma score_with_tolerance (candidate reference : MMatrix) (s : Q) :
  (1 # 1000) <= template_rotation_tolerance self ->
  matrix_difference_score self candidate reference = Some s ->
  s == translation_delta candidate reference
       + rotation_delta candidate reference / template_rotation_tolerance self.
Proof.
  intros Htol H. apply matrix_difference_score_spec in H. destruct H as (_ & _ & ->).
  now rewrite (Q.max_l _ _ Htol).
Qed.
End Scores.

(* ------------------------------------------------------------------ *)
(** ** What a run leaves in the pool and in the matches *)

Lemma dict_set_new {K V : Type} (keq : K -> K -> bool) (d : dict K V) (k : K) (v : V) :
  dict_get keq d k = None -> dict_set keq d k v = d ++ [(k, v)].
Proof.
  induction d as [| [k1 v1] d IH]; simpl; [reflexivity |].
  destruct (keq k1 k); [discriminate |]. intros H. now rewrite IH.
Qed.

Lemma dict_set_in {K V : Type} (keq : K -> K -> bool) (d : dict K V) (k : K) (v : V)
    (x : K * V) :
  In x (dict_set keq d k v) -> In x d \/ snd x = v.
Proof.
  induction d as [| [k1 v1] d IH]; simpl.
  - intros [<- | []]. now right.
  - destruct (keq k1 k); simpl.
    + intros [<- | H]; [now right | left; now right].
    + intros [<- | H]; [left; now left |].
      destruct (IH H); [left; now right | now right].
Qed.

Lemma nat_dict_get_none {V : Type} (d : dict nat V) (k : nat) :
  ~ In k (map fst d) -> dict_get Nat.eqb d k = None.
Proof.
  induction d as [| [k1 v1] d IH]; simpl; [reflexivity |].
  intros H. destruct (Nat.eqb_spec k1 k) as [-> | _]; [exfalso; auto |].
  apply IH. auto.
Qed.

Lemma combine_get {V : Type} (ks : list nat) (vs : list V) :
  NoDup ks ->
  forall i k v,
    nth_error ks i = Some k -> nth_error vs i = Some v ->
    dict_get Nat.eqb (combine ks vs) k = Some v.
Proof.
  intros Hnd. revert vs.
  induction Hnd as [| k0 ks Hnotin _ IH]; intros vs i k v Hk Hv.
  - now destruct i.
  - destruct vs as [| v0 vs]; [now destruct i |].
    destruct i as [| i]; simpl in *.
    + injection Hk as <-. injection Hv as <-. now rewrite Nat.eqb_refl.
    + destruct (Nat.eqb_spec k0 k) as [-> | _].
      * exfalso. apply Hnotin. now apply nth_error_In with i.
      * now apply IH with i.
Qed.

Section MatchRecords.
Context {ML : Matrices}.
Variable self : InstanceSeparator.

Lemma record_matches_combine (slots : list AssemblyTemplateSlot) :
  forall (ps : list InstancePayload) (m0 : Matches),
    NoDup (map slot_id slots) ->
    length ps = length slots ->
    (forall s, In s slots -> ~ In (slot_id s) (map fst m0)) ->
    record_matches slots ps m0 = m0 ++ combine (map slot_id slots) ps.
Proof.
  induction slots as [| s r IH]; intros ps m0 Hnd Hlen Hfresh.
  - unfold record_matches. destruct ps; simpl; now rewrite app_nil_r.
  - destruct ps as [| p ps]; [discriminate |].
    unfold record_matches. cbn [combine fold_left fst snd map].
    fold (record_matches r ps (dict_set Nat.eqb m0 (slot_id s) p)).
    inversion Hnd as [| ? ? Hnotin Hnd']; subst.
    rewrite dict_set_new by (apply nat_dict_get_none, Hfresh; now left).
    rewrite IH; auto.
    + now rewrite <- app_assoc.
    + intros s' Hs'. rewrite map_app, in_app_iff. simpl.
      intros [H | [H | []]].
      * apply (Hfresh s'); [now right | exact H].
      * apply Hnotin. rewrite H. now apply in_map.
Qed.

Lemma record_matches_in (slots : list AssemblyTemplateSlot) :
  forall (ps : list InstancePayload) (m0 : Matches) (x : nat * InstancePayload),
    In x (record_matches slots ps m0) -> In x m0 \/ In (snd x) ps.
Proof.
  induction slots as [| s r IH]; intros ps m0 x.
  - unfold record_matches. simpl. auto.
  - destruct ps as [| p ps]; [unfold record_matches; simpl; auto |].
    unfold record_matches. cbn [combine fold_left fst snd].
    fold (record_matches r ps (dict_set Nat.eqb m0 (slot_id s) p)).
    intros H. destruct (IH _ _ _ H) as [H' | H']; [| right; now right].
    destruct (dict_set_in _ _ _ _ _ H') as [H'' | ->]; [now left | right; now left].
Qed.

Lemma ordered_slot_payloads_get (anchor : InstancePayload) (m : Matches)
    (slots : list AssemblyTemplateSlot) :
  forall ps,
    length ps = length slots ->
    (forall i s p, nth_error slots i = Some s -> nth_error ps i = Some p ->
                   dict_get Nat.eqb m (slot_id s) = Some p) ->
    ordered_slot_payloads anchor m slots = ret ps.
Proof.
  induction slots as [| s r IH]; intros [| p ps] Hlen Hget; try discriminate.
  - reflexivity.
  - simpl. rewrite (Hget 0%nat s p eq_refl eq_refl).
    rewrite (IH ps); [reflexivity | simpl in Hlen; lia |].
    intros i s' p' Hs Hp. now apply (Hget (S i)).
Qed.

(** With distinct slot ids the descriptor of a run lists the payloads in
    slot order and keeps the matches as they were recorded. *)
Lemma descriptor_from_run (anchor : InstancePayload) (source : Node)
    (slots : list AssemblyTemplateSlot) (ps : list InstancePayload) :
  NoDup (map slot_id slots) ->
  length ps = length slots ->
  record_matches slots ps [] = combine (map slot_id slots) ps
  /\ descriptor_from_slot_mapping anchor source (record_matches slots ps []) slots
     = ret {| ad_source_transform := source;
              components := ps;
              ad_signature := signature_of_components ps;
              root_component := anchor;
              root_signature := component_signature anchor;
              matched_slots := record_matches slots ps [] |}.
Proof.
  intros Hnd Hlen.
  assert (E : record_matches slots ps [] = combine (map slot_id slots) ps).
  { rewrite record_matches_combine; auto. }
  split; [exact E |].
  unfold descriptor_from_slot_mapping.
  rewrite (@ordered_slot_payloads_get anchor _ slots ps Hlen); [reflexivity |].
  intros i s p Hs Hp. rewrite E.
  apply combine_get with i; auto.
  now apply map_nth_error.
Qed.

(** The payloads a run took out of the pool. *)
Definition picked (use_root : bool) (slots : list AssemblyTemplateSlot)
    (ps : list InstancePayload) : list InstancePayload :=
  map snd (filter (fun sp => negb (use_root && is_root (fst sp))) (combine slots ps)).

Lemma first_least_get (score : InstancePayload -> option Q) (av : Availability)
    (sig : Signature) (before after : list InstancePayload) (best : InstancePayload)
    (s : Q) :
  first_least score (dict_get_list sig_eqb av sig) before best after s ->
  dict_get sig_eqb av sig = Some (before ++ best :: after).
Proof.
  intros (E & _). unfold dict_get_list in E.
  destruct (dict_get sig_eqb av sig) as [l |]; [now rewrite E |].
  now destruct before.
Qed.

Lemma fills_length (use_root : bool) (anchor : InstancePayload)
    (slots : list AssemblyTemplateSlot) (av av' : Availability)
    (ps : list InstancePayload) :
  fills self use_root anchor slots av ps av' -> length ps = length slots.
Proof. induction 1; simpl; congruence. Qed.

(** Nothing is lost and nothing is used twice: the pool before a run is the
    pool after it together with the payloads the run picked. *)
Lemma fills_conserve (use_root : bool) (anchor : InstancePayload)
    (slots : list AssemblyTemplateSlot) (av av' : Availability)
    (ps : list InstancePayload) :
  fills self use_root anchor slots av ps av' ->
  Permutation (pool_items av) (picked use_root slots ps ++ pool_items av').
Proof.
  induction 1 as [av | slot r av av' ps Hr _ IH
                 | slot r av av' ps before after best s Hr Hfl _ IH];
    unfold picked; cbn [combine filter fst snd map].
  - reflexivity.
  - rewrite Hr. exact IH.
  - rewrite Hr. cbn [negb map snd app].
    assert (Hg : dict_get sig_eqb av (signature slot) = Some (before ++ best :: after))
      by (eapply first_least_get; eauto).
    rewrite (pool_take sig_eqb _ (signature slot) (l' := before ++ after) (x := best) Hg).
    + now apply perm_skip.
    + symmetry. apply Permutation_middle.
Qed.

Lemma fills_sources (use_root : bool) (anchor : InstancePayload)
    (slots : list AssemblyTemplateSlot) (av av' : Availability)
    (ps : list InstancePayload) :
  fills self use_root anchor slots av ps av' ->
  Forall2 (fun slot p =>
             if use_root && is_root slot then p = anchor
             else In p (pool_items av))
    slots ps.
Proof.
  induction 1 as [av | slot r av av' ps Hr _ IH
                 | slot r av av' ps before after best s Hr Hfl _ IH].
  - constructor.
  - constructor; [now rewrite Hr | exact IH].
  - assert (Hg : dict_get sig_eqb av (signature slot) = Some (before ++ best :: after))
      by (eapply first_least_get; eauto).
    pose proof (pool_take sig_eqb _ (signature slot) (l' := before ++ after) (x := best)
                  Hg (Permutation_sym (Permutation_middle before after best))) as Hp.
    constructor.
    + rewrite Hr. apply (Permutation_in _ (Permutation_sym Hp)). now left.
    + eapply Forall2_impl; [| exact IH].
      intros slot' p. simpl. destruct (use_root && is_root slot'); [auto |].
      intros Hin. apply (Permutation_in _ (Permutation_sym Hp)). now right.
Qed.
End MatchRecords.

(* ------------------------------------------------------------------ *)
(** ** Per-anchor template matching *)

Section AnchorMatching.
Context {ML : Matrices}.
Variable self : InstanceSeparator.

Lemma match_anchor_some_iff (anchor : InstancePayload)
    (slots : list AssemblyTemplateSlot) (av av' : Availability) (m : Matches) :
  match_anchor_to_template_slots self anchor slots av = (Some m, av')
  <-> exists ps, fills self true anchor slots av ps av' /\ m = record_matches slots ps [].
Proof.
  unfold match_anchor_to_template_slots. split.
  - intros H. pose proof (match_anchor_slots_sound self anchor slots av []) as S.
    rewrite H in S. exact S.
  - intros (ps & Hf & ->). now apply match_anchor_slots_complete.
Qed.

Lemma match_anchor_none_iff (anchor : InstancePayload)
    (slots : list AssemblyTemplateSlot) (av av' : Availability) :
  match_anchor_to_template_slots self anchor slots av = (None, av')
  <-> stuck self true anchor slots av av'.
Proof.
  unfold match_anchor_to_template_slots. split.
  - intros H. pose proof (match_anchor_slots_sound self anchor slots av []) as S.
    rewrite H in S. exact S.
  - apply match_anchor_slots_stuck.
Qed.

(** The payloads the occurrences of [ds] took for their non-root slots. *)
Definition occurrence_picks (slots : list AssemblyTemplateSlot)
    (ds : list AssemblyDescriptor) : list InstancePayload :=
  flat_map (fun d => picked true slots (components d)) ds.

Lemma anchor_occurrences_conserve (template_anchor : InstancePayload)
    (slots : list AssemblyTemplateSlot) (anchors : list InstancePayload) :
  NoDup (map slot_id slots) ->
  forall av ds used ds' used' av',
    anchor_occurrences self template_anchor slots anchors av ds used
    = ret (ds', used', av') ->
    exists new lost,
      ds' = ds ++ new
      /\ Permutation (pool_items av)
           (occurrence_picks slots new ++ lost ++ pool_items av').
Proof.
  intros Hnd. induction anchors as [| anchor r IH]; intros av ds used ds' used' av' H.
  - injection H as <- <- <-. exists [], []. split; [now rewrite app_nil_r | reflexivity].
  - simpl in H. destruct (same_object anchor template_anchor); [now apply IH with used used' |].
    pose proof (match_anchor_slots_sound self anchor slots av []) as S.
    unfold match_anchor_to_template_slots in H.
    destruct (match_anchor_slots self anchor slots av []) as [[m |] av1].
    + destruct S as (ps & Hf & ->).
      pose proof (fills_conserve Hf) as Hc.
      pose proof (fills_length Hf) as Hlen.
      destruct (@descriptor_from_run _ anchor (transform anchor) slots ps Hnd Hlen)
        as [_ Hd].
      destruct (record_matches slots ps []) as [| e m] eqn:Em.
      * destruct (IH _ _ _ _ _ _ H) as (new & lost & -> & Hp).
        exists new, (picked true slots ps ++ lost). split; [reflexivity |].
        rewrite Hc, Hp, <- app_assoc. apply Permutation_app_swap_app.
      * rewrite Hd in H. simpl in H.
        destruct (IH _ _ _ _ _ _ H) as (new & lost & -> & Hp).
        eexists (_ :: new), lost. split; [now rewrite <- app_assoc |].
        unfold occurrence_picks in *. cbn [flat_map components].
        rewrite Hc, Hp, <- app_assoc. reflexivity.
    + destruct S as (pre & slot & post & ps & _ & Hf & _).
      pose proof (fills_conserve Hf) as Hc.
      destruct (IH _ _ _ _ _ _ H) as (new & lost & -> & Hp).
      exists new, (picked true pre ps ++ lost). split; [reflexivity |].
      rewrite Hc, Hp, <- app_assoc. apply Permutation_app_swap_app.
Qed.

(** C2: per-anchor matching.  A candidate has a score exactly when it passes
    both tolerance gates, and the score is the translation delta plus the
    rotation delta over the rotation tolerance (for a tolerance of at least
    0.001); a successful match is a run in which every non-root slot takes
    the first candidate of least score of its signature's bucket; the match
    yields nothing exactly when the run gets stuck at a slot without a
    candidate; every payload picked leaves the pool, for the later slots of
    the anchor and for the later anchors of the loop. *)
Theorem match_anchor_to_template_slots_spec (anchor : InstancePayload)
    (slots : list AssemblyTemplateSlot) (av : Availability) :
  (forall slot c s,
      slot_score self (matrix anchor) slot c = Some s
      <-> translation_delta (relative_matrix (matrix anchor) (matrix c))
            (reference_matrix slot)
          <= template_position_tolerance self
          /\ rotation_delta (relative_matrix (matrix anchor) (matrix c))
               (reference_matrix slot)
             <= template_rotation_tolerance self
          /\ s = translation_delta (relative_matrix (matrix anchor) (matrix c))
                   (reference_matrix slot)
                 + rotation_delta (relative_matrix (matrix anchor) (matrix c))
                     (reference_matrix slot)
                   / Qmax (template_rotation_tolerance self) (1 # 1000))
  /\ ((1 # 1000) <= template_rotation_tolerance self ->
      forall slot c s,
        slot_score self (matrix anchor) slot c = Some s ->
        s == translation_delta (relative_matrix (matrix anchor) (matrix c))
               (reference_matrix slot)
             + rotation_delta (relative_matrix (matrix anchor) (matrix c))
                 (reference_matrix slot)
               / template_rotation_tolerance self)
  /\ (forall m av',
        match_anchor_to_template_slots self anchor slots av = (Some m, av')
        <-> exists ps,
            fills self true anchor slots av ps av' /\ m = record_matches slots ps [])
  /\ (forall av',
        match_anchor_to_template_slots self anchor slots av = (None, av')
        <-> stuck self true anchor slots av av')
  /\ (forall ps av',
        fills self true anchor slots av ps av' ->
        Permutation (pool_items av) (picked true slots ps ++ pool_items av'))
  /\ (forall template_anchor anchors ds used ds' used' av',
        NoDup (map slot_id slots) ->
        anchor_occurrences self template_anchor slots anchors av ds used
        = ret (ds', used', av') ->
        exists new lost,
          ds' = ds ++ new
          /\ Permutation (pool_items av)
               (occurrence_picks slots new ++ lost ++ pool_items av')).
Proof.
  split; [| split; [| split; [| split; [| split]]]].
  - intros slot c s. unfold slot_score. apply matrix_difference_score_spec.
  - intros Htol slot c s. unfold slot_score. now apply score_with_tolerance.
  - intros m av'. apply match_anchor_some_iff.
  - intros av'. apply match_anchor_none_iff.
  - intros ps av'. apply fills_conserve.
  - intros ta anchors ds used ds' used' av' Hnd. now apply anchor_occurrences_conserve.
Qed.
End AnchorMatching.

Lemma combine_fst_snd {A B : Type} (l : list A) :
  forall l' : list B,
    length l = length l' ->
    map fst (combine l l') = l /\ map snd (combine l l') = l'.
Proof.
  induction l as [| x l IH]; intros [| y l'] H; try discriminate; simpl.
  - auto.
  - destruct (IH l') as [-> ->]; [simpl in H; lia | auto].
Qed.

Lemma Forall2_in_r {A B : Type} (R : A -> B -> Prop) (l : list A) (l' : list B) (y : B) :
  Forall2 R l l' -> In y l' -> exists x, In x l /\ R x y.
Proof.
  induction 1 as [| x0 y0 l l' Hxy _ IH]; intros Hin; [destruct Hin |].
  destruct Hin as [<- | Hin].
  - exists x0. split; [now left | exact Hxy].
  - destruct (IH Hin) as (x & Hx & Hr). exists x. split; [now right | exact Hr].
Qed.

(* ------------------------------------------------------------------ *)
(** ** Matching a descriptor to a template *)

Section AssemblyMatching.
Context {ML : Matrices}.
Variable self : InstanceSeparator.

Lemma payload_eqb_matrix (a b : InstancePayload) :
  payload_eqb a b = true -> matrix a = matrix b.
Proof.
  unfold payload_eqb. rewrite !andb_true_iff.
  intros H. decompose [and] H. now apply mm_eqb_eq.
Qed.

Lemma slot_score_eqb (root_matrix : MMatrix) (slot : AssemblyTemplateSlot)
    (a b : InstancePayload) :
  payload_eqb a b = true ->
  slot_score self root_matrix slot a = slot_score self root_matrix slot b.
Proof.
  intros H. unfold slot_score. now rewrite (payload_eqb_matrix _ _ H).
Qed.

Lemma list_remove_before {A : Type} (same : A -> bool) (before after : list A) (x : A) :
  (forall c, In c before -> same c = false) ->
  same x = true ->
  list_remove same (before ++ x :: after) = before ++ after.
Proof.
  intros Hb Hx. induction before as [| y before IH]; simpl.
  - now rewrite Hx.
  - rewrite (Hb y) by now left. rewrite IH; [reflexivity |].
    intros c Hc. apply Hb. now right.
Qed.

(** [candidates.remove(best)] takes out the chosen object itself. *)
Lemma list_remove_first_least (root_matrix : MMatrix) (slot : AssemblyTemplateSlot)
    (cands before after : list InstancePayload) (best : InstancePayload) (s : Q) :
  first_least (slot_score self root_matrix slot) cands before best after s ->
  NoDup (map oid cands) ->
  list_remove (fun c => same_object c best || payload_eqb c best) cands = before ++ after.
Proof.
  intros (-> & Hs & Hb & _) Hnd.
  apply list_remove_before.
  - intros c Hc. apply orb_false_iff. split.
    + unfold same_object. apply Nat.eqb_neq. intros E.
      rewrite map_app in Hnd. simpl in Hnd. apply NoDup_remove_2 in Hnd.
      apply Hnd. apply in_or_app. left. rewrite <- E. now apply in_map.
    + destruct (payload_eqb c best) eqn:E; [| reflexivity].
      exfalso. apply (Qlt_irrefl s). apply (Hb c s Hc).
      now rewrite (slot_score_eqb _ _ _ _ E).
  - unfold same_object. now rewrite Nat.eqb_refl.
Qed.

Lemma bucket_nodup (av : Availability) (sig : Signature) (l : list InstancePayload) :
  dict_get sig_eqb av sig = Some l ->
  NoDup (map oid (pool_items av)) ->
  NoDup (map oid l).
Proof.
  intros Hg Hnd. destruct (@dict_set_present _ _ sig_eqb av sig l l Hg) as (d1 & k0 & d2 & -> & _).
  rewrite pool_items_app in Hnd. unfold pool_items at 2 in Hnd. simpl in Hnd.
  rewrite !map_app in Hnd.
  apply NoDup_app_remove_l in Hnd. now apply NoDup_app_remove_r in Hnd.
Qed.

Lemma match_assembly_slots_sound (root : InstancePayload)
    (slots : list AssemblyTemplateSlot) :
  forall av m0,
    NoDup (map oid (pool_items av)) ->
    match match_assembly_slots self root slots av m0 with
    | Some m =>
        exists ps av',
          fills self false root slots av ps av' /\ m = record_matches slots ps m0
    | None => exists av', stuck self false root slots av av'
    end.
Proof.
  induction slots as [| slot r IH]; intros av m0 Hnd; simpl.
  - exists [], av. split; [constructor | reflexivity].
  - destruct (best_candidate _ _ None) as [[[i p] s] |] eqn:Eb.
    + destruct (best_candidate_split _ _ Eb) as (before & after & Hfl & Hlen & Hpop).
      assert (Hg : dict_get sig_eqb av (signature slot) = Some (before ++ p :: after))
        by (eapply first_least_get; eauto).
      assert (Hc : NoDup (map oid (dict_get_list sig_eqb av (signature slot)))).
      { unfold dict_get_list. rewrite Hg. now apply bucket_nodup with av (signature slot). }
      rewrite (list_remove_first_least Hfl Hc).
      pose proof (pool_take sig_eqb _ (signature slot) (l' := before ++ after) (x := p)
                    Hg (Permutation_sym (Permutation_middle before after p))) as Hp.
      assert (Hnd' : NoDup (map oid (pool_items
                       (dict_set sig_eqb av (signature slot) (before ++ after))))).
      { apply (Permutation_map oid) in Hp.
        apply (Permutation_NoDup Hp) in Hnd. simpl in Hnd. now inversion Hnd. }
      specialize (IH (dict_set sig_eqb av (signature slot) (before ++ after))
                    (dict_set Nat.eqb m0 (slot_id slot) p) Hnd').
      destruct (match_assembly_slots self root r _ _) as [m |].
      * destruct IH as (ps & av' & Hf & ->). exists (p :: ps), av'.
        split; [| reflexivity]. eapply fills_pick; eauto.
      * destruct IH as (av' & pre & sl & post & ps & -> & Hf & Hr & Hn).
        exists av', (slot :: pre), sl, post, (p :: ps).
        repeat split; auto. eapply fills_pick; eauto.
    + exists av, [], slot, r, []. repeat split; auto; [constructor |].
      intros c Hc. now apply (proj1 (best_candidate_none _ _) Eb).
Qed.

Lemma available_components_perm (comps : list InstancePayload) :
  Permutation (pool_items (available_components comps)) comps.
Proof.
  unfold available_components.
  assert (G : forall av : Availability,
             Permutation
               (pool_items
                  (fold_left (fun (av : Availability) payload =>
                                dict_append sig_eqb av (component_signature payload) payload)
                     comps av))
               (pool_items av ++ comps)).
  { induction comps as [| c comps IH]; intros av; simpl.
    - now rewrite app_nil_r.
    - rewrite IH, pool_append. simpl. apply Permutation_middle. }
  apply G.
Qed.

(** Slot ids are handed out in order, starting from the given number. *)
Lemma template_slots_from_ids (root : InstancePayload) (comps : list InstancePayload) :
  forall k, map slot_id (template_slots_from root comps k) = seq k (length comps).
Proof.
  induction comps as [| c comps IH]; intros k; simpl; [reflexivity | now rewrite IH].
Qed.

Lemma anchor_slots_from_ids (anchor : InstancePayload) (radius : Q)
    (comps : list InstancePayload) :
  forall k,
    map slot_id (anchor_slots_from anchor radius comps k)
    = seq k (length (anchor_slots_from anchor radius comps k)).
Proof.
  induction comps as [| c comps IH]; intros k; simpl; [reflexivity |].
  destruct (Qltb radius (payload_distance anchor c)); [apply IH |].
  simpl. now rewrite <- IH.
Qed.

Lemma picked_all (slots : list AssemblyTemplateSlot) (ps : list InstancePayload) :
  length ps = length slots -> picked false slots ps = ps.
Proof.
  revert ps. induction slots as [| s r IH]; intros [| p ps] H; try discriminate.
  - reflexivity.
  - unfold picked in *. simpl. f_equal. apply IH. simpl in H. lia.
Qed.

(** The payloads of a run are distinct objects when the pool holds distinct
    objects, the anchor is not in the pool and at most one slot is a root. *)
Lemma fills_distinct (use_root : bool) (anchor : InstancePayload)
    (slots : list AssemblyTemplateSlot) (av av' : Availability)
    (ps : list InstancePayload) :
  fills self use_root anchor slots av ps av' ->
  NoDup (map oid (pool_items av)) ->
  (use_root = true ->
   ~ In (oid anchor) (map oid (pool_items av))
   /\ (length (filter is_root slots) <= 1)%nat) ->
  NoDup (map oid ps).
Proof.
  induction 1 as [av | slot r av av' ps Hr Hf IH
                 | slot r av av' ps before after best s Hr Hfl Hf IH];
    intros Hnd Hroot.
  - constructor.
  - apply andb_true_iff in Hr. destruct Hr as [-> Hr].
    destruct (Hroot eq_refl) as [Hout Hone]. simpl in Hone. rewrite Hr in Hone.
    simpl in Hone.
    assert (Hnone : filter is_root r = []) by (destruct (filter is_root r); [reflexivity | simpl in Hone; lia]).
    simpl. constructor.
    + intros Hin. apply in_map_iff in Hin. destruct Hin as (p & Ep & Hp).
      pose proof (fills_sources Hf) as F2.
      destruct (@Forall2_in_r _ _ _ _ _ _ F2 Hp) as (slot' & Hs' & Hsrc). simpl in Hsrc.
      assert (Hnr : is_root slot' = false).
      { destruct (is_root slot') eqn:E; [| reflexivity].
        assert (In slot' (filter is_root r)) by (apply filter_In; auto).
        rewrite Hnone in H. destruct H. }
      rewrite Hnr in Hsrc. apply Hout. rewrite <- Ep. now apply in_map.
    + apply IH; auto. intros _. split; [exact Hout | rewrite Hnone; simpl; lia].
  - assert (Hg : dict_get sig_eqb av (signature slot) = Some (before ++ best :: after))
      by (eapply first_least_get; eauto).
    pose proof (pool_take sig_eqb _ (signature slot) (l' := before ++ after) (x := best)
                  Hg (Permutation_sym (Permutation_middle before after best))) as Hp.
    pose proof (Permutation_map oid Hp) as Hpo. simpl in Hpo.
    pose proof (Permutation_NoDup Hpo Hnd) as Hnd'.
    inversion Hnd' as [| ? ? Hbest Hnd'']; subst.
    simpl. constructor.
    + intros Hin. apply in_map_iff in Hin. destruct Hin as (p & Ep & Hpin).
      pose proof (fills_sources Hf) as F2.
      destruct (@Forall2_in_r _ _ _ _ _ _ F2 Hpin) as (slot' & Hs' & Hsrc). simpl in Hsrc.
      destruct (use_root && is_root slot') eqn:E.
      * subst p. apply andb_true_iff in E. destruct E as [-> _].
        destruct (Hroot eq_refl) as [Hout _]. apply Hout.
        rewrite Ep. apply (Permutation_in _ (Permutation_sym Hpo)). now left.
      * apply Hbest. rewrite <- Ep. now apply in_map.
    + apply IH; auto. intros Hu. destruct (Hroot Hu) as [Hout Hone]. split.
      * intros Hin. apply Hout. apply (Permutation_in _ (Permutation_sym Hpo)). now right.
      * simpl in Hone. destruct (is_root slot); simpl in Hone; lia.
Qed.

End AssemblyMatching.

(* ------------------------------------------------------------------ *)
(** ** Anchors and the availability pool *)

Lemma bind_ret_inv {A B : Type} (c : result A) (k : A -> result B) (b : B) :
  bind c k = ret b -> exists a, c = ret a /\ k a = ret b.
Proof.
  destruct c as [e | a]; simpl; [discriminate |]. intros H. now exists a.
Qed.

Lemma node_in_iff (n : Node) (l : list Node) : node_in n l = true <-> In n l.
Proof.
  unfold node_in. rewrite existsb_exists. split.
  - intros (x & Hx & E). apply Nat.eqb_eq in E. now subst.
  - intros H. exists n. split; [exact H | apply Nat.eqb_refl].
Qed.

Section Anchors.
Context {ML : Matrices}.
Variable self : InstanceSeparator.

Definition free_component (consumed anchors : list InstancePayload)
    (p : InstancePayload) : bool :=
  negb (node_in (transform p) (map transform consumed))
  && negb (node_in (transform p) (map transform anchors)).

Lemma build_anchor_availability_perm (comps consumed anchors : list InstancePayload) :
  Permutation (pool_items (build_anchor_availability comps consumed anchors))
    (filter (free_component consumed anchors) comps).
Proof.
  unfold build_anchor_availability.
  rewrite pool_map_perm by (intros l; apply py_sorted_perm).
  set (step := fun (av : Availability) payload =>
                 if node_in (transform payload) (map transform consumed) then av
                 else if node_in (transform payload) (map transform anchors) then av
                      else dict_append sig_eqb av (component_signature payload) payload).
  assert (G : forall av : Availability,
             Permutation (pool_items (fold_left step comps av))
               (pool_items av ++ filter (free_component consumed anchors) comps)).
  { induction comps as [| c comps IH]; intros av; simpl.
    - now rewrite app_nil_r.
    - rewrite IH. unfold step, free_component.
      destruct (node_in (transform c) (map transform consumed)); simpl; [reflexivity |].
      destruct (node_in (transform c) (map transform anchors)); simpl; [reflexivity |].
      rewrite pool_append. simpl. apply Permutation_middle. }
  apply G.
Qed.

(** No anchor and no consumed payload is in the pool. *)
Lemma build_anchor_availability_in (comps consumed anchors : list InstancePayload)
    (p : InstancePayload) :
  In p (pool_items (build_anchor_availability comps consumed anchors)) ->
  In p comps
  /\ ~ In (transform p) (map transform anchors)
  /\ ~ In (transform p) (map transform consumed).
Proof.
  intros H. apply (Permutation_in _ (build_anchor_availability_perm _ _ _)) in H.
  apply filter_In in H. destruct H as [Hin Hf].
  unfold free_component in Hf. apply andb_true_iff in Hf. destruct Hf as [H1 H2].
  apply negb_true_iff in H1, H2.
  repeat split; auto; intros Hc; apply node_in_iff in Hc; congruence.
Qed.

(** The pool keeps no anchor. *)
Definition anchor_free (anchors : list InstancePayload) (av : Availability) : Prop :=
  forall p, In p (pool_items av) -> ~ In (transform p) (map transform anchors).

Lemma fills_anchor_free (anchors : list InstancePayload) (use_root : bool)
    (anchor : InstancePayload) (slots : list AssemblyTemplateSlot)
    (av av' : Availability) (ps : list InstancePayload) :
  fills self use_root anchor slots av ps av' ->
  anchor_free anchors av -> anchor_free anchors av'.
Proof.
  intros Hf Hfree p Hp. apply Hfree.
  apply (Permutation_in _ (Permutation_sym (fills_conserve Hf))).
  apply in_or_app. now right.
Qed.

(** In a run over an anchor-free pool, a root slot holds the anchor of the
    run and every other slot a payload that is no anchor. *)
Lemma fills_non_anchors (anchors : list InstancePayload) (anchor : InstancePayload)
    (slots : list AssemblyTemplateSlot) (av av' : Availability)
    (ps : list InstancePayload) :
  anchor_free anchors av ->
  fills self true anchor slots av ps av' ->
  Forall2 (fun slot p =>
             if is_root slot then p = anchor
             else ~ In (transform p) (map transform anchors))
    slots ps.
Proof.
  intros Hfree Hf. eapply Forall2_impl; [| exact (fills_sources Hf)].
  intros slot p. simpl. destruct (is_root slot); auto.
Qed.

(** An anchor among the matched payloads of [d] is the root object of [d]. *)
Definition anchors_at_root (anchors : list InstancePayload) (d : AssemblyDescriptor)
    : Prop :=
  forall k p, In (k, p) (matched_slots d) -> In p anchors ->
              same_object p (root_component d) = true.

Lemma descriptor_from_slot_mapping_fields (anchor : InstancePayload) (source : Node)
    (m : Matches) (slots : list AssemblyTemplateSlot) (d : AssemblyDescriptor) :
  descriptor_from_slot_mapping anchor source m slots = ret d ->
  root_component d = anchor /\ matched_slots d = m /\ ad_source_transform d = source.
Proof.
  unfold descriptor_from_slot_mapping. intros H.
  apply bind_ret_inv in H. destruct H as (ps & _ & H). injection H as <-. auto.
Qed.

Lemma run_anchors_at_root (anchors : list InstancePayload) (anchor : InstancePayload)
    (slots : list AssemblyTemplateSlot) (av av' : Availability)
    (ps : list InstancePayload) (d : AssemblyDescriptor) :
  anchor_free anchors av ->
  fills self true anchor slots av ps av' ->
  descriptor_from_slot_mapping anchor (transform anchor) (record_matches slots ps [])
    slots = ret d ->
  anchors_at_root anchors d.
Proof.
  intros Hfree Hf Hd k p Hin Hanchor.
  destruct (descriptor_from_slot_mapping_fields _ _ _ _ Hd) as (-> & Hm & _).
  rewrite Hm in Hin. apply record_matches_in in Hin. destruct Hin as [[] | Hin].
  simpl in Hin.
  destruct (@Forall2_in_r _ _ _ _ _ _ (fills_non_anchors Hfree Hf) Hin)
    as (slot & _ & Hslot).
  simpl in Hslot. destruct (is_root slot).
  - subst p. unfold same_object. apply Nat.eqb_refl.
  - exfalso. apply Hslot. now apply in_map.
Qed.

Lemma anchor_occurrences_roots (anchors0 : list InstancePayload)
    (template_anchor : InstancePayload) (slots : list AssemblyTemplateSlot)
    (anchors : list InstancePayload) :
  forall av ds used ds' used' av',
    anchor_free anchors0 av ->
    Forall (anchors_at_root anchors0) ds ->
    anchor_occurrences self template_anchor slots anchors av ds used
    = ret (ds', used', av') ->
    Forall (anchors_at_root anchors0) ds'.
Proof.
  induction anchors as [| anchor r IH]; intros av ds used ds' used' av' Hfree Hds H.
  - injection H as <- <- <-. exact Hds.
  - simpl in H.
    destruct (same_object anchor template_anchor); [eapply IH; eauto |].
    pose proof (match_anchor_slots_sound self anchor slots av []) as S.
    unfold match_anchor_to_template_slots in H.
    destruct (match_anchor_slots self anchor slots av []) as [[m |] av1].
    + destruct S as (ps & Hf & ->).
      pose proof (fills_anchor_free Hf Hfree) as Hfree1.
      destruct (record_matches slots ps []) as [| e m] eqn:Em.
      * eapply IH; eauto.
      * apply bind_ret_inv in H. destruct H as (d & Hd & H).
        apply IH with (3 := H); auto.
        apply Forall_app. split; [exact Hds |]. constructor; [| constructor].
        rewrite <- Em in Hd. now apply (run_anchors_at_root Hfree Hf Hd).
    + destruct S as (pre & slot & post & ps & _ & Hf & _).
      apply IH with (3 := H); auto. now apply (fills_anchor_free Hf).
Qed.
End Anchors.

Section AnchorDerivation.
Context {ML : Matrices}.
Variable self : InstanceSeparator.

(** The anchors are components of one signature. *)
Lemma first_duplicated_spec (comps candidates : list InstancePayload) :
  first_duplicated comps candidates = []
  \/ exists c,
      In c candidates
      /\ Permutation (first_duplicated comps candidates)
           (filter (fun p => sig_eqb (component_signature p) (component_signature c)) comps)
      /\ (2 <= length (first_duplicated comps candidates))%nat.
Proof.
  induction candidates as [| c r IH]; [now left |].
  cbn [first_duplicated].
  set (dups := filter (fun p => sig_eqb (component_signature p) (component_signature c))
                 comps).
  destruct (2 <=? length dups)%nat eqn:E.
  - apply Nat.leb_le in E. right. exists c. split; [now left | split].
    + apply py_sorted_perm.
    + now rewrite py_sorted_length.
  - destruct IH as [IH | (c' & Hc' & Hp & Hl)]; [now left |].
    right. exists c'. split; [now right | auto].
Qed.

Lemma select_anchor_payloads_spec (comps : list InstancePayload) :
  (forall a, In a (select_anchor_payloads comps) -> In a comps)
  /\ (forall a b,
        In a (select_anchor_payloads comps) -> In b (select_anchor_payloads comps) ->
        sig_eqb (component_signature a) (component_signature b) = true).
Proof.
  unfold select_anchor_payloads.
  destruct (first_duplicated_spec comps (py_sorted volume_ge comps))
    as [-> | (c & _ & Hp & _)]; [split; intros; contradiction |].
  split.
  - intros a Ha. apply (Permutation_in _ Hp) in Ha. now apply filter_In in Ha.
  - intros a b Ha Hb.
    apply (Permutation_in _ Hp) in Ha, Hb. apply filter_In in Ha, Hb.
    apply sig_eqb_trans with (component_signature c); [apply Ha |].
    rewrite sig_eqb_sym. apply Hb.
Qed.

Lemma anchor_slots_from_spec (anchor : InstancePayload) (radius : Q)
    (comps : list InstancePayload) :
  forall k slot,
    In slot (anchor_slots_from anchor radius comps k) ->
    signature slot = component_signature (prototype_payload slot)
    /\ is_root slot = same_object (prototype_payload slot) anchor
    /\ In (prototype_payload slot) comps.
Proof.
  induction comps as [| c comps IH]; intros k slot; simpl; [intros [] |].
  destruct (Qltb radius (payload_distance anchor c)).
  - intros H. destruct (IH _ _ H) as (H1 & H2 & H3). auto.
  - intros [<- | H]; simpl; [auto |].
    destruct (IH _ _ H) as (H1 & H2 & H3). auto.
Qed.

Lemma slot_mapping_record (slots : list AssemblyTemplateSlot) :
  slot_mapping slots = record_matches slots (map prototype_payload slots) [].
Proof.
  unfold slot_mapping, record_matches. generalize (@nil (nat * InstancePayload)).
  induction slots as [| s r IH]; intros m; simpl; [reflexivity | apply IH].
Qed.

Lemma derive_from_template_anchor_roots (template_anchor : InstancePayload)
    (anchors comps : list InstancePayload) (source : Node) (assembly_count : Z)
    (ds : list AssemblyDescriptor) :
  In template_anchor anchors ->
  (forall a b, In a anchors -> In b anchors ->
               sig_eqb (component_signature a) (component_signature b) = true) ->
  derive_from_template_anchor self template_anchor anchors comps source assembly_count
  = ret ds ->
  Forall (anchors_at_root anchors) ds.
Proof.
  intros Hta Hsig. unfold derive_from_template_anchor, build_anchor_template_slots.
  set (slots := anchor_slots_from template_anchor _ comps 0).
  destruct (length slots <=? 1)%nat; [intros [= <-]; constructor |].
  destruct (filter _ slots) as [| root_slot [| ? ?]] eqn:Eroot;
    try (intros [= <-]; constructor).
  destruct (is_root root_slot) eqn:Eis; simpl; [| intros [= <-]; constructor].
  intros H. apply bind_ret_inv in H. destruct H as (td & Htd & H).
  apply bind_ret_inv in H. destruct H as ([[descriptors used] avf] & Hocc & H).
  assert (Htemplate : anchors_at_root anchors td).
  { intros k p Hin Hp.
    destruct (descriptor_from_slot_mapping_fields _ _ _ _ Htd) as (-> & Hm & _).
    rewrite Hm, slot_mapping_record in Hin.
    apply record_matches_in in Hin. destruct Hin as [[] | Hin]. simpl in Hin.
    apply in_map_iff in Hin. destruct Hin as (slot & <- & Hslot).
    destruct (anchor_slots_from_spec _ _ _ _ _ Hslot) as (Es & Er & _).
    assert (Hin_root : In slot (filter (fun slot0 =>
                          sig_eqb (signature slot0) (component_signature template_anchor))
                          slots)).
    { apply filter_In. split; [exact Hslot |]. rewrite Es. now apply Hsig. }
    rewrite Eroot in Hin_root. destruct Hin_root as [<- | []].
    now rewrite <- Er. }
  assert (Hall : Forall (anchors_at_root anchors) descriptors).
  { eapply anchor_occurrences_roots; [| | exact Hocc].
    - intros p Hp. now apply (build_anchor_availability_in _ _ _ _ Hp).
    - constructor; [exact Htemplate | constructor]. }
  destruct (length descriptors <=? 1)%nat; [injection H as <-; constructor |].
  destruct (filter _ comps) as [| u us]; [now injection H as <- |].
  apply bind_ret_inv in H. destruct H as (fb & Hfb & H). injection H as <-.
  apply Forall_app. split; [exact Hall |]. constructor; [| constructor].
  unfold descriptor_from_components in Hfb.
  destruct (py_max_by payload_volume (u :: us)); [| discriminate].
  injection Hfb as <-. intros k p [].
Qed.

Lemma first_derivation_roots (candidates anchors comps : list InstancePayload)
    (source : Node) (assembly_count : Z) (ds : list AssemblyDescriptor) :
  incl candidates anchors ->
  (forall a b, In a anchors -> In b anchors ->
               sig_eqb (component_signature a) (component_signature b) = true) ->
  first_derivation self candidates anchors comps source assembly_count = ret ds ->
  Forall (anchors_at_root anchors) ds.
Proof.
  intros Hincl Hsig. induction candidates as [| c r IH]; simpl.
  - intros [= <-]. constructor.
  - intros H. apply bind_ret_inv in H. destruct H as (ds0 & Hd & H).
    destruct ds0 as [| d0 ds0].
    + apply IH; [| exact H]. intros x Hx. apply Hincl. now right.
    + injection H as <-.
      eapply derive_from_template_anchor_roots; [| exact Hsig | exact Hd].
      apply Hincl. now left.
Qed.

(** C10: the availability pool holds no payload whose transform is an
    anchor's or a consumed payload's; a run over such a pool gives every
    non-root slot a payload that is no anchor; and in every descriptor that
    the anchor derivation returns, an anchor among the matched payloads is
    the root object of that descriptor. *)
Theorem anchors_only_at_root :
  (forall comps consumed anchors p,
      In p (pool_items (build_anchor_availability comps consumed anchors)) ->
      In p comps
      /\ ~ In (transform p) (map transform anchors)
      /\ ~ In (transform p) (map transform consumed))
  /\ (forall anchors anchor slots av ps av',
        anchor_free anchors av ->
        fills self true anchor slots av ps av' ->
        anchor_free anchors av'
        /\ Forall2 (fun slot p =>
                      if is_root slot then p = anchor
                      else ~ In (transform p) (map transform anchors))
             slots ps)
  /\ (forall source comps ds,
        derive_anchor_assemblies_of self source comps = ret ds ->
        Forall (anchors_at_root (select_anchor_payloads comps)) ds).
Proof.
  split; [| split].
  - apply build_anchor_availability_in.
  - intros anchors anchor slots av ps av' Hfree Hf. split.
    + now apply (fills_anchor_free Hf).
    + eapply fills_non_anchors; eauto.
  - intros source comps ds. unfold derive_anchor_assemblies_of.
    destruct (length comps <? 2)%nat; [intros [= <-]; constructor |].
    destruct (length (select_anchor_payloads comps) <? 2)%nat;
      [intros [= <-]; constructor |].
    apply first_derivation_roots; [apply incl_refl |].
    apply select_anchor_payloads_spec.
Qed.
End AnchorDerivation.

(* ------------------------------------------------------------------ *)
(** ** Slot assignments *)

Lemma NoDup_map_filter {A B : Type} (f : A -> B) (p : A -> bool) (l : list A) :
  NoDup (map f l) -> NoDup (map f (filter p l)).
Proof.
  induction l as [| x l IH]; simpl; intros H; [constructor |].
  inversion H as [| ? ? Hn Hnd]; subst.
  destruct (p x); simpl; [| now apply IH].
  constructor; [| now apply IH].
  intros Hin. apply Hn. apply in_map_iff in Hin. destruct Hin as (y & E & Hy).
  apply in_map_iff. exists y. split; [exact E | now apply filter_In in Hy].
Qed.

Lemma NoDup_map_inj {A B : Type} (f : A -> B) (l : list A) (x y : A) :
  NoDup (map f l) -> In x l -> In y l -> f x = f y -> x = y.
Proof.
  induction l as [| a l IH]; simpl; [intros _ [] |].
  intros H Hx Hy E. inversion H as [| ? ? Hn Hnd]; subst.
  destruct Hx as [-> | Hx], Hy as [-> | Hy]; auto.
  - exfalso. apply Hn. rewrite E. now apply in_map.
  - exfalso. apply Hn. rewrite <- E. now apply in_map.
Qed.

Section SlotAssignments.
Context {ML : Matrices}.
Variable self : InstanceSeparator.

(** The slot ids of the matches are distinct and so are the objects. *)
Definition one_to_one (d : AssemblyDescriptor) : Prop :=
  NoDup (map fst (matched_slots d)) /\ NoDup (map oid (map snd (matched_slots d))).

Lemma anchor_slots_from_payloads (anchor : InstancePayload) (radius : Q)
    (comps : list InstancePayload) :
  forall k,
    map prototype_payload (anchor_slots_from anchor radius comps k)
    = filter (fun c => negb (Qltb radius (payload_distance anchor c))) comps.
Proof.
  induction comps as [| c comps IH]; intros k; simpl; [reflexivity |].
  destruct (Qltb radius (payload_distance anchor c)); simpl; [apply IH |].
  now rewrite IH.
Qed.

Lemma anchor_slots_from_no_root (anchor : InstancePayload) (radius : Q)
    (comps : list InstancePayload) :
  ~ In (oid anchor) (map oid comps) ->
  forall k, filter is_root (anchor_slots_from anchor radius comps k) = [].
Proof.
  induction comps as [| c comps IH]; intros Hout k; simpl; [reflexivity |].
  simpl in Hout.
  destruct (Qltb radius (payload_distance anchor c)); [apply IH; tauto |].
  simpl. unfold same_object at 1.
  destruct (Nat.eqb (oid c) (oid anchor)) eqn:E.
  - apply Nat.eqb_eq in E. tauto.
  - apply IH. tauto.
Qed.

(** Among distinct objects at most one is the anchor. *)
Lemma anchor_slots_from_roots (anchor : InstancePayload) (radius : Q)
    (comps : list InstancePayload) :
  NoDup (map oid comps) ->
  forall k, (length (filter is_root (anchor_slots_from anchor radius comps k)) <= 1)%nat.
Proof.
  induction comps as [| c comps IH]; intros Hnd k; simpl; [lia |].
  inversion Hnd as [| ? ? Hn Hnd']; subst.
  destruct (Qltb radius (payload_distance anchor c)); [now apply IH |].
  simpl. unfold same_object at 1.
  destruct (Nat.eqb (oid c) (oid anchor)) eqn:E; [| now apply IH].
  apply Nat.eqb_eq in E. rewrite anchor_slots_from_no_root; [simpl; lia |].
  now rewrite <- E.
Qed.

Lemma run_one_to_one (anchor : InstancePayload) (source : Node)
    (slots : list AssemblyTemplateSlot) (ps : list InstancePayload)
    (d : AssemblyDescriptor) :
  NoDup (map slot_id slots) ->
  length ps = length slots ->
  NoDup (map oid ps) ->
  descriptor_from_slot_mapping anchor source (record_matches slots ps []) slots = ret d ->
  one_to_one d.
Proof.
  intros Hids Hlen Hnd Hd.
  destruct (descriptor_from_slot_mapping_fields _ _ _ _ Hd) as (_ & Hm & _).
  unfold one_to_one. rewrite Hm.
  rewrite record_matches_combine by auto. cbn [app].
  destruct (@combine_fst_snd _ InstancePayload (map slot_id slots) ps) as [-> ->];
    [now rewrite length_map | auto].
Qed.

(** What a run leaves of a pool of distinct objects. *)
Lemma fills_pool_distinct (use_root : bool) (anchor : InstancePayload)
    (slots : list AssemblyTemplateSlot) (av av' : Availability)
    (ps : list InstancePayload) :
  fills self use_root anchor slots av ps av' ->
  NoDup (map oid (pool_items av)) ->
  NoDup (map oid (pool_items av'))
  /\ incl (map oid (pool_items av')) (map oid (pool_items av)).
Proof.
  intros Hf Hnd. pose proof (Permutation_map oid (fills_conserve Hf)) as Hp.
  rewrite map_app in Hp. split.
  - apply (Permutation_NoDup Hp) in Hnd. now apply NoDup_app_remove_l in Hnd.
  - intros x Hx. apply (Permutation_in _ (Permutation_sym Hp)).
    apply in_or_app. now right.
Qed.

Lemma anchor_occurrences_one_to_one (template_anchor : InstancePayload)
    (slots : list AssemblyTemplateSlot) (anchors : list InstancePayload) :
  NoDup (map slot_id slots) ->
  (length (filter is_root slots) <= 1)%nat ->
  forall av ds used ds' used' av',
    NoDup (map oid (pool_items av)) ->
    (forall a, In a anchors -> ~ In (oid a) (map oid (pool_items av))) ->
    Forall one_to_one ds ->
    anchor_occurrences self template_anchor slots anchors av ds used
    = ret (ds', used', av') ->
    Forall one_to_one ds'.
Proof.
  intros Hids Hone.
  induction anchors as [| anchor r IH]; intros av ds used ds' used' av' Hnd Hout Hds H.
  - injection H as <- <- <-. exact Hds.
  - simpl in H.
    assert (Hout_r : forall a, In a r -> ~ In (oid a) (map oid (pool_items av)))
      by (intros a Ha; apply Hout; now right).
    destruct (same_object anchor template_anchor); [eapply IH; eauto |].
    pose proof (match_anchor_slots_sound self anchor slots av []) as S.
    unfold match_anchor_to_template_slots in H.
    destruct (match_anchor_slots self anchor slots av []) as [[m |] av1].
    + destruct S as (ps & Hf & ->).
      destruct (fills_pool_distinct Hf Hnd) as [Hnd1 Hsub].
      assert (Hout1 : forall a, In a r -> ~ In (oid a) (map oid (pool_items av1)))
        by (intros a Ha Hin; apply (Hout_r a Ha); now apply Hsub).
      destruct (record_matches slots ps []) as [| e m] eqn:Em.
      * eapply IH; eauto.
      * apply bind_ret_inv in H. destruct H as (d & Hd & H).
        apply IH with (4 := H); auto.
        apply Forall_app. split; [exact Hds |]. constructor; [| constructor].
        rewrite <- Em in Hd.
        eapply run_one_to_one; [exact Hids | exact (fills_length Hf) | | exact Hd].
        apply (fills_distinct Hf Hnd). intros _. split; [| exact Hone].
        apply Hout. now left.
    + destruct S as (pre & slot & post & ps & _ & Hf & _).
      destruct (fills_pool_distinct Hf Hnd) as [Hnd1 Hsub].
      apply IH with (4 := H); auto.
      intros a Ha Hin. apply (Hout_r a Ha). now apply Hsub.
Qed.

Lemma derive_from_template_anchor_one_to_one (template_anchor : InstancePayload)
    (anchors comps : list InstancePayload) (source : Node) (assembly_count : Z)
    (ds : list AssemblyDescriptor) :
  NoDup (map oid comps) ->
  incl anchors comps ->
  derive_from_template_anchor self template_anchor anchors comps source assembly_count
  = ret ds ->
  Forall one_to_one ds.
Proof.
  intros Hnd Hincl. unfold derive_from_template_anchor, build_anchor_template_slots.
  set (radius := anchor_capture_radius self template_anchor comps assembly_count).
  set (slots := anchor_slots_from template_anchor radius comps 0).
  assert (Hids : NoDup (map slot_id slots)).
  { unfold slots. rewrite anchor_slots_from_ids. apply seq_NoDup. }
  assert (Hone : (length (filter is_root slots) <= 1)%nat)
    by now apply anchor_slots_from_roots.
  assert (Hps : NoDup (map oid (map prototype_payload slots))).
  { unfold slots. rewrite anchor_slots_from_payloads. now apply NoDup_map_filter. }
  destruct (length slots <=? 1)%nat; [intros [= <-]; constructor |].
  destruct (filter (fun slot => sig_eqb (signature slot) _) slots)
    as [| root_slot [| ? ?]] eqn:Eroot;
    try (intros [= <-]; constructor).
  destruct (is_root root_slot) eqn:Eis; simpl; [| intros [= <-]; constructor].
  intros H. apply bind_ret_inv in H. destruct H as (td & Htd & H).
  apply bind_ret_inv in H. destruct H as ([[descriptors used] avf] & Hocc & H).
  assert (Htemplate : one_to_one td).
  { rewrite slot_mapping_record in Htd.
    eapply run_one_to_one; [exact Hids | | exact Hps | exact Htd].
    now rewrite length_map. }
  assert (Hall : Forall one_to_one descriptors).
  { eapply anchor_occurrences_one_to_one; [exact Hids | exact Hone | | | | exact Hocc].
    - apply (Permutation_NoDup
               (Permutation_sym (Permutation_map oid
                  (build_anchor_availability_perm comps _ anchors)))).
      now apply NoDup_map_filter.
    - intros a Ha Hin. apply in_map_iff in Hin. destruct Hin as (p & Ep & Hp).
      destruct (build_anchor_availability_in _ _ _ _ Hp) as (Hc & Hna & _).
      apply Hna. replace p with a; [now apply in_map |].
      symmetry. apply (NoDup_map_inj oid comps); auto.
    - constructor; [exact Htemplate | constructor]. }
  destruct (length descriptors <=? 1)%nat; [injection H as <-; constructor |].
  destruct (filter _ comps) as [| u us]; [now injection H as <- |].
  apply bind_ret_inv in H. destruct H as (fb & Hfb & H). injection H as <-.
  apply Forall_app. split; [exact Hall |]. constructor; [| constructor].
  unfold descriptor_from_components in Hfb.
  destruct (py_max_by payload_volume (u :: us)); [| discriminate].
  injection Hfb as <-. split; constructor.
Qed.

Lemma first_derivation_one_to_one (candidates anchors comps : list InstancePayload)
    (source : Node) (assembly_count : Z) (ds : list AssemblyDescriptor) :
  NoDup (map oid comps) ->
  incl anchors comps ->
  first_derivation self candidates anchors comps source assembly_count = ret ds ->
  Forall one_to_one ds.
Proof.
  intros Hnd Hincl. induction candidates as [| c r IH]; simpl.
  - intros [= <-]. constructor.
  - intros H. apply bind_ret_inv in H. destruct H as (ds0 & Hd & H).
    destruct ds0 as [| d0 ds0]; [now apply IH |].
    injection H as <-. eapply derive_from_template_anchor_one_to_one; eauto.
Qed.

(** C5: a successful slot matching is one-to-one.  With distinct slot ids,
    the matches list every slot id once, in slot order, and the payloads
    assigned are pairwise distinct objects: for an anchor, when the pool
    holds distinct objects other than the anchor and the template has at
    most one root slot; for a descriptor, when its components are distinct
    objects.  Both sets of premises hold where the matching is called: every
    descriptor that the anchor derivation returns for distinct components is
    one-to-one, and against the template of a reference descriptor the
    matches list the slot ids 0, 1, ... once each. *)
Theorem slot_matching_one_to_one :
  (forall anchor slots av m av',
      NoDup (map slot_id slots) ->
      (length (filter is_root slots) <= 1)%nat ->
      NoDup (map oid (pool_items av)) ->
      ~ In (oid anchor) (map oid (pool_items av)) ->
      match_anchor_to_template_slots self anchor slots av = (Some m, av') ->
      map fst m = map slot_id slots
      /\ NoDup (map oid (map snd m)))
  /\ (forall descriptor slots m,
        NoDup (map slot_id slots) ->
        NoDup (map oid (components descriptor)) ->
        match_assembly_to_template self descriptor slots = Some m ->
        map fst m = map slot_id slots
        /\ NoDup (map oid (map snd m))
        /\ incl (map snd m) (components descriptor))
  /\ (forall source comps ds,
        NoDup (map oid comps) ->
        derive_anchor_assemblies_of self source comps = ret ds ->
        Forall one_to_one ds)
  /\ (forall descriptor reference m,
        NoDup (map oid (components descriptor)) ->
        match_assembly_to_template self descriptor (build_template_slots reference)
        = Some m ->
        map fst m = seq 0 (length (components reference))
        /\ NoDup (map oid (map snd m))
        /\ incl (map snd m) (components descriptor)).
Proof.
  assert (Hcomb : forall (slots : list AssemblyTemplateSlot) (ps : list InstancePayload),
             length ps = length slots ->
             map fst (combine (map slot_id slots) ps) = map slot_id slots
             /\ map snd (combine (map slot_id slots) ps) = ps).
  { intros slots ps Hlen. apply combine_fst_snd. now rewrite length_map. }
  assert (Hdesc : forall descriptor slots m,
             NoDup (map slot_id slots) ->
             NoDup (map oid (components descriptor)) ->
             match_assembly_to_template self descriptor slots = Some m ->
             map fst m = map slot_id slots
             /\ NoDup (map oid (map snd m))
             /\ incl (map snd m) (components descriptor)).
  { intros descriptor slots m Hids Hnd H.
    unfold match_assembly_to_template in H.
    pose proof (available_components_perm (components descriptor)) as Hav.
    assert (Hpool : NoDup (map oid (pool_items (available_components (components descriptor))))).
    { apply (Permutation_NoDup (Permutation_sym (Permutation_map oid Hav)) Hnd). }
    pose proof (@match_assembly_slots_sound _ self (root_component descriptor) slots _ []
                  Hpool) as S.
    rewrite H in S. destruct S as (ps & av' & Hf & ->).
    pose proof (fills_length Hf) as Hlen.
    rewrite record_matches_combine by auto. cbn [app].
    destruct (Hcomb slots ps Hlen) as [-> ->]. split; [reflexivity | split].
    - apply (fills_distinct Hf Hpool). discriminate.
    - intros p Hp. apply (Permutation_in _ Hav).
      pose proof (fills_conserve Hf) as Hc. rewrite picked_all in Hc by exact Hlen.
      apply (Permutation_in _ (Permutation_sym Hc)). apply in_or_app. now left. }
  split; [| split; [exact Hdesc | split]].
  - intros anchor slots av m av' Hids Hone Hnd Hout H.
    apply match_anchor_some_iff in H. destruct H as (ps & Hf & ->).
    pose proof (fills_length Hf) as Hlen.
    rewrite record_matches_combine by auto. cbn [app].
    destruct (Hcomb slots ps Hlen) as [-> ->]. split; [reflexivity |].
    apply (fills_distinct Hf Hnd). auto.
  - intros source comps ds Hnd. unfold derive_anchor_assemblies_of.
    destruct (length comps <? 2)%nat; [intros [= <-]; constructor |].
    destruct (length (select_anchor_payloads comps) <? 2)%nat;
      [intros [= <-]; constructor |].
    apply first_derivation_one_to_one; [exact Hnd |].
    intros a Ha. now apply (proj1 (select_anchor_payloads_spec comps)).
  - intros descriptor reference m Hnd H.
    assert (Hids : map slot_id (build_template_slots reference)
                   = seq 0 (length (components reference)))
      by apply template_slots_from_ids.
    rewrite <- Hids. apply Hdesc; [| exact Hnd | exact H].
    rewrite Hids. apply seq_NoDup.
Qed.
End SlotAssignments.

(* ------------------------------------------------------------------ *)
(** ** Grouping assemblies *)

Lemma py_max_by_in {A : Type} (key : A -> Q) (l : list A) (x : A) :
  py_max_by key l = Some x -> In x l.
Proof.
  destruct l as [| a l]; simpl; [discriminate |]. intros [= <-].
  revert a. induction l as [| b l IH]; intros a; simpl; [now left |].
  destruct (Qltb (key a) (key b)).
  - destruct (IH b) as [<- | H]; [right; now left | right; now right].
  - destruct (IH a) as [<- | H]; [now left | right; now right].
Qed.

Lemma enumerate_fst {A : Type} (l : list A) : map fst (enumerate l) = seq 0 (length l).
Proof.
  unfold enumerate. apply combine_fst_snd. apply length_seq.
Qed.

Lemma enumerate_from_nth {A : Type} (l : list A) (i : nat) (x : A) :
  forall k,
    In (i, x) (combine (seq k (length l)) l)
    <-> (k <= i)%nat /\ nth_error l (i - k) = Some x.
Proof.
  induction l as [| y l IH]; intros k; simpl.
  - split; [intros [] | intros [_ H]; now destruct (i - k)%nat].
  - rewrite IH. split.
    + intros [[= <- <-] | [Hk Hn]].
      * split; [lia | now rewrite Nat.sub_diag].
      * split; [lia |]. replace (i - k)%nat with (S (i - S k)) by lia. exact Hn.
    + intros [Hk Hn]. destruct (i - k)%nat as [| j] eqn:E.
      * left. injection Hn as <-. f_equal. lia.
      * right. split; [lia |]. replace (i - S k)%nat with j by lia. exact Hn.
Qed.

Lemma enumerate_nth {A : Type} (l : list A) (i : nat) (x : A) :
  In (i, x) (enumerate l) <-> nth_error l i = Some x.
Proof.
  unfold enumerate. rewrite enumerate_from_nth, Nat.sub_0_r.
  split; [tauto | intros H; split; [lia | exact H]].
Qed.

Section AssemblyGrouping.
Context {ML : Matrices}.
Variable self : InstanceSeparator.

(** The descriptor [ref] joins the group of [reference]. *)
Definition joins (reference : nat) (slots : list AssemblyTemplateSlot)
    (ref : DescriptorRef) : bool :=
  negb (Nat.eqb (fst ref) reference)
  && match match_assembly_to_template self (snd ref) slots with
     | Some _ => true
     | None => false
     end.

(** The group a bucket gives rise to. *)
Definition bucket_group (bucket : list DescriptorRef) : list AssemblyGroup :=
  match select_reference_assembly bucket with
  | None => []
  | Some (reference, ref_descriptor) =>
      let slots := build_template_slots ref_descriptor in
      [{| ag_prototype := reference;
          template_slots := slots;
          ag_members := map fst (filter (joins reference slots) bucket) |}]
  end.

Definition group_ids (g : AssemblyGroup) : list nat := ag_prototype g :: ag_members g.

Definition orphan_group (ref : DescriptorRef) : AssemblyGroup :=
  {| ag_prototype := fst ref;
     template_slots := build_template_slots (snd ref);
     ag_members := [] |}.

(** Everything of a descriptor but its matched slots. *)
Definition descriptor_body (d : AssemblyDescriptor)
    : Node * list InstancePayload * list AssemblySignature * InstancePayload * Signature :=
  (ad_source_transform d, components d, ad_signature d, root_component d,
   root_signature d).

Lemma set_matched_slots_body (store : list AssemblyDescriptor) (i : nat) (m : Matches) :
  map descriptor_body (set_matched_slots store i m) = map descriptor_body store.
Proof.
  revert i. induction store as [| d0 store IH]; intros [| i]; simpl; auto.
  now rewrite IH.
Qed.

Lemma bucket_members_spec (reference : nat) (slots : list AssemblyTemplateSlot)
    (bucket : list DescriptorRef) :
  forall store members assigned,
    let '(store', members', assigned') :=
      bucket_members self reference slots bucket store members assigned in
    members' = members ++ map fst (filter (joins reference slots) bucket)
    /\ assigned' = assigned ++ map fst (filter (joins reference slots) bucket)
    /\ map descriptor_body store' = map descriptor_body store.
Proof.
  induction bucket as [| [i d] r IH]; intros store members assigned.
  - simpl. now rewrite !app_nil_r.
  - cbn [bucket_members filter].
    assert (Hj : joins reference slots (i, d)
                 = negb (Nat.eqb i reference)
                   && match match_assembly_to_template self d slots with
                      | Some _ => true
                      | None => false
                      end) by reflexivity.
    rewrite Hj. clear Hj.
    destruct (Nat.eqb i reference); cbn [negb andb]; [apply IH |].
    destruct (match_assembly_to_template self d slots) as [m |]; [| apply IH].
    specialize (IH (set_matched_slots store i m) (members ++ [i]) (assigned ++ [i])).
    destruct (bucket_members self reference slots r _ _ _) as [[store' members'] assigned'].
    destruct IH as (-> & -> & ->). rewrite <- !app_assoc. simpl.
    repeat split. apply set_matched_slots_body.
Qed.

Lemma group_buckets_spec (buckets : list (SignatureKey * list DescriptorRef)) :
  forall st,
    gs_groups (group_buckets self buckets st)
    = gs_groups st ++ flat_map (fun kb => bucket_group (snd kb)) buckets
    /\ gs_assigned (group_buckets self buckets st)
       = gs_assigned st
         ++ flat_map group_ids (flat_map (fun kb => bucket_group (snd kb)) buckets)
    /\ map descriptor_body (gs_store (group_buckets self buckets st))
       = map descriptor_body (gs_store st).
Proof.
  induction buckets as [| [k bucket] r IH]; intros st; simpl.
  - now rewrite !app_nil_r.
  - unfold bucket_group at 1 3.
    destruct (select_reference_assembly bucket) as [[reference rd] |]; [| apply IH].
    pose proof (bucket_members_spec reference (build_template_slots rd) bucket
                  (set_matched_slots (gs_store st) reference
                     (slot_mapping (build_template_slots rd)))
                  [] (gs_assigned st ++ [reference])) as B.
    destruct (bucket_members self reference _ bucket _ _ _) as [[store' members'] assigned'].
    destruct B as (-> & -> & Hlen).
    destruct (IH {| gs_store := store';
                    gs_assigned :=
                      (gs_assigned st ++ [reference])
                      ++ map fst (filter (joins reference (build_template_slots rd)) bucket);
                    gs_groups :=
                      gs_groups st
                      ++ [{| ag_prototype := reference;
                             template_slots := build_template_slots rd;
                             ag_members :=
                               [] ++ map fst (filter (joins reference
                                                        (build_template_slots rd)) bucket) |}] |})
      as (-> & -> & ->).
    cbn [gs_groups gs_assigned gs_store flat_map app group_ids ag_prototype ag_members].
    rewrite <- !app_assoc. cbn [app].
    repeat split. now rewrite Hlen, set_matched_slots_body.
Qed.

Lemma group_unassigned_spec (refs : list DescriptorRef) :
  forall st,
    gs_groups (group_unassigned refs st)
    = gs_groups st
      ++ map orphan_group
           (filter (fun ref => negb (id_in (fst ref) (gs_assigned st))) refs)
    /\ map descriptor_body (gs_store (group_unassigned refs st))
       = map descriptor_body (gs_store st).
Proof.
  induction refs as [| [i d] r IH]; intros st; simpl.
  - now rewrite app_nil_r.
  - destruct (id_in i (gs_assigned st)); simpl; [apply IH |].
    destruct (IH {| gs_store :=
                      set_matched_slots (gs_store st) i (slot_mapping (build_template_slots d));
                    gs_assigned := gs_assigned st;
                    gs_groups :=
                      gs_groups st
                      ++ [{| ag_prototype := i;
                             template_slots := build_template_slots d;
                             ag_members := [] |}] |}) as (-> & ->).
    cbn [gs_groups gs_assigned gs_store]. rewrite <- app_assoc.
    split; [reflexivity | apply set_matched_slots_body].
Qed.

(** The groups of a pass, in closed form: one group per bucket, then one
    group per descriptor that no bucket group took. *)
Definition bucket_groups (assemblies : list AssemblyDescriptor) : list AssemblyGroup :=
  flat_map (fun kb => bucket_group (snd kb)) (signature_buckets (enumerate assemblies)).

Definition orphans (assemblies : list AssemblyDescriptor) : list DescriptorRef :=
  filter (fun ref => negb (id_in (fst ref) (flat_map group_ids (bucket_groups assemblies))))
    (enumerate assemblies).

Lemma group_assemblies_closed (assemblies : list AssemblyDescriptor) :
  snd (group_assemblies self assemblies)
  = bucket_groups assemblies ++ map orphan_group (orphans assemblies)
  /\ map descriptor_body (fst (group_assemblies self assemblies))
     = map descriptor_body assemblies.
Proof.
  unfold group_assemblies, bucket_groups, orphans. cbn [fst snd].
  destruct (group_buckets_spec (signature_buckets (enumerate assemblies))
              {| gs_store := assemblies; gs_assigned := []; gs_groups := [] |})
    as (Hg & Ha & Hl).
  destruct (group_unassigned_spec (enumerate assemblies)
              (group_buckets self (signature_buckets (enumerate assemblies))
                 {| gs_store := assemblies; gs_assigned := []; gs_groups := [] |}))
    as (-> & ->).
  rewrite Hg, Ha, Hl. simpl. auto.
Qed.
End AssemblyGrouping.

Lemma NoDup_app_disjoint {A : Type} (a b : list A) (x : A) :
  NoDup (a ++ b) -> In x a -> In x b -> False.
Proof.
  induction a as [| y a IH]; simpl; [intros _ [] |].
  intros H [-> | Hin] Hb.
  - inversion H as [| ? ? Hn _]; subst. apply Hn. apply in_or_app. now right.
  - inversion H; subst. now apply IH.
Qed.

Lemma NoDup_flat_map_sub {A B : Type} (f g : A -> list B) (l : list A) :
  NoDup (flat_map f l) ->
  (forall x, In x l -> NoDup (g x) /\ incl (g x) (f x)) ->
  NoDup (flat_map g l).
Proof.
  induction l as [| x l IH]; simpl; intros Hnd Hsub; [constructor |].
  destruct (Hsub x (or_introl eq_refl)) as [Hg Hincl].
  apply NoDup_app.
  - exact Hg.
  - apply IH; [now apply NoDup_app_remove_l in Hnd | intros y Hy; apply Hsub; now right].
  - intros b Hb Hb'. apply in_flat_map in Hb'. destruct Hb' as (y & Hy & Hby).
    apply (NoDup_app_disjoint _ _ b Hnd (Hincl _ Hb)).
    apply in_flat_map. exists y. split; [exact Hy |].
    now apply (proj2 (Hsub y (or_intror Hy))).
Qed.

Lemma NoDup_fst_unique {A B : Type} (l : list (A * B)) (k : A) (v v' : B) :
  NoDup (map fst l) -> In (k, v) l -> In (k, v') l -> v = v'.
Proof.
  induction l as [| [k0 v0] l IH]; simpl; intros Hnd [] ; inversion Hnd as [| ? ? Hn Hnd']; subst.
  - injection H as -> ->. intros [[= ->] | H']; [reflexivity |].
    exfalso. apply Hn. apply in_map_iff. now exists (k, v').
  - intros [[= -> ->] | H'].
    + exfalso. apply Hn. apply in_map_iff. now exists (k, v).
    + now apply IH.
Qed.

Lemma id_in_iff (i : nat) (l : list nat) : id_in i l = true <-> In i l.
Proof. apply node_in_iff. Qed.

Lemma map_fst_filter {A B : Type} (p : A -> bool) (l : list (A * B)) :
  map fst (filter (fun x => p (fst x)) l) = filter p (map fst l).
Proof.
  induction l as [| [a b] l IH]; simpl; [reflexivity |].
  destruct (p a); simpl; now rewrite IH.
Qed.

Lemma partition_by_membership (a all : list nat) :
  NoDup a -> NoDup all -> incl a all ->
  Permutation (a ++ filter (fun x => negb (id_in x a)) all) all.
Proof.
  intros Ha Hall Hincl. apply NoDup_Permutation.
  - apply NoDup_app; [exact Ha | now apply NoDup_filter |].
    intros x Hx Hf. apply filter_In in Hf. destruct Hf as [_ Hf].
    apply negb_true_iff in Hf. apply id_in_iff in Hx. congruence.
  - exact Hall.
  - intros x. rewrite in_app_iff, filter_In. split.
    + intros [H | [H _]]; auto.
    + intros H. destruct (id_in x a) eqn:E.
      * left. now apply id_in_iff.
      * right. split; [exact H | reflexivity].
Qed.

Section AssemblyPartition.
Context {ML : Matrices}.
Variable self : InstanceSeparator.

Definition bucketed (ref : DescriptorRef) : bool :=
  match ad_signature (snd ref) with
  | [] => false
  | _ :: _ => true
  end.

Lemma signature_buckets_perm (refs : list DescriptorRef) :
  Permutation (pool_items (signature_buckets refs)) (filter bucketed refs).
Proof.
  unfold signature_buckets.
  set (step := fun (b : dict SignatureKey (list DescriptorRef)) (ref : DescriptorRef) =>
                 match ad_signature (snd ref) with
                 | [] => b
                 | _ :: _ => dict_append (list_eqb asig_eqb) b (ad_signature (snd ref)) ref
                 end).
  assert (G : forall b : dict SignatureKey (list DescriptorRef),
             Permutation (pool_items (fold_left step refs b))
               (pool_items b ++ filter bucketed refs)).
  { induction refs as [| ref refs IH]; intros b; simpl.
    - now rewrite app_nil_r.
    - rewrite IH. unfold step, bucketed.
      destruct (ad_signature (snd ref)); [reflexivity |].
      rewrite pool_append. simpl. apply Permutation_middle. }
  apply G.
Qed.

Definition bucket_ids (kb : SignatureKey * list DescriptorRef) : list nat :=
  map fst (snd kb).

Lemma buckets_nodup (assemblies : list AssemblyDescriptor) :
  NoDup (flat_map bucket_ids (signature_buckets (enumerate assemblies))).
Proof.
  assert (E : flat_map bucket_ids (signature_buckets (enumerate assemblies))
              = map fst (pool_items (signature_buckets (enumerate assemblies)))).
  { unfold pool_items, bucket_ids.
    induction (signature_buckets (enumerate assemblies)) as [| kb l IH]; simpl;
      [reflexivity | now rewrite map_app, IH]. }
  rewrite E.
  apply (Permutation_NoDup
           (Permutation_sym (Permutation_map fst (signature_buckets_perm _)))).
  apply NoDup_map_filter. rewrite enumerate_fst. apply seq_NoDup.
Qed.

Lemma bucket_group_ids (bucket : list DescriptorRef) :
  NoDup (map fst bucket) ->
  NoDup (flat_map group_ids (bucket_group self bucket))
  /\ incl (flat_map group_ids (bucket_group self bucket)) (map fst bucket).
Proof.
  intros Hnd. unfold bucket_group.
  destruct (select_reference_assembly bucket) as [[r rd] |] eqn:E; simpl.
  - apply py_max_by_in in E. rewrite app_nil_r. split.
    + constructor; [| now apply NoDup_map_filter].
      intros Hin. apply in_map_iff in Hin. destruct Hin as ([i d] & Ei & Hf).
      simpl in Ei. subst i. apply filter_In in Hf. destruct Hf as [_ Hj].
      unfold joins in Hj. simpl in Hj. now rewrite Nat.eqb_refl in Hj.
    + intros x [<- | Hx].
      * apply in_map_iff. now exists (r, rd).
      * apply in_map_iff in Hx. destruct Hx as (y & <- & Hy).
        apply in_map. now apply filter_In in Hy.
  - split; [constructor | intros x []].
Qed.

Lemma assigned_flat (buckets : list (SignatureKey * list DescriptorRef)) :
  flat_map group_ids (flat_map (fun kb => bucket_group self (snd kb)) buckets)
  = flat_map (fun kb => flat_map group_ids (bucket_group self (snd kb))) buckets.
Proof.
  induction buckets as [| kb l IH]; simpl; [reflexivity |].
  now rewrite flat_map_app, IH.
Qed.

Lemma bucket_nodup_ids (assemblies : list AssemblyDescriptor)
    (kb : SignatureKey * list DescriptorRef) :
  In kb (signature_buckets (enumerate assemblies)) -> NoDup (map fst (snd kb)).
Proof.
  intros Hin. pose proof (buckets_nodup assemblies) as Hnd.
  destruct (in_split _ _ Hin) as (pre & post & E). rewrite E in Hnd.
  rewrite flat_map_app in Hnd. simpl in Hnd.
  apply NoDup_app_remove_l in Hnd. now apply NoDup_app_remove_r in Hnd.
Qed.

Lemma assigned_nodup (assemblies : list AssemblyDescriptor) :
  NoDup (flat_map group_ids (bucket_groups self assemblies))
  /\ incl (flat_map group_ids (bucket_groups self assemblies)) (seq 0 (length assemblies)).
Proof.
  unfold bucket_groups. rewrite assigned_flat. split.
  - apply NoDup_flat_map_sub with (f := bucket_ids); [apply buckets_nodup |].
    intros kb Hkb. apply bucket_group_ids. now apply bucket_nodup_ids with assemblies.
  - intros x Hx. apply in_flat_map in Hx. destruct Hx as (kb & Hkb & Hx).
    apply (proj2 (@bucket_group_ids (snd kb) (bucket_nodup_ids _ _ Hkb))) in Hx.
    apply in_map_iff in Hx. destruct Hx as (ref & <- & Href).
    assert (Hpool : In ref (pool_items (signature_buckets (enumerate assemblies)))).
    { apply in_flat_map. now exists kb. }
    apply (Permutation_in _ (signature_buckets_perm _)) in Hpool.
    apply filter_In in Hpool. destruct Hpool as [Hpool _].
    rewrite <- enumerate_fst. now apply in_map.
Qed.

(** Every descriptor is the prototype or a member of exactly one group. *)
Lemma group_assemblies_partition (assemblies : list AssemblyDescriptor) :
  Permutation (flat_map group_ids (snd (group_assemblies self assemblies)))
    (seq 0 (length assemblies)).
Proof.
  rewrite (proj1 (group_assemblies_closed self assemblies)).
  rewrite flat_map_app.
  assert (E : flat_map group_ids (map orphan_group (orphans self assemblies))
              = filter (fun x => negb (id_in x (flat_map group_ids
                                                  (bucket_groups self assemblies))))
                  (seq 0 (length assemblies))).
  { unfold orphans. rewrite <- enumerate_fst, <- map_fst_filter.
    induction (filter _ (enumerate assemblies)) as [| ref l IH]; simpl;
      [reflexivity | now rewrite IH]. }
  rewrite E. destruct (assigned_nodup assemblies) as [Hnd Hincl].
  apply partition_by_membership; auto. apply seq_NoDup.
Qed.
End AssemblyPartition.

Section AssemblyGroups.
Context {ML : Matrices}.
Variable self : InstanceSeparator.

Lemma bucket_refs (assemblies : list AssemblyDescriptor)
    (kb : SignatureKey * list DescriptorRef) (ref : DescriptorRef) :
  In kb (signature_buckets (enumerate assemblies)) ->
  In ref (snd kb) ->
  In ref (enumerate assemblies) /\ bucketed ref = true.
Proof.
  intros Hkb Href.
  assert (Hpool : In ref (pool_items (signature_buckets (enumerate assemblies)))).
  { apply in_flat_map. now exists kb. }
  apply (Permutation_in _ (signature_buckets_perm _)) in Hpool.
  now apply filter_In in Hpool.
Qed.

Lemma enumerate_unique {A : Type} (l : list A) (i : nat) (x y : A) :
  In (i, x) (enumerate l) -> In (i, y) (enumerate l) -> x = y.
Proof.
  rewrite !enumerate_nth. congruence.
Qed.

Lemma assigned_bucketed (assemblies : list AssemblyDescriptor) (i : nat) :
  In i (flat_map group_ids (bucket_groups self assemblies)) ->
  exists kb d,
    In kb (signature_buckets (enumerate assemblies))
    /\ In (i, d) (snd kb)
    /\ In i (flat_map group_ids (bucket_group self (snd kb))).
Proof.
  unfold bucket_groups. rewrite assigned_flat. intros H.
  apply in_flat_map in H. destruct H as (kb & Hkb & Hi).
  pose proof (proj2 (@bucket_group_ids _ self (snd kb) (bucket_nodup_ids _ _ Hkb)) _ Hi) as Hin.
  apply in_map_iff in Hin. destruct Hin as ([i' d] & E & Hd). simpl in E. subst i'.
  now exists kb, d.
Qed.

Lemma orphan_placed (assemblies : list AssemblyDescriptor) (i : nat)
    (d : AssemblyDescriptor) :
  In (i, d) (enumerate assemblies) ->
  ~ In i (flat_map group_ids (bucket_groups self assemblies)) ->
  In (orphan_group (i, d)) (snd (group_assemblies self assemblies))
  /\ forall g, In g (snd (group_assemblies self assemblies)) -> ~ In i (ag_members g).
Proof.
  intros Hin Hout. rewrite (proj1 (group_assemblies_closed self assemblies)). split.
  - apply in_or_app. right. apply in_map. unfold orphans. apply filter_In.
    split; [exact Hin |]. simpl. apply negb_true_iff.
    destruct (id_in i _) eqn:E; [| reflexivity]. apply id_in_iff in E. contradiction.
  - intros g Hg Hm. apply in_app_or in Hg. destruct Hg as [Hg | Hg].
    + apply Hout. apply in_flat_map. exists g. split; [exact Hg | now right].
    + apply in_map_iff in Hg. destruct Hg as (ref & <- & _). destruct Hm.
Qed.

Lemma unmatched_unassigned (assemblies : list AssemblyDescriptor)
    (k : SignatureKey) (bucket : list DescriptorRef) (r : nat) (rd : AssemblyDescriptor)
    (i : nat) (d : AssemblyDescriptor) :
  In (k, bucket) (signature_buckets (enumerate assemblies)) ->
  select_reference_assembly bucket = Some (r, rd) ->
  In (i, d) bucket ->
  i <> r ->
  match_assembly_to_template self d (build_template_slots rd) = None ->
  ~ In i (flat_map group_ids (bucket_groups self assemblies)).
Proof.
  intros Hkb Href Hin Hneq Hfail Hassigned.
  pose proof (buckets_nodup assemblies) as Hnd.
  unfold bucket_groups in Hassigned. rewrite assigned_flat in Hassigned.
  destruct (in_split _ _ Hkb) as (pre & post & E). rewrite E in Hnd, Hassigned.
  rewrite flat_map_app in Hnd, Hassigned. simpl in Hnd, Hassigned.
  assert (Hi : In i (bucket_ids (k, bucket))).
  { unfold bucket_ids. simpl. apply in_map_iff. now exists (i, d). }
  assert (Hsub : forall l, incl l (signature_buckets (enumerate assemblies)) ->
                           In i (flat_map (fun kb => flat_map group_ids
                                             (bucket_group self (snd kb))) l) ->
                           In i (flat_map bucket_ids l)).
  { intros l Hl H. apply in_flat_map in H. destruct H as (kb & Hkb' & H).
    apply in_flat_map. exists kb. split; [exact Hkb' |].
    apply (proj2 (@bucket_group_ids _ self (snd kb) (bucket_nodup_ids _ _ (Hl _ Hkb'))) _ H). }
  apply in_app_or in Hassigned. destruct Hassigned as [H | H].
  - apply (NoDup_app_disjoint _ _ i Hnd).
    + apply Hsub; [| exact H]. rewrite E. intros x Hx. apply in_or_app. now left.
    + apply in_or_app. now left.
  - apply in_app_or in H. destruct H as [H | H].
    + unfold bucket_group in H. simpl in H. rewrite Href in H. simpl in H.
      rewrite app_nil_r in H. destruct H as [H | H]; [congruence |].
      apply in_map_iff in H. destruct H as ([i' d'] & Ei & Hf). simpl in Ei. subst i'.
      apply filter_In in Hf. destruct Hf as [Hd' Hj].
      assert (d' = d).
      { apply (NoDup_fst_unique bucket i); auto.
        apply (bucket_nodup_ids assemblies (k, bucket) Hkb). }
      subst d'. unfold joins in Hj. simpl in Hj. rewrite Hfail in Hj.
      now rewrite andb_false_r in Hj.
    + apply NoDup_app_remove_l in Hnd.
      apply (NoDup_app_disjoint _ _ i Hnd Hi).
      apply Hsub; [| exact H]. rewrite E. intros x Hx. apply in_or_app. right. now right.
Qed.

(** C6: every descriptor is the prototype or a member of exactly one group,
    and the pass changes nothing of a descriptor but its matched slots;
    a descriptor with an empty signature is in no bucket and is the prototype
    of a group of its own without members; so is a descriptor of a bucket
    that is not the bucket's reference and does not fill every slot of the
    reference's template, which is a member of no group; a descriptor that
    does fill them is a member of the group of its bucket's reference. *)
Theorem group_assemblies_spec (assemblies : list AssemblyDescriptor) :
  let gs := snd (group_assemblies self assemblies) in
  Permutation (flat_map group_ids gs) (seq 0 (length assemblies))
  /\ map descriptor_body (fst (group_assemblies self assemblies))
     = map descriptor_body assemblies
  /\ (forall i d,
        nth_error assemblies i = Some d ->
        ad_signature d = [] ->
        (forall kb, In kb (signature_buckets (enumerate assemblies)) ->
                    ~ In (i, d) (snd kb))
        /\ In (orphan_group (i, d)) gs
        /\ forall g, In g gs -> ~ In i (ag_members g))
  /\ (forall k bucket r rd i d,
        In (k, bucket) (signature_buckets (enumerate assemblies)) ->
        select_reference_assembly bucket = Some (r, rd) ->
        In (i, d) bucket ->
        i <> r ->
        match_assembly_to_template self d (build_template_slots rd) = None ->
        In (orphan_group (i, d)) gs
        /\ forall g, In g gs -> ~ In i (ag_members g))
  /\ (forall k bucket r rd i d m,
        In (k, bucket) (signature_buckets (enumerate assemblies)) ->
        select_reference_assembly bucket = Some (r, rd) ->
        In (i, d) bucket ->
        i <> r ->
        match_assembly_to_template self d (build_template_slots rd) = Some m ->
        exists g,
          In g gs /\ ag_prototype g = r
          /\ template_slots g = build_template_slots rd
          /\ In i (ag_members g)).
Proof.
  cbv zeta. split; [apply group_assemblies_partition | split; [| split; [| split]]].
  - apply group_assemblies_closed.
  - intros i d Hn Hsig.
    assert (Hin : In (i, d) (enumerate assemblies)) by now apply enumerate_nth.
    assert (Hnb : forall kb, In kb (signature_buckets (enumerate assemblies)) ->
                             ~ In (i, d) (snd kb)).
    { intros kb Hkb Hd. destruct (bucket_refs _ _ _ Hkb Hd) as [_ Hb].
      unfold bucketed in Hb. simpl in Hb. now rewrite Hsig in Hb. }
    split; [exact Hnb |]. apply orphan_placed; [exact Hin |].
    intros Ha. destruct (assigned_bucketed _ _ Ha) as (kb & d' & Hkb & Hd' & _).
    destruct (bucket_refs _ _ _ Hkb Hd') as [Hd'' _].
    rewrite (enumerate_unique _ _ _ _ Hd'' Hin) in Hd'. now apply (Hnb kb).
  - intros k bucket r rd i d Hkb Href Hin Hneq Hfail.
    apply orphan_placed.
    + now apply (bucket_refs _ _ _ Hkb Hin).
    + eapply unmatched_unassigned; eauto.
  - intros k bucket r rd i d m Hkb Href Hin Hneq Hm.
    exists {| ag_prototype := r;
              template_slots := build_template_slots rd;
              ag_members := map fst (filter (joins self r (build_template_slots rd)) bucket) |}.
    repeat split.
    + rewrite (proj1 (group_assemblies_closed self assemblies)).
      apply in_or_app. left. unfold bucket_groups. apply in_flat_map.
      exists (k, bucket). split; [exact Hkb |]. unfold bucket_group. simpl.
      rewrite Href. now left.
    + simpl. apply in_map_iff. exists (i, d). split; [reflexivity |].
      apply filter_In. split; [exact Hin |]. unfold joins. simpl. rewrite Hm.
      apply andb_true_iff. split; [| reflexivity].
      apply negb_true_iff. now apply Nat.eqb_neq.
Qed.
End AssemblyGroups.

(* ------------------------------------------------------------------ *)
(** ** Building assemblies never fails *)

Lemma py_max_by_some {A : Type} (key : A -> Q) (l : list A) :
  l <> [] -> exists x, py_max_by key l = Some x.
Proof.
  destruct l as [| a l]; [congruence |]. intros _. simpl. eauto.
Qed.

Section NoFailure.
Context {ML : Matrices}.
Variable self : InstanceSeparator.

(** The components of [d] are among [comps]. *)
Definition within (comps : list InstancePayload) (d : AssemblyDescriptor) : Prop :=
  incl (components d) comps.

Lemma descriptor_from_components_ok (source : Node) (comps : list InstancePayload) :
  comps <> [] ->
  exists d, descriptor_from_components source comps = ret d /\ components d = comps.
Proof.
  intros H. unfold descriptor_from_components.
  destruct (py_max_by_some payload_volume H) as [root ->]. eauto.
Qed.

Lemma anchor_occurrences_ok (comps : list InstancePayload)
    (template_anchor : InstancePayload) (slots : list AssemblyTemplateSlot)
    (anchors : list InstancePayload) :
  NoDup (map slot_id slots) ->
  incl anchors comps ->
  forall av ds used,
    (forall p, In p (pool_items av) -> In p comps) ->
    Forall (within comps) ds ->
    exists ds' used' av',
      anchor_occurrences self template_anchor slots anchors av ds used
      = ret (ds', used', av')
      /\ Forall (within comps) ds'.
Proof.
  intros Hnd. induction anchors as [| anchor r IH]; intros Hincl av ds used Hpool Hds.
  - simpl. eauto.
  - assert (Hr : incl r comps) by (intros x Hx; apply Hincl; now right).
    simpl. destruct (same_object anchor template_anchor); [now apply IH |].
    pose proof (match_anchor_slots_sound self anchor slots av []) as S.
    unfold match_anchor_to_template_slots.
    destruct (match_anchor_slots self anchor slots av []) as [[m |] av1].
    + destruct S as (ps & Hf & ->).
      assert (Hpool1 : forall p, In p (pool_items av1) -> In p comps).
      { intros p Hp. apply Hpool.
        apply (Permutation_in _ (Permutation_sym (fills_conserve Hf))).
        apply in_or_app. now right. }
      pose proof (fills_length Hf) as Hlen.
      destruct (@descriptor_from_run _ anchor (transform anchor) slots ps Hnd Hlen)
        as [_ Hd].
      destruct (record_matches slots ps []) as [| e m] eqn:Em; [now apply IH |].
      rewrite Hd. simpl. apply IH; auto.
      apply Forall_app. split; [exact Hds |]. constructor; [| constructor].
      unfold within. simpl. intros p Hp.
      destruct (@Forall2_in_r _ _ _ _ _ _ (fills_sources Hf) Hp) as (slot & _ & Hsrc).
      simpl in Hsrc. destruct (is_root slot); [| now apply Hpool].
      subst p. apply Hincl. now left.
    + destruct S as (pre & slot & post & ps & _ & Hf & _).
      apply IH; auto. intros p Hp. apply Hpool.
      apply (Permutation_in _ (Permutation_sym (fills_conserve Hf))).
      apply in_or_app. now right.
Qed.

Lemma map_prototype_slots (anchor : InstancePayload) (radius : Q)
    (comps : list InstancePayload) (k : nat) :
  incl (map prototype_payload (anchor_slots_from anchor radius comps k)) comps.
Proof.
  intros p Hp. apply in_map_iff in Hp. destruct Hp as (slot & <- & Hs).
  now apply (anchor_slots_from_spec _ _ _ _ _ Hs).
Qed.

Lemma derive_from_template_anchor_ok (template_anchor : InstancePayload)
    (anchors comps : list InstancePayload) (source : Node) (assembly_count : Z) :
  incl anchors comps ->
  exists ds,
    derive_from_template_anchor self template_anchor anchors comps source assembly_count
    = ret ds
    /\ Forall (within comps) ds.
Proof.
  intros Hincl. unfold derive_from_template_anchor, build_anchor_template_slots.
  set (radius := anchor_capture_radius self template_anchor comps assembly_count).
  set (slots := anchor_slots_from template_anchor radius comps 0).
  assert (Hnd : NoDup (map slot_id slots)).
  { unfold slots. rewrite anchor_slots_from_ids. apply seq_NoDup. }
  destruct (length slots <=? 1)%nat; [eauto |].
  destruct (filter _ slots) as [| root_slot [| ? ?]]; eauto.
  destruct (is_root root_slot); simpl; [| eauto].
  rewrite slot_mapping_record.
  destruct (@descriptor_from_run _ template_anchor (transform template_anchor) slots
              (map prototype_payload slots) Hnd (length_map _ _)) as [_ ->].
  simpl.
  match goal with
  | |- context [anchor_occurrences self ?ta ?sl ?an ?av ?ds ?us] =>
      destruct (@anchor_occurrences_ok comps ta sl an Hnd Hincl av ds us)
        as (ds' & used' & av' & -> & Hall)
  end.
  - intros p Hp. now apply (build_anchor_availability_in _ _ _ _ Hp).
  - constructor; [| constructor]. unfold within. simpl. apply map_prototype_slots.
  - simpl. destruct (length ds' <=? 1)%nat; [eauto |].
    destruct (filter _ comps) as [| u us] eqn:Eu; [eauto |].
    destruct (@descriptor_from_components_ok source (u :: us)) as (fb & -> & Hfb);
      [discriminate |].
    simpl. eexists. split; [reflexivity |].
    apply Forall_app. split; [exact Hall |]. constructor; [| constructor].
    unfold within. rewrite Hfb, <- Eu. intros p Hp. now apply filter_In in Hp.
Qed.

Lemma first_derivation_ok (candidates anchors comps : list InstancePayload)
    (source : Node) (assembly_count : Z) :
  incl anchors comps ->
  exists ds,
    first_derivation self candidates anchors comps source assembly_count = ret ds
    /\ Forall (within comps) ds.
Proof.
  intros Hincl. induction candidates as [| c r IH]; simpl; [eauto |].
  destruct (derive_from_template_anchor_ok c source assembly_count Hincl)
    as (ds & -> & Hds).
  simpl. destruct ds; [exact IH | eauto].
Qed.

Lemma derive_anchor_assemblies_ok (source : Node) (comps : list InstancePayload) :
  exists ds,
    derive_anchor_assemblies_of self source comps = ret ds /\ Forall (within comps) ds.
Proof.
  unfold derive_anchor_assemblies_of.
  destruct (length comps <? 2)%nat; [eauto |].
  destruct (length (select_anchor_payloads comps) <? 2)%nat; [eauto |].
  apply first_derivation_ok. intros a Ha.
  now apply (proj1 (select_anchor_payloads_spec comps)).
Qed.

Lemma assemblies_of_buckets_ok (buckets : list (Node * list InstancePayload)) :
  Forall (fun kb => snd kb <> []) buckets ->
  exists ds,
    assemblies_of_buckets self buckets = ret ds
    /\ Forall (within (pool_items buckets)) ds.
Proof.
  induction 1 as [| [source comps] r Hne _ IH]; simpl; [eauto |].
  destruct IH as (rest & -> & Hrest). simpl in Hne.
  assert (Hrest' : Forall (within (pool_items ((source, comps) :: r))) rest).
  { eapply Forall_impl; [| exact Hrest]. intros d Hd p Hp.
    unfold pool_items. simpl. apply in_or_app. right. now apply Hd. }
  assert (Hwhole : exists ds,
             match py_max_by payload_volume comps with
             | None => raise MaxOfEmptySequence
             | Some root =>
                 rest0 <- ret rest ;;
                 ret ({| ad_source_transform := source;
                         components := comps;
                         ad_signature := signature_of_components comps;
                         root_component := root;
                         root_signature := component_signature root;
                         matched_slots := [] |} :: rest0)
             end = ret ds
             /\ Forall (within (pool_items ((source, comps) :: r))) ds).
  { destruct (py_max_by_some payload_volume Hne) as [root ->]. simpl.
    eexists. split; [reflexivity |]. constructor; [| exact Hrest'].
    unfold within, pool_items. simpl. intros p Hp. apply in_or_app. now left. }
  destruct (derive_anchor_assemblies self).
  - destruct (derive_anchor_assemblies_ok source comps) as ([| d ds] & -> & Hds); simpl.
    + exact Hwhole.
    + eexists. split; [reflexivity |].
      change (d :: ds ++ rest) with ((d :: ds) ++ rest).
      apply Forall_app. split; [| exact Hrest'].
      eapply Forall_impl; [| exact Hds]. intros d' Hd' p Hp.
      unfold pool_items. simpl. apply in_or_app. left. now apply Hd'.
  - simpl. exact Hwhole.
Qed.

Lemma dict_append_nonempty {K A : Type} (keq : K -> K -> bool) (d : dict K (list A))
    (k : K) (x : A) :
  Forall (fun kb => snd kb <> []) d ->
  Forall (fun kb => snd kb <> []) (dict_append keq d k x).
Proof.
  intros H. unfold dict_append. destruct (dict_get keq d k) as [l |] eqn:E.
  - destruct (dict_set_present keq d k (l ++ [x]) E) as (d1 & k0 & d2 & -> & ->).
    apply Forall_app in H. destruct H as [H1 H2]. inversion H2; subst.
    apply Forall_app. split; [exact H1 |]. constructor; [| assumption].
    simpl. now destruct l.
  - rewrite dict_set_absent by exact E. apply Forall_app. split; [exact H |].
    constructor; [discriminate | constructor].
Qed.

(** [_build_assemblies] returns, and every descriptor is made of payloads of
    the list. *)
Lemma build_assemblies_ok (payloads : list InstancePayload) :
  exists ds,
    build_assemblies self payloads = ret ds /\ Forall (within payloads) ds.
Proof.
  unfold build_assemblies.
  set (step := fun (b : dict Node (list InstancePayload)) payload =>
                 dict_append Nat.eqb b (source_transform payload) payload).
  assert (G : forall b,
             Forall (fun kb => snd kb <> []) b ->
             Forall (fun kb => snd kb <> []) (fold_left step payloads b)
             /\ Permutation (pool_items (fold_left step payloads b))
                  (pool_items b ++ payloads)).
  { induction payloads as [| p ps IH]; intros b Hb; simpl.
    - split; [exact Hb | now rewrite app_nil_r].
    - destruct (IH (step b p)) as [H1 H2]; [now apply dict_append_nonempty |].
      split; [exact H1 |]. rewrite H2. unfold step. rewrite pool_append.
      simpl. apply Permutation_middle. }
  destruct (G [] (Forall_nil _)) as [Hne Hperm].
  destruct (assemblies_of_buckets_ok Hne) as (ds & -> & Hds).
  exists ds. split; [reflexivity |].
  eapply Forall_impl; [| exact Hds]. intros d Hd p Hp.
  apply (Permutation_in _ Hperm). now apply Hd.
Qed.
End NoFailure.

(* ------------------------------------------------------------------ *)
(** ** The discovery pass *)

Section Discovery.
Context {ML : Matrices}.
Variable self : InstanceSeparator.
Variable scene : Scene.

Lemma build_payload_no_mesh (reg : Registry) (id : nat) (t : Node) :
  mesh_shape scene t = None -> build_payload scene reg id t = ret (reg, None).
Proof. intros H. unfold build_payload. now rewrite H. Qed.

Lemma build_payload_none (reg reg' : Registry) (id : nat) (t : Node) :
  build_payload scene reg id t = ret (reg', None) -> mesh_shape scene t = None.
Proof.
  unfold build_payload. destruct (mesh_shape scene t); [| reflexivity].
  destruct (to_mmatrix scene t); [| discriminate].
  destruct (dict_get Nat.eqb (source_world_mats reg) _);
    destruct (get_bounding_box scene t); discriminate.
Qed.

Lemma build_payload_raise (reg : Registry) (id : nat) (t : Node) (e : Raised) :
  build_payload scene reg id t = raise e ->
  e = MatrixQueryFailed t /\ mesh_shape scene t <> None /\ to_mmatrix scene t = None.
Proof.
  unfold build_payload. destruct (mesh_shape scene t); [| discriminate].
  destruct (to_mmatrix scene t).
  - destruct (dict_get Nat.eqb (source_world_mats reg) _);
      destruct (get_bounding_box scene t); discriminate.
  - intros [= <-]. repeat split. discriminate.
Qed.

(** A payload stands for a transform of the scene that carries a mesh. *)
Definition built_from (transforms : list Node) (p : InstancePayload) : Prop :=
  In (transform p) transforms
  /\ mesh_shape scene (transform p) = Some (shape p)
  /\ to_mmatrix scene (transform p) = Some (matrix p).

Lemma build_payloads_ret (transforms : list Node) :
  forall reg k reg' built,
    build_payloads scene reg k transforms = ret (reg', built) ->
    Forall (built_from transforms) (not_none built)
    /\ (not_none built = [] <-> Forall (fun t => mesh_shape scene t = None) transforms).
Proof.
  induction transforms as [| t r IH]; intros reg k reg' built; simpl.
  - intros [= <- <-]. simpl. split; [constructor | split; constructor].
  - intros H. apply bind_ret_inv in H. destruct H as ([reg1 op] & Hb & H).
    apply bind_ret_inv in H. destruct H as ([reg2 rest] & Hr & H).
    injection H as <- <-. destruct (IH _ _ _ _ Hr) as [Hall Hnone].
    assert (Hall' : Forall (built_from (t :: r)) (not_none rest)).
    { eapply Forall_impl; [| exact Hall]. intros p (H1 & H2 & H3).
      split; [now right | auto]. }
    destruct op as [p |]; simpl.
    + destruct (build_payload_inv _ _ _ _ Hb) as (sm & H1 & H2 & H3 & _).
      split.
      * constructor; [| exact Hall'].
        split; [left; now rewrite H3 | split; now rewrite H3].
      * split; [discriminate |]. intros Hf. apply Forall_inv in Hf. congruence.
    + apply build_payload_none in Hb. split; [exact Hall' |].
      rewrite Hnone. split; [now constructor | intros Hf; now inversion Hf].
Qed.

Lemma build_payloads_raise (transforms : list Node) :
  forall reg k e,
    build_payloads scene reg k transforms = raise e ->
    exists t,
      e = MatrixQueryFailed t /\ In t transforms
      /\ mesh_shape scene t <> None /\ to_mmatrix scene t = None.
Proof.
  induction transforms as [| t r IH]; intros reg k e; simpl; [discriminate |].
  destruct (build_payload scene reg k t) as [e0 | [reg1 op]] eqn:Hb; simpl.
  - intros [= <-]. apply build_payload_raise in Hb. destruct Hb as (-> & H1 & H2).
    exists t. repeat split; auto.
  - destruct (build_payloads scene reg1 (S k) r) as [e1 | [reg2 rest]] eqn:Hr; simpl;
      [| discriminate].
    intros [= <-]. destruct (IH _ _ _ Hr) as (t' & -> & Hin & H1 & H2).
    exists t'. repeat split; auto.
Qed.

(** C8: the outcomes of [separate].  It raises its first error exactly on an
    empty list of transforms and its second exactly when no expanded
    transform carries a mesh; the only other exception is the one of the
    world-matrix query of a transform that carries a mesh, which
    [_build_payload] does not catch; the template-slot error and the error
    of [max] never occur.  A transform without a mesh gives no payload, and
    every payload of the groups and of the assemblies of the result stands
    for a transform that carries a mesh. *)
Theorem separate_outcomes (reg0 : Registry) (nodes : list Node) :
  let transforms := normalize_nodes scene nodes in
  let expanded := snd (expanded_transforms self scene transforms) in
  (separate self scene reg0 nodes = raise NoTransformsSupplied <-> transforms = [])
  /\ (separate self scene reg0 nodes = raise NoMeshPayloads
      <-> transforms <> []
          /\ Forall (fun t => mesh_shape scene t = None) expanded)
  /\ (forall e,
        separate self scene reg0 nodes = raise e ->
        e = NoTransformsSupplied \/ e = NoMeshPayloads
        \/ exists t,
            e = MatrixQueryFailed t /\ In t expanded
            /\ mesh_shape scene t <> None /\ to_mmatrix scene t = None)
  /\ (forall reg r,
        separate self scene reg0 nodes = ret (reg, r) ->
        (forall p, In p (grouped (groups r)) -> built_from expanded p)
        /\ (forall d p, In d (assemblies r) -> In p (components d) ->
                        built_from expanded p)).
Proof.
  cbv zeta. unfold separate.
  destruct (normalize_nodes scene nodes) as [| t0 ts] eqn:En.
  { repeat split; try discriminate; try congruence.
    - intros [H _]. congruence.
    - intros e [= <-]. now left. }
  set (transforms := t0 :: ts).
  destruct (expanded_transforms self scene transforms) as [reg expanded] eqn:Ee.
  cbn [snd].
  destruct (build_payloads scene reg 0 expanded) as [e0 | [reg1 built]] eqn:Hb; cbn [bind].
  { destruct (build_payloads_raise _ _ _ Hb) as (t & -> & Hin & Hm & Hq).
    repeat split; try discriminate.
    - intros [_ Hall]. exfalso. apply Hm.
      now apply (proj1 (Forall_forall _ _) Hall).
    - intros e [= <-]. right. right. exists t. auto. }
  destruct (build_payloads_ret _ _ _ Hb) as [Hall Hnone].
  destruct (not_none built) as [| p0 ps] eqn:Ep.
  { repeat split; try discriminate.
    - now apply Hnone.
    - intros e [= <-]. right. now left. }
  destruct (build_assemblies_ok self (p0 :: ps)) as (ds & -> & Hds). cbn [bind ret].
  destruct (group_assemblies self ds) as [store gs] eqn:Eg.
  split; [split; discriminate | split; [| split]].
  - split; [discriminate |]. intros [_ Hf]. apply Hnone in Hf. discriminate.
  - intros e. discriminate.
  - intros reg' r [= <- <-]. cbn [groups assemblies]. split.
    + intros p Hp.
      apply (Permutation_in _ (group_payloads_perm self (p0 :: ps))) in Hp.
      apply (proj1 (Forall_forall _ _) Hall _ Hp).
    + intros d p Hd Hp.
      pose proof (proj2 (group_assemblies_closed self ds)) as Hbody.
      rewrite Eg in Hbody. cbn [fst] in Hbody.
      assert (Hc : In (components d) (map components ds)).
      { replace (map components ds)
          with (map (fun b => snd (fst (fst (fst b)))) (map descriptor_body ds))
          by (rewrite map_map; reflexivity).
        rewrite <- Hbody, map_map. apply in_map_iff. now exists d. }
      apply in_map_iff in Hc. destruct Hc as (d0 & Ed & Hd0).
      apply (proj1 (Forall_forall _ _) Hall).
      apply (proj1 (Forall_forall _ _) Hds _ Hd0). now rewrite Ed.
Qed.
End Discovery.

(** Both crates of the fogged yard carry a mesh, the matrix of the first
    cannot be read, and [separate] ends with the exception of that query:
    neither of its own two errors, and no result. *)
Lemma separate_matrix_query_raises :
  normalize_nodes Boxes.fogged_yard [0%nat; 1%nat] = [0%nat; 1%nat]
  /\ mesh_shape Boxes.fogged_yard 0%nat = Some 100%nat
  /\ mesh_shape Boxes.fogged_yard 1%nat = Some 101%nat
  /\ to_mmatrix Boxes.fogged_yard 0%nat = None
  /\ separate default_separator Boxes.fogged_yard empty_registry [0%nat; 1%nat]
     = raise (MatrixQueryFailed 0%nat).
Proof. repeat split; vm_compute; reflexivity. Qed.

(* ------------------------------------------------------------------ *)
(** ** Order and repeatability of a pass *)







Section PassOrder.
Context {ML : Matrices}.
Variable self : InstanceSeparator.



End PassOrder.

Section Repeatability.
Context {ML : Matrices}.
Variable self : InstanceSeparator.




End Repeatability.

(* ------------------------------------------------------------------ *)
(** ** Two passes worked out *)

(** The payloads of a result by the position of their transform. *)
Definition group_positions {ML : Matrices} (r : InstanceSeparationResult)
    : list (list nat) :=
  map (fun g => map oid (all_payloads g)) (groups r).

Definition assembly_positions {ML : Matrices} (r : InstanceSeparationResult)
    : list (list nat) :=
  map (fun d => map oid (components d)) (assemblies r).

Definition slot_positions {ML : Matrices} (r : InstanceSeparationResult)
    : list (list (nat * nat)) :=
  map (fun d => map (fun m => (fst m, oid (snd m))) (matched_slots d)) (assemblies r).

(** What a pass returns, by positions. *)
Definition pass_positions {ML : Matrices}
    (out : result (Registry * InstanceSeparationResult))
    : option (nat * list (list nat) * list (list nat) * list (list (nat * nat))
              * list (list nat)) :=
  match out with
  | inl _ => None
  | inr (_, r) =>
      Some (payload_count r, group_positions r, assembly_positions r, slot_positions r,
            map group_ids (assembly_groups r))
  end.

(** The rack: the bolts form one instance group and the nuts another; the
    anchor derivation takes the first bolt as the template, finds the second
    bolt with its two nuts and leaves the two bare bolts to a last assembly. *)
Lemma rack_pass :
  pass_positions (separate default_separator Boxes.rack empty_registry [0%nat])
  = Some (8, [[0; 3; 6; 7]; [1; 2; 4; 5]], [[0; 1; 2]; [3; 4; 5]; [6; 7]],
          [[(0, 0); (1, 1); (2, 2)]; [(0, 3); (1, 4); (2, 5)]; [(0, 6); (1, 7)]],
          [[0]; [1]; [2]])%nat.
Proof. vm_compute. reflexivity. Qed.

(** The bench: the first two meshes have one signature and the second joins
    the group of the first; the third has a signature of its own. *)
Lemma bench_pass :
  pass_positions (separate default_separator Boxes.bench empty_registry [0; 10; 20]%nat)
  = Some (6, [[0; 2; 4]; [1; 3; 5]], [[0; 1]; [2; 3]; [4; 5]],
          [[(0, 0); (1, 1)]; [(0, 2); (1, 3)]; [(0, 4); (1, 5)]],
          [[0; 1]; [2]])%nat.
Proof. vm_compute. reflexivity. Qed.

(* ------------------------------------------------------------------ *)
(** * Further properties of the discovery code *)

(** ** The two similarity tests *)

Lemma list_eqb_sym {A : Type} (eqb : A -> A -> bool) (xs : list A) :
  (forall x y, eqb x y = eqb y x) ->
  forall ys, list_eqb eqb xs ys = list_eqb eqb ys xs.
Proof.
  intros Hs. induction xs as [| x xs IH]; intros [| y ys]; simpl; auto.
  now rewrite Hs, IH.
Qed.

Lemma list_eqb_refl {A : Type} (eqb : A -> A -> bool) (xs : list A) :
  (forall x, eqb x x = true) -> list_eqb eqb xs xs = true.
Proof.
  intros Hr. induction xs as [| x xs IH]; simpl; [reflexivity |].
  now rewrite Hr, IH.
Qed.

Lemma list_eqb_trans {A : Type} (eqb : A -> A -> bool) :
  (forall x y z, eqb x y = true -> eqb y z = true -> eqb x z = true) ->
  forall xs ys zs,
    list_eqb eqb xs ys = true -> list_eqb eqb ys zs = true -> list_eqb eqb xs zs = true.
Proof.
  intros Ht. induction xs as [| x xs IH]; intros [| y ys] [| z zs]; simpl; auto;
    try discriminate.
  rewrite !andb_true_iff. intros [H1 H2] [H3 H4]. split; eauto.
Qed.

Lemma Qle_bool_comp (t x y : Q) : x == y -> Qle_bool t x = Qle_bool t y.
Proof.
  intros E. apply eq_true_iff_eq. rewrite !Qle_bool_iff, E. reflexivity.
Qed.

Lemma ratio_sym (a b : Q) : ratio a b == ratio b a.
Proof.
  unfold ratio. cbv zeta. rewrite (Qabs_Qminus a b), (Q.max_comm a b). reflexivity.
Qed.

Lemma ratio_refl (a : Q) : ratio a a == 1.
Proof.
  unfold ratio. cbv zeta.
  assert (E : Qabs (a - a) == 0).
  { assert (E0 : a - a == 0) by ring. rewrite E0. reflexivity. }
  rewrite E. unfold Qdiv. ring.
Qed.

Lemma volume_similarity_sym (va vb : Q) :
  volume_similarity_of va vb == volume_similarity_of vb va.
Proof.
  unfold volume_similarity_of. rewrite (Qabs_Qminus va vb), (Q.max_comm va vb).
  reflexivity.
Qed.

Lemma volume_similarity_refl (v : Q) : volume_similarity_of v v == 1.
Proof.
  unfold volume_similarity_of.
  assert (E : Qabs (v - v) == 0).
  { assert (E0 : v - v == 0) by ring. rewrite E0. reflexivity. }
  rewrite E. unfold Qdiv. ring.
Qed.

Section SimilarityTests.
Context {ML : Matrices}.
Variable self : InstanceSeparator.

Lemma geometry_similarity_sym (a b : InstancePayload) :
  geometry_similarity a b == geometry_similarity b a.
Proof.
  rewrite !geometry_similarity_eq. unfold axis_similarity.
  rewrite (ratio_sym (vec_x (bbox_size a))), (ratio_sym (vec_y (bbox_size a))),
    (ratio_sym (vec_z (bbox_size a))).
  rewrite (volume_similarity_sym (product_clamped_volume (bbox_size a))).
  reflexivity.
Qed.

Lemma geometry_similarity_refl (a : InstancePayload) : geometry_similarity a a == 1.
Proof.
  rewrite geometry_similarity_eq. unfold axis_similarity.
  rewrite !ratio_refl, volume_similarity_refl. reflexivity.
Qed.

(** X1: both tests of [_match_group] are symmetric in the two payloads.  The
    material test is an equivalence; a payload passes the geometry test
    against itself exactly when the tolerance is at most 1. *)
Theorem similarity_tests_symmetric (a b c : InstancePayload) :
  materials_match self a b = materials_match self b a
  /\ geometry_matches self a b = geometry_matches self b a
  /\ materials_match self a a = true
  /\ (materials_match self a b = true -> materials_match self b c = true ->
      materials_match self a c = true)
  /\ (geometry_matches self a a = true <-> tolerance self <= 1).
Proof.
  split; [| split; [| split; [| split]]].
  - unfold materials_match. destruct (require_same_material self); simpl; [| reflexivity].
    apply list_eqb_sym. apply String.eqb_sym.
  - unfold geometry_matches. rewrite (Z.eqb_sym (vertex_count a)).
    destruct (vertex_count b =? vertex_count a)%Z; simpl; [| reflexivity].
    apply Qle_bool_comp, geometry_similarity_sym.
  - unfold materials_match. destruct (require_same_material self); simpl; [| reflexivity].
    apply list_eqb_refl. apply String.eqb_refl.
  - unfold materials_match. destruct (require_same_material self); simpl; [| reflexivity].
    apply list_eqb_trans. intros x y z H1 H2.
    apply String.eqb_eq in H1, H2. subst. apply String.eqb_refl.
  - unfold geometry_matches. rewrite Z.eqb_refl. simpl.
    rewrite (Qle_bool_comp _ (geometry_similarity_refl a)). apply Qle_bool_iff.
Qed.
End SimilarityTests.

(* ------------------------------------------------------------------ *)
(** ** What the grouping pass keeps true *)

Section GroupingInvariant.
Context {ML : Matrices}.
Variable self : InstanceSeparator.

Lemma add_member_at_nth (gs : list InstanceGroup) (p : InstancePayload) :
  forall k i,
    nth_error (add_member_at gs k p) i
    = if Nat.eqb i k then option_map (fun g => add_member g p) (nth_error gs i)
      else nth_error gs i.
Proof.
  induction gs as [| g gs IH]; intros [| k] [| i]; simpl; auto.
  now destruct (Nat.eqb i k).
Qed.

(** Every member fits the prototype of its group, and no payload of a group
    fits the prototype of an earlier group. *)
Definition first_fit (gs : list InstanceGroup) : Prop :=
  (forall g p, In g gs -> In p (members g) -> fits self p g)
  /\ (forall i j gi gj p,
        (i < j)%nat -> nth_error gs i = Some gi -> nth_error gs j = Some gj ->
        In p (all_payloads gj) -> ~ fits self p gi).

Lemma group_step_first_fit (gs : list InstanceGroup) (p : InstancePayload) :
  first_fit gs -> first_fit (group_step self gs p).
Proof.
  intros [Hm Hx]. unfold group_step, match_group.
  destruct (match_group_from self p gs 0) as [k |] eqn:E.
  - pose proof E as E1. apply match_group_from_some in E1.
    destruct E1 as (j & g & -> & Hn & Hf & Hfirst).
    simpl. split.
    + intros g' p' Hg Hp. apply In_nth_error in Hg. destruct Hg as [i Hi].
      rewrite add_member_at_nth in Hi. destruct (Nat.eqb_spec i j) as [Eij | _]; [subst i |].
      * rewrite Hn in Hi. simpl in Hi. injection Hi as <-. simpl in Hp.
        apply in_app_or in Hp. destruct Hp as [Hp | [<- | []]].
        -- apply (Hm g p'); [now apply nth_error_In with j | exact Hp].
        -- exact Hf.
      * apply (Hm g' p'); [now apply nth_error_In with i | exact Hp].
    + intros i i' gi gi' p' Hlt Hi Hi' Hp.
      rewrite add_member_at_nth in Hi, Hi'.
      assert (Hgi : exists g0, nth_error gs i = Some g0 /\ prototype g0 = prototype gi).
      { destruct (Nat.eqb i j); [| now exists gi].
        destruct (nth_error gs i) as [g0 |]; [| discriminate].
        injection Hi as <-. now exists g0. }
      destruct Hgi as (g0 & Hg0 & Ep).
      assert (Hfit : forall q, fits self q gi <-> fits self q g0)
        by (intros q; unfold fits; now rewrite Ep).
      rewrite Hfit.
      destruct (Nat.eqb_spec i' j) as [Eij | _]; [subst i' |].
      * rewrite Hn in Hi'. simpl in Hi'. injection Hi' as <-.
        unfold all_payloads in Hp. simpl in Hp.
        destruct Hp as [<- | Hp].
        -- apply (Hx i j g0 g (prototype g)); auto. now left.
        -- apply in_app_or in Hp. destruct Hp as [Hp | [<- | []]].
           ++ apply (Hx i j g0 g p'); auto. now right.
           ++ now apply (Hfirst i g0).
      * now apply (Hx i i' g0 gi' p').
  - pose proof (proj1 (match_group_from_none self p gs 0) E) as Hnone. split.
    + intros g p' Hg Hp. apply in_app_or in Hg. destruct Hg as [Hg | [<- | []]].
      * now apply Hm.
      * destruct Hp.
    + intros i j gi gj p' Hlt Hi Hj Hp.
      assert (Hlen : (j < length (gs ++ [{| prototype := p; members := [] |}]))%nat)
        by (apply nth_error_Some; congruence).
      rewrite length_app in Hlen. simpl in Hlen.
      rewrite nth_error_app1 in Hi by lia.
      destruct (Nat.eq_dec j (length gs)) as [-> | Hne].
      * rewrite nth_error_app2, Nat.sub_diag in Hj by lia. simpl in Hj.
        injection Hj as <-. destruct Hp as [<- | []].
        apply Hnone. now apply nth_error_In with i.
      * rewrite nth_error_app1 in Hj by lia. now apply (Hx i j gi gj p').
Qed.

(** X2: in the groups that [_group_payloads] returns, every member passes
    both tests against the prototype of its group, and no payload of a group
    (prototype or member) passes them against the prototype of an earlier
    group: each payload sits in the first group that accepts it. *)
Theorem group_payloads_first_fit (payloads : list InstancePayload) :
  first_fit (group_payloads self payloads).
Proof.
  induction payloads as [| p ps IH] using rev_ind.
  - split; [intros g p [] | intros i j gi gj p _ Hi; now destruct i].
  - rewrite group_payloads_snoc. now apply group_step_first_fit.
Qed.
End GroupingInvariant.

Section OrderDependence.
Context {ML : Matrices}.

(** A cube of the given side at the origin. *)
Definition cube (id : nat) (side : Q) : InstancePayload :=
  {| oid := id;
     transform := id;
     shape := (100 + id)%nat;
     matrix := mm_identity;
     bbox_center := (0, 0, 0);
     bbox_size := (side, side, side);
     materials := ["lambert1"%string];
     parent := None;
     visibility := true;
     vertex_count := 8;
     source_transform := id;
     local_matrix := mm_identity;
     world_position := (0, 0, 0) |}.

(** X3: under the default settings the geometry test is not transitive, and
    the number of groups depends on the order of the input: three cubes of
    sides 1, 1.01 and 1.02 form one group when the middle one comes first
    and two groups when the smallest does. *)
Theorem group_payloads_order_dependent :
  ~ (forall a b c : InstancePayload,
       geometry_matches default_separator a b = true ->
       geometry_matches default_separator b c = true ->
       geometry_matches default_separator a c = true)
  /\ ~ (forall ps ps' : list InstancePayload,
          Permutation ps ps' ->
          length (group_payloads default_separator ps)
          = length (group_payloads default_separator ps')).
Proof.
  split.
  - intros H.
    assert (H1 : geometry_matches default_separator (cube 0 1) (cube 1 (101 # 100)) = true)
      by (vm_compute; reflexivity).
    assert (H2 : geometry_matches default_separator (cube 1 (101 # 100))
                   (cube 2 (102 # 100)) = true)
      by (vm_compute; reflexivity).
    specialize (H _ _ _ H1 H2). vm_compute in H. discriminate.
  - intros H.
    specialize (H [cube 0 1; cube 1 (101 # 100); cube 2 (102 # 100)]
                  [cube 1 (101 # 100); cube 0 1; cube 2 (102 # 100)] (perm_swap _ _ _)).
    vm_compute in H. discriminate.
Qed.
End OrderDependence.
